(** * trashmap: an append-only string-to-string hash map (trashmap.h)

    A shallow embedding of the header-only C library [trashmap.h] and the
    verification of its specification.

    Modelling conventions (LP64 target, as on x86-64 Linux):
    - [size_t] is a 64-bit unsigned integer, [uint32_t] a 32-bit one; both
      are values of [Z] and every C operation that can wrap has its
      reduction modulo [2^64] or [2^32] written out;
    - [sizeof(trashmap_slot_t) = 8] and [sizeof(trashmap_item_t) = 16];
    - a [const char *] is a [cstring]: an address together with the bytes
      found there; the bytes of the C string are those before the first NUL;
    - an array obtained from the allocator is a list of cells; an item cell
      that was never written is [None], and reading it is undefined;
    - the allocator and the assertion hook are the defaults (glibc's
      [malloc], [realloc] and [free], and [assert]). A request of more
      than [PTRDIFF_MAX] bytes is refused ([NULL]), as glibc does whatever
      the memory of the machine; [realloc] of an allocated block to size
      zero frees the block and returns [NULL]. Any other request is
      granted: the memory of the machine is not modelled, and what is
      proved of calls that return is proved for the runs in which the
      allocator had the memory to grant its requests;
    - a run of a C function ends in [Done], in a failed assertion, in
      undefined behaviour, or does not end within the fuel of a loop. *)

From Stdlib Require Import ZArith String Ascii Lia.
From stdpp Require Import base list numbers strings.

Local Open Scope Z_scope.

(** ** Machine integers *)

Definition UINT32_MAX : Z := 4294967295.
Definition SIZE_MAX : Z := 18446744073709551615.

(** Conversion to [uint32_t] and to [size_t]. *)
Definition u32 (x : Z) : Z := x mod 2 ^ 32.
Definition usize (x : Z) : Z := x mod 2 ^ 64.

Definition sizeof_slot : Z := 8.
Definition sizeof_item : Z := 16.

(** The largest request that [malloc] and [realloc] grant. *)
Definition PTRDIFF_MAX : Z := 9223372036854775807.

(** ** Outcomes of a run *)

Inductive fault : Type :=
  | assertion_failed (msg : string)
  | undefined_behaviour
  | out_of_fuel.

Inductive outcome (A : Type) : Type :=
  | Done (a : A)
  | Fault (f : fault).

Arguments Done {A} a.
Arguments Fault {A} f.

Definition obind {A B : Type} (m : outcome A) (k : A -> outcome B) : outcome B :=
  match m with
  | Done a => k a
  | Fault f => Fault f
  end.

Notation "'do' x <- m ; k" := (obind m (fun x => k))
  (at level 10, x name, m at level 100, k at level 200,
   format "'[v' 'do'  x  <-  m ; '/' k ']'").

(** The faults that are not a failed assertion. *)
Definition not_assertion (f : fault) : Prop :=
  f = undefined_behaviour \/ f = out_of_fuel.

(** ** C strings *)

(** A non-null [const char *]: where it points and what is stored there. *)
Record cstring : Type := mk_cstring { addr : Z; chars : string }.

(** A possibly-null [const char *]; [None] is [NULL]. *)
Definition ptr : Type := option cstring.

Definition NUL : ascii := "000"%char.
Definition is_nul (c : ascii) : bool := Ascii.eqb c NUL.

(** Dereferencing a pointer into a string: past the stored bytes stands the
    terminating NUL. *)
Definition deref (s : string) : ascii :=
  match s with
  | EmptyString => NUL
  | String c _ => c
  end.

(** The value of a [char] as an [unsigned char] and as a (signed) [char]
    promoted to [int]. *)
Definition uchar (c : ascii) : Z := Z.of_N (N_of_ascii c).
Definition schar (c : ascii) : Z :=
  if uchar c <? 128 then uchar c else uchar c - 256.

(** The bytes of the C string stored in [s]: those before the first NUL. *)
Fixpoint c_str (s : string) : string :=
  match s with
  | EmptyString => EmptyString
  | String c s' => if is_nul c then EmptyString else String c (c_str s')
  end.

(** ** trashmap_hash *)

Definition FNV_1A_OFFSET_BASIS : Z := 2166136261.

Definition shl32 (x k : Z) : Z := u32 (Z.shiftl x k).
Definition add32 (x y : Z) : Z := u32 (x + y).

(** The loop [while ( *str ) { ... }]. *)
Fixpoint hash_loop (str : string) (hash : Z) : Z :=
  match str with
  | EmptyString => hash
  | String c str' =>
      if is_nul c then hash
      else
        let hash := Z.lxor hash (uchar c) in
        let hash :=
          add32 (add32 (add32 (add32 (add32 hash (shl32 hash 1)) (shl32 hash 4))
                                (shl32 hash 7)) (shl32 hash 8)) (shl32 hash 24) in
        hash_loop str' hash
  end.

Definition trashmap_hash (key : string) : Z :=
  hash_loop key FNV_1A_OFFSET_BASIS.

(** The FNV-1a reference, following the specification's words: start from
    the offset basis; for each byte, XOR it into the hash, then multiply by
    the prime with 32-bit wrap-around. *)
Definition FNV_PRIME : Z := 16777619.

Definition fnv1a_step (h b : Z) : Z := (Z.lxor h b * FNV_PRIME) mod 2 ^ 32.

Definition fnv1a_reference (bytes : list Z) : Z :=
  fold_left fnv1a_step bytes FNV_1A_OFFSET_BASIS.

Definition key_bytes (key : string) : list Z :=
  List.map uchar (list_ascii_of_string (c_str key)).

(** ** trashmap_strcmp *)

(** The loop runs while both characters are non-NUL and returns the first
    non-zero difference, taken as right minus left; after the loop the
    same difference of the current characters is returned. *)
Fixpoint trashmap_strcmp (lhs rhs : string) : Z :=
  match lhs, rhs with
  | String a lhs', String b rhs' =>
      if negb (is_nul a) && negb (is_nul b) then
        let diff := schar b - schar a in
        if negb (diff =? 0) then diff else trashmap_strcmp lhs' rhs'
      else schar b - schar a
  | _, _ => schar (deref rhs) - schar (deref lhs)
  end.

(** ** The table *)

Module Slot.
Record trashmap_slot_t : Type := mk_slot { hash : Z; index : Z }.
End Slot.
Import Slot.

Module Item.
Record trashmap_item_t : Type := mk_item { key : cstring; value : ptr }.
End Item.
Import Item.

Module Map.
Record trashmap_t : Type := mk_map {
  slots : list trashmap_slot_t;
  items : list (option trashmap_item_t);
  slot_count : Z;
  count : Z;
  capacity : Z
}.
End Map.
Import Map.

(** ** Memory *)

(** [arr[i]] as an rvalue and as an lvalue; outside the array both are
    undefined. *)
Definition read {A : Type} (arr : list A) (i : Z) : outcome A :=
  match arr !! Z.to_nat i with
  | Some x => Done x
  | None => Fault undefined_behaviour
  end.

Definition write {A : Type} (arr : list A) (i : Z) (x : A) : outcome (list A) :=
  if Z.of_nat (length arr) <=? i then Fault undefined_behaviour
  else Done (<[Z.to_nat i := x]> arr).

(** Reading an item cell that was never written is undefined. *)
Definition read_item (arr : list (option trashmap_item_t)) (i : Z)
  : outcome trashmap_item_t :=
  do cell <- read arr i;
  match cell with
  | Some it => Done it
  | None => Fault undefined_behaviour
  end.

(** [TRASHMAP_ALLOC(SIZE)] for a slot array; [None] is [NULL]. A granted
    request gives [SIZE / sizeof(slot)] cells of unspecified content
    (every caller overwrites all of them). *)
Definition TRASHMAP_ALLOC (SIZE : Z) : option (list trashmap_slot_t) :=
  if SIZE >? PTRDIFF_MAX then None
  else Some (replicate (Z.to_nat (SIZE / sizeof_slot)) (mk_slot 0 0)).

(** [TRASHMAP_REALLOC(PTR, SIZE)] for the item arena; [None] is [NULL],
    as argument and as result. With [PTR = NULL] it is [malloc(SIZE)];
    an allocated block resized to zero bytes is freed and [NULL] is
    returned; otherwise the cells that fit are kept at their indices and
    new cells are unwritten. *)
Definition TRASHMAP_REALLOC (PTR : option (list (option trashmap_item_t)))
    (SIZE : Z) : option (list (option trashmap_item_t)) :=
  let cells := Z.to_nat (SIZE / sizeof_item) in
  if SIZE >? PTRDIFF_MAX then None
  else
    match PTR with
    | None => Some (replicate cells None)
    | Some old =>
        if SIZE =? 0 then None
        else Some (take cells old ++ replicate (cells - length old)%nat None)
    end.

(** [trashmap_memset] on a slot array. A slot is two [uint32_t]; filling its
    eight bytes with [byte] gives both fields the value [byte * 0x01010101].
    All callers pass a multiple of the slot size. *)
Definition filled_slot (byte : Z) : trashmap_slot_t :=
  mk_slot (byte * 16843009) (byte * 16843009).

Definition trashmap_memset (dest : list trashmap_slot_t) (byte : Z) (count : Z)
  : outcome (list trashmap_slot_t) :=
  let cells := count / sizeof_slot in
  if Z.of_nat (length dest) <? cells then Fault undefined_behaviour
  else Done (replicate (Z.to_nat cells) (filled_slot byte) ++ drop (Z.to_nat cells) dest).

(** [trashmap_memset] called on the result of [TRASHMAP_ALLOC], which may
    be [NULL]: the first byte written through [NULL] is undefined; with
    nothing to write, [NULL] is returned. *)
Definition memset_alloc (dest : option (list trashmap_slot_t)) (byte : Z)
    (count : Z) : outcome (option (list trashmap_slot_t)) :=
  match dest with
  | Some d => do d <- trashmap_memset d byte count; Done (Some d)
  | None => if count =? 0 then Done None else Fault undefined_behaviour
  end.

(** ** trashmap_init, trashmap_clear *)

Definition trashmap_init (count : Z) : outcome trashmap_t :=
  if count =? 0 then
    Fault (assertion_failed "hash map must have at least 1 slot to start")
  else
    let length := usize (count * sizeof_slot) in
    do slots <- memset_alloc (TRASHMAP_ALLOC length) 255 length;
    match slots with
    | None => Fault (assertion_failed "out of memory")
    | Some slots => Done (mk_map slots [] count 0 0)
    end.

Definition trashmap_clear (map : trashmap_t) : outcome trashmap_t :=
  do slots <- trashmap_memset (slots map) 255 (usize (slot_count map * sizeof_slot));
  Done (mk_map slots (items map) (slot_count map) 0 (capacity map)).

(** ** The probe loops *)

(** [(idx + 1) % map->slot_count], stored in a [uint32_t]: the sum is taken
    in 32 bits, the remainder in [size_t]. *)
Definition next_idx (idx slot_count : Z) : Z :=
  u32 (usize (u32 (idx + 1)) mod slot_count).

(** [bhash == hash && trashmap_strcmp(key, map->items[bidx].key) == 0]; the
    item is read only when the hashes agree. *)
Definition key_matches (map : trashmap_t) (key : cstring) (hash bhash bidx : Z)
  : outcome bool :=
  if bhash =? hash then
    do it <- read_item (items map) bidx;
    Done (trashmap_strcmp (chars key) (chars (Item.key it)) =? 0)
  else Done false.

(** The index examined by the [i]-th iteration of a probe loop that
    started at [start]. *)
Definition probe_index (slot_count start : Z) (i : nat) : Z :=
  Nat.iter i (fun idx => next_idx idx slot_count) start.

(** Every probe loop runs on fuel; the entry points give it [slot_count]
    iterations, which is shown to be enough. *)
Definition probe_fuel (map : trashmap_t) : nat := Z.to_nat (slot_count map).

Fixpoint get_loop (fuel : nat) (map : trashmap_t) (key : cstring)
    (hash start idx : Z) : outcome ptr :=
  match fuel with
  | O => Fault out_of_fuel
  | S fuel =>
      do s <- read (slots map) idx;
      let bhash := Slot.hash s in
      let bidx := Slot.index s in
      if bidx =? UINT32_MAX then Done None
      else
        do found <- key_matches map key hash bhash bidx;
        if found then
          do it <- read_item (items map) bidx;
          Done (Item.value it)
        else
          let idx := next_idx idx (slot_count map) in
          if negb (idx =? start) then get_loop fuel map key hash start idx
          else Done None
  end.

Definition trashmap_get (map : trashmap_t) (key : cstring) : outcome ptr :=
  let hash := trashmap_hash (chars key) in
  if slot_count map =? 0 then Fault undefined_behaviour
  else
    let start := u32 (hash mod slot_count map) in
    get_loop (probe_fuel map) map key hash start start.

Fixpoint has_loop (fuel : nat) (map : trashmap_t) (key : cstring)
    (hash start idx : Z) : outcome bool :=
  match fuel with
  | O => Fault out_of_fuel
  | S fuel =>
      do s <- read (slots map) idx;
      let bhash := Slot.hash s in
      let bidx := Slot.index s in
      if bidx =? UINT32_MAX then Done false
      else
        do found <- key_matches map key hash bhash bidx;
        if found then Done true
        else
          let idx := next_idx idx (slot_count map) in
          if negb (idx =? start) then has_loop fuel map key hash start idx
          else Done false
  end.

Definition trashmap_has (map : trashmap_t) (key : cstring) : outcome bool :=
  let hash := trashmap_hash (chars key) in
  if slot_count map =? 0 then Fault undefined_behaviour
  else
    let start := u32 (hash mod slot_count map) in
    has_loop (probe_fuel map) map key hash start start.

(** ** trashmap_reserve *)

(** [while (map->count + extra > map->capacity) map->capacity *= 2;] *)
Fixpoint grow_capacity (fuel : nat) (count extra capacity : Z) : outcome Z :=
  if usize (count + extra) >? capacity then
    match fuel with
    | O => Fault out_of_fuel
    | S fuel => grow_capacity fuel count extra (usize (capacity * 2))
    end
  else Done capacity.

(** Sixty-four doublings turn any [size_t] into zero, so a loop that has not
    ended by then never ends. *)
Definition grow_fuel : nat := 65.

(** The inner [do ... while (new_idx != start)] of the rehash: the slot is
    copied into the first empty cell; when the probe comes back to [start]
    the loop ends without a copy. *)
Fixpoint rehash_probe (fuel : nat) (new_slots : list trashmap_slot_t)
    (s : trashmap_slot_t) (new_slot_count start new_idx : Z)
  : outcome (list trashmap_slot_t) :=
  match fuel with
  | O => Fault out_of_fuel
  | S fuel =>
      do t <- read new_slots new_idx;
      if Slot.index t =? UINT32_MAX then write new_slots new_idx s
      else
        let new_idx := next_idx new_idx new_slot_count in
        if negb (new_idx =? start) then
          rehash_probe fuel new_slots s new_slot_count start new_idx
        else Done new_slots
  end.

(** [for (map_idx = 0; map_idx < map->slot_count; map_idx++)], with [todo]
    iterations left. *)
Fixpoint rehash_for (todo : nat) (map : trashmap_t)
    (new_slots : list trashmap_slot_t) (new_slot_count map_idx : Z)
  : outcome (list trashmap_slot_t) :=
  match todo with
  | O => Done new_slots
  | S todo =>
      do s <- read (slots map) map_idx;
      if Slot.index s =? UINT32_MAX then
        rehash_for todo map new_slots new_slot_count (map_idx + 1)
      else if new_slot_count =? 0 then Fault undefined_behaviour
      else
        let start := u32 (Slot.hash s mod new_slot_count) in
        do new_slots <- rehash_probe (Z.to_nat new_slot_count) new_slots s
                          new_slot_count start start;
        rehash_for todo map new_slots new_slot_count (map_idx + 1)
  end.

(** [map->items] as a pointer: it is [NULL] exactly as long as [capacity]
    is zero. *)
Definition items_pointer (map : trashmap_t)
  : option (list (option trashmap_item_t)) :=
  if capacity map =? 0 then None else Some (items map).

(** The first block of [trashmap_reserve]: the item arena. *)
Definition reserve_items (map : trashmap_t) (extra : Z) : outcome trashmap_t :=
  if usize (count map + extra) >? capacity map then
    let capacity := if capacity map =? 0 then 16 else capacity map in
    do capacity <- grow_capacity grow_fuel (count map) extra capacity;
    let size := usize (capacity * sizeof_item) in
    match TRASHMAP_REALLOC (items_pointer map) size with
    | None => Fault (assertion_failed "out of memory")
    | Some items =>
        Done (mk_map (slots map) items (slot_count map) (count map) capacity)
    end
  else Done map.

(** The second block: the slot table ("ensure load factor is not more than
    75%"). *)
Definition reserve_slots (map : trashmap_t) (extra : Z) : outcome trashmap_t :=
  if usize (count map + extra) >? usize (slot_count map * 3) / 4 then
    let new_slot_count := usize (slot_count map * 2) in
    let length := usize (new_slot_count * sizeof_slot) in
    do new_slots <- memset_alloc (TRASHMAP_ALLOC length) 255 length;
    match new_slots with
    | None => Fault (assertion_failed "out of memory")
    | Some new_slots =>
        do new_slots <- rehash_for (Z.to_nat (slot_count map)) map new_slots
                          new_slot_count 0;
        Done (mk_map new_slots (items map) new_slot_count (count map)
                (capacity map))
    end
  else Done map.

Definition trashmap_reserve (map : trashmap_t) (extra : Z) : outcome trashmap_t :=
  do map <- reserve_items map extra;
  reserve_slots map extra.

(** ** trashmap_set *)

Fixpoint set_loop (fuel : nat) (map : trashmap_t) (key : cstring) (value : ptr)
    (hash start idx : Z) : outcome trashmap_t :=
  match fuel with
  | O => Fault out_of_fuel
  | S fuel =>
      do s <- read (slots map) idx;
      let item_idx := Slot.index s in
      let item_hash := Slot.hash s in
      if item_idx =? UINT32_MAX then
        do items <- write (items map) (count map) (Some (mk_item key value));
        do slots <- write (slots map) idx (mk_slot hash (u32 (count map)));
        Done (mk_map slots items (slot_count map) (usize (count map + 1))
                (capacity map))
      else
        do found <- key_matches map key hash item_hash item_idx;
        if found then
          do it <- read_item (items map) item_idx;
          do items <- write (items map) item_idx
                        (Some (mk_item (Item.key it) value));
          Done (mk_map (slots map) items (slot_count map) (count map)
                  (capacity map))
        else
          let idx := next_idx idx (slot_count map) in
          if negb (idx =? start) then set_loop fuel map key value hash start idx
          else Fault (assertion_failed "corrupted hash map")
  end.

Definition trashmap_set (map : trashmap_t) (key : cstring) (value : ptr)
  : outcome trashmap_t :=
  do map <- trashmap_reserve map 1;
  let hash := trashmap_hash (chars key) in
  if slot_count map =? 0 then Fault undefined_behaviour
  else
    let start := u32 (hash mod slot_count map) in
    set_loop (probe_fuel map) map key value hash start start.

(** ** The abstract view of a table *)

(** The live entries: the first [count] cells of the arena. *)
Definition model (map : trashmap_t) : list trashmap_item_t :=
  omap id (take (Z.to_nat (count map)) (items map)).

(** Keys are compared by the bytes of their C strings. *)
Definition same_key (k : string) (it : trashmap_item_t) : bool :=
  String.eqb (c_str k) (c_str (chars (Item.key it))).

Definition model_get (its : list trashmap_item_t) (k : string)
  : option trashmap_item_t :=
  List.find (same_key k) its.

(** What an insert-or-update does to the live entries: the value of the
    entry with this key is replaced in place, and a new key is appended. *)
Fixpoint model_set (its : list trashmap_item_t) (key : cstring) (value : ptr)
  : list trashmap_item_t :=
  match its with
  | [] => [mk_item key value]
  | it :: its' =>
      if same_key (chars key) it then mk_item (Item.key it) value :: its'
      else it :: model_set its' key value
  end.

(** The value reported for a key by a lookup in the live entries. *)
Definition model_value (its : list trashmap_item_t) (k : string) : ptr :=
  match model_get its k with
  | Some it => Item.value it
  | None => None
  end.

Definition model_has (its : list trashmap_item_t) (k : string) : bool :=
  match model_get its k with
  | Some _ => true
  | None => false
  end.

(** The same for a sequence of calls. *)
Definition model_set_all (its : list trashmap_item_t)
    (kvs : list (cstring * ptr)) : list trashmap_item_t :=
  fold_left (fun its kv => model_set its (fst kv) (snd kv)) kvs its.

(** A sequence of [trashmap_set] calls. *)
Fixpoint set_all (map : trashmap_t) (kvs : list (cstring * ptr))
  : outcome trashmap_t :=
  match kvs with
  | [] => Done map
  | (k, v) :: kvs' => do map <- trashmap_set map k v; set_all map kvs'
  end.

(** The last value set for a key in a sequence of calls, if any. *)
Fixpoint last_set (kvs : list (cstring * ptr)) (k : string) : option ptr :=
  match kvs with
  | [] => None
  | (k', v) :: kvs' =>
      match last_set kvs' k with
      | Some v' => Some v'
      | None => if String.eqb (c_str k) (c_str (chars k')) then Some v else None
      end
  end.

(** ** The representation invariant *)

(** Probing only ever visits the first [2^32] slots. *)
Definition probe_size (slot_count : Z) : Z := Z.min slot_count (2 ^ 32).

(** The slot that [memset] with [0xFF] leaves behind. *)
Definition empty_slot : trashmap_slot_t := mk_slot UINT32_MAX UINT32_MAX.

Definition occupied (s : trashmap_slot_t) : bool :=
  negb (Slot.index s =? UINT32_MAX).

Definition count_occupied (sl : list trashmap_slot_t) : nat :=
  length (List.filter occupied sl).

(** The probe sequence of hash [h] is occupied from its start up to, not
    including, position [p]. *)
Definition chain (sl : list trashmap_slot_t) (M h p : Z) : Prop :=
  forall j, 0 <= j < (p - h) mod M ->
    exists t, sl !! Z.to_nat ((h + j) mod M) = Some t /\ occupied t = true.

(** The slot array [sl], probed modulo [M], holds exactly the slots of [S],
    each once and each reachable from its hash by an occupied run. *)
Record represents (sl : list trashmap_slot_t) (M : Z)
    (S : list trashmap_slot_t) : Prop := mk_represents {
  rep_mem : forall p s, sl !! p = Some s -> occupied s = true ->
    Z.of_nat p < M /\ s ∈ S /\ chain sl M (Slot.hash s) (Z.of_nat p);
  rep_all : forall s, s ∈ S ->
    occupied s = true /\ exists p, sl !! p = Some s;
  rep_inj : forall p q s, sl !! p = Some s -> sl !! q = Some s ->
    occupied s = true -> p = q;
  rep_card : count_occupied sl = length S
}.

(** The slot of each live entry: its key's hash and its arena index. *)
Definition table_of (its : list trashmap_item_t) : list trashmap_slot_t :=
  imap (fun i it => mk_slot (trashmap_hash (chars (Item.key it))) (Z.of_nat i)) its.

Definition keys_distinct (its : list trashmap_item_t) : Prop :=
  forall i j a b, its !! i = Some a -> its !! j = Some b ->
    c_str (chars (Item.key a)) = c_str (chars (Item.key b)) -> i = j.

Record rep_inv (map : trashmap_t) : Prop := mk_rep_inv {
  inv_slot_count : 1 <= slot_count map < 2 ^ 61;
  inv_count : 0 <= count map <= UINT32_MAX;
  inv_capacity : count map <= capacity map < 2 ^ 60;
  inv_load : count map <= slot_count map * 3 / 4;
  inv_slots_len : Z.of_nat (length (slots map)) = slot_count map;
  inv_items_len : Z.of_nat (length (items map)) = capacity map;
  inv_live : take (Z.to_nat (count map)) (items map) = Some <$> model map;
  inv_keys : keys_distinct (model map);
  inv_rep : represents (slots map) (probe_size (slot_count map))
              (table_of (model map))
}.

(** What holds of a table after every run of the public operations,
    whatever the sizes passed: the facts of the specification's invariant,
    and what keeps them true (the capacity is a power of two from sixteen
    on, the slot array has the cells that its byte size gives, and no more
    slots are occupied than there are entries: one less from [2^32]
    entries on, since the slot of the entry with index [0xFFFFFFFF] counts
    as empty). *)
Record weak_inv (map : trashmap_t) : Prop := mk_weak_inv {
  w_slot_count : 1 <= slot_count map <= SIZE_MAX;
  w_count : 0 <= count map <= capacity map;
  w_capacity : capacity map <= SIZE_MAX;
  w_capacity_shape :
    capacity map = 0 \/ exists k : nat, capacity map = 16 * 2 ^ Z.of_nat k;
  w_load : count map <= slot_count map * 3 / 4;
  w_slots_len : Z.of_nat (length (slots map)) = slot_count map mod 2 ^ 61;
  w_slot_index : forall p s, slots map !! p = Some s -> occupied s = true ->
    0 <= Slot.index s < count map;
  w_occupied : Z.of_nat (count_occupied (slots map)) <= count map;
  w_live : forall i : nat, Z.of_nat i < count map ->
    exists it, items map !! i = Some (Some it);
  w_sentinel : UINT32_MAX < count map ->
    Z.of_nat (count_occupied (slots map)) < count map
}.

(** ** Runs of the public operations *)

Inductive op : Type :=
  | op_set (key : cstring) (value : ptr)
  | op_reserve (extra : Z)
  | op_clear
  | op_get (key : cstring)
  | op_has (key : cstring).

Definition apply_op (map : trashmap_t) (o : op) : outcome trashmap_t :=
  match o with
  | op_set key value => trashmap_set map key value
  | op_reserve extra => trashmap_reserve map extra
  | op_clear => trashmap_clear map
  | op_get key => do _v <- trashmap_get map key; Done map
  | op_has key => do _b <- trashmap_has map key; Done map
  end.

(** The sizes a caller has to respect: the index of a new entry is below
    the empty-slot sentinel, and the byte size of a grown array fits
    [size_t]. *)
Definition op_in_range (map : trashmap_t) (o : op) : Prop :=
  match o with
  | op_set _ _ => count map < UINT32_MAX
  | op_reserve extra => 0 <= extra /\ count map + extra <= 2 ^ 59
  | _ => True
  end.

(** The calls that stay within the entries a table can number: none asks
    for room beyond [2^32 - 1] entries, so that no array of more than
    [2^37] bytes is requested. *)
Definition op_small (map : trashmap_t) (o : op) : Prop :=
  match o with
  | op_set _ _ => count map < UINT32_MAX
  | op_reserve extra => 0 <= extra /\ count map + extra <= UINT32_MAX
  | _ => True
  end.

(** Every argument that has the type [size_t]. *)
Definition op_typed (o : op) : Prop :=
  match o with
  | op_reserve extra => 0 <= extra <= SIZE_MAX
  | _ => True
  end.

(** The runs of the public operations from [trashmap_init], with any
    arguments. *)
Inductive runs : list op -> trashmap_t -> Prop :=
  | runs_init (n : Z) (map : trashmap_t) :
      1 <= n <= SIZE_MAX -> trashmap_init n = Done map -> runs [] map
  | runs_step (ops : list op) (map : trashmap_t) (o : op) (map' : trashmap_t) :
      runs ops map -> op_typed o -> apply_op map o = Done map' ->
      runs (ops ++ [o]) map'.

(** The runs within the sizes a caller has to respect. *)
Inductive reaches : list op -> trashmap_t -> Prop :=
  | reaches_init (n : Z) (map : trashmap_t) :
      1 <= n < 2 ^ 61 -> trashmap_init n = Done map -> reaches [] map
  | reaches_step (ops : list op) (map : trashmap_t) (o : op) (map' : trashmap_t) :
      reaches ops map -> op_in_range map o -> apply_op map o = Done map' ->
      reaches (ops ++ [o]) map'.

(** The live entries a run is expected to leave behind, in insertion
    order. *)
Definition abstract_step (its : list trashmap_item_t) (o : op)
  : list trashmap_item_t :=
  match o with
  | op_set key value => model_set its key value
  | op_clear => []
  | _ => its
  end.

Definition abstract_run (ops : list op) : list trashmap_item_t :=
  fold_left abstract_step ops [].

(** ** One probe loop for the three *)

(** The loops of [trashmap_get], [trashmap_has] and [trashmap_set] walk the
    slots in the same way and differ in what they do at the end. [probe] is
    that walk alone; it is not in the source, and the three loops above are
    shown to be [probe] followed by their own ending. *)

Inductive probe_result : Type :=
  | PFound (idx bidx : Z) (it : trashmap_item_t)
  | PEmpty (idx : Z)
  | PWrapped.

Fixpoint probe (fuel : nat) (map : trashmap_t) (key : cstring)
    (hash start idx : Z) : outcome probe_result :=
  match fuel with
  | O => Fault out_of_fuel
  | S fuel =>
      do s <- read (slots map) idx;
      if Slot.index s =? UINT32_MAX then Done (PEmpty idx)
      else
        do found <- key_matches map key hash (Slot.hash s) (Slot.index s);
        if found then
          do it <- read_item (items map) (Slot.index s);
          Done (PFound idx (Slot.index s) it)
        else
          let idx := next_idx idx (slot_count map) in
          if negb (idx =? start) then probe fuel map key hash start idx
          else Done PWrapped
  end.

Definition get_of_probe (r : probe_result) : outcome ptr :=
  match r with
  | PFound _ _ it => Done (Item.value it)
  | _ => Done None
  end.

Definition has_of_probe (r : probe_result) : outcome bool :=
  match r with
  | PFound _ _ _ => Done true
  | _ => Done false
  end.

Definition set_of_probe (map : trashmap_t) (key : cstring) (value : ptr)
    (hash : Z) (r : probe_result) : outcome trashmap_t :=
  match r with
  | PEmpty idx =>
      do items <- write (items map) (count map) (Some (mk_item key value));
      do slots <- write (slots map) idx (mk_slot hash (u32 (count map)));
      Done (mk_map slots items (slot_count map) (usize (count map + 1))
              (capacity map))
  | PFound _ item_idx it =>
      do items <- write (items map) item_idx (Some (mk_item (Item.key it) value));
      Done (mk_map (slots map) items (slot_count map) (count map) (capacity map))
  | PWrapped => Fault (assertion_failed "corrupted hash map")
  end.

(** ** Example tables *)

Definition hello : cstring := mk_cstring 4096 "hello".
Definition world : cstring := mk_cstring 4112 "world".
Definition there : cstring := mk_cstring 4128 "there".

(** [trashmap_init(&map, 4); trashmap_set(&map, "hello", "world");] *)
Definition example_table : trashmap_t :=
  Eval vm_compute in
    match (do map <- trashmap_init 4; trashmap_set map hello (Some world)) with
    | Done map => map
    | Fault _ => mk_map [] [] 0 0 0
    end.

(** Three sets on a table of one slot: the arena is allocated and the slot
    table is rehashed twice. *)
Definition example_sets : list (cstring * ptr) :=
  [(hello, Some world); (world, None); (there, Some hello)].

(** ** trashmap_memset, byte by byte *)

(** The loop [for (size_t i = 0; i < count; i++) d[i] = byte;] on an array
    of bytes. The loop runs on fuel; [count] iterations are enough. *)
Fixpoint memset_loop (fuel : nat) (d : list Z) (byte count i : Z)
  : outcome (list Z) :=
  if i <? count then
    match fuel with
    | O => Fault out_of_fuel
    | S fuel =>
        do d <- write d i byte;
        memset_loop fuel d byte count (usize (i + 1))
    end
  else Done d.

Definition trashmap_memset_bytes (dest : list Z) (byte count : Z)
  : outcome (list Z) :=
  memset_loop (Z.to_nat count) dest byte count 0.

(** The bytes of a [uint32_t] and of a slot in memory (little endian, no
    padding: [hash] at offset 0, [index] at offset 4). *)
Definition u32_bytes (x : Z) : list Z :=
  [x mod 256; x / 256 mod 256; x / 65536 mod 256; x / 16777216 mod 256].

Definition slot_bytes (s : trashmap_slot_t) : list Z :=
  u32_bytes (Slot.hash s) ++ u32_bytes (Slot.index s).

Fixpoint slots_bytes (sl : list trashmap_slot_t) : list Z :=
  match sl with
  | [] => []
  | s :: sl => slot_bytes s ++ slots_bytes sl
  end.

(** ** Runs as a function *)

Fixpoint run_ops (map : trashmap_t) (ops : list op) : outcome trashmap_t :=
  match ops with
  | [] => Done map
  | o :: ops => do map <- apply_op map o; run_ops map ops
  end.

(** ** The allocator and trashmap_deinit *)

(** The heap: the numbers of the blocks that are allocated, and the number
    that the next block gets. *)
Record heap : Type := mk_heap { live : list nat; next : nat }.

(** [malloc], when the request is granted, gives a block that was never
    handed out before (glibc gives a block of its own for size zero as
    well). Whether a request is granted is decided where the contents are
    modelled, in [TRASHMAP_ALLOC] and [TRASHMAP_REALLOC]: a call that gets
    [NULL] ends the run there. *)
Definition malloc (h : heap) : heap * nat :=
  (mk_heap (next h :: live h) (S (next h)), next h).

(** [free(p)] for a non-null [p]: releasing a block that is not allocated
    is undefined. *)
Definition free (h : heap) (p : nat) : outcome heap :=
  if bool_decide (p ∈ live h) then
    Done (mk_heap (filter (fun q => q <> p) (live h)) (next h))
  else Fault undefined_behaviour.

(** [free(p)] where [p] may be [NULL], for which it does nothing. *)
Definition free_ptr (h : heap) (p : option nat) : outcome heap :=
  match p with
  | Some b => free h b
  | None => Done h
  end.

(** [realloc(p, size)]: [malloc(size)] when [p] is [NULL]; otherwise the
    block is released and, unless [size] is zero, another one is returned
    (the block may move). *)
Definition realloc (h : heap) (p : option nat) (size : Z)
  : outcome (heap * option nat) :=
  match p with
  | None => let (h, q) := malloc h in Done (h, Some q)
  | Some b =>
      do h <- free h b;
      if size =? 0 then Done (h, None)
      else let (h, q) := malloc h in Done (h, Some q)
  end.

(** A table in memory: the heap, the blocks that [map->slots] and
    [map->items] point to ([None] is [NULL]), and the fields and array
    contents as before. *)
Record trashmap_mem : Type := mk_mem {
  mem_heap : heap;
  slots_ptr : option nat;
  items_ptr : option nat;
  fields : trashmap_t
}.

(** [trashmap_init] with its call of [TRASHMAP_ALLOC]. *)
Definition init_mem (h : heap) (count : Z) : outcome trashmap_mem :=
  do map <- trashmap_init count;
  let (h, p) := malloc h in
  Done (mk_mem h (Some p) None map).

(** [trashmap_reserve] with its allocator calls: [TRASHMAP_REALLOC] of the
    arena in the first block; [TRASHMAP_ALLOC] of the new slot array and
    [TRASHMAP_FREE] of the old one in the second. *)
Definition reserve_mem (m : trashmap_mem) (extra : Z) : outcome trashmap_mem :=
  let map := fields m in
  do map1 <- reserve_items map extra;
  do hp <- (if usize (count map + extra) >? capacity map then
              realloc (mem_heap m) (items_ptr m)
                (usize (capacity map1 * sizeof_item))
            else Done (mem_heap m, items_ptr m));
  do map2 <- reserve_slots map1 extra;
  if usize (count map1 + extra) >? usize (slot_count map1 * 3) / 4 then
    let (h, new_slots) := malloc (fst hp) in
    do h <- free_ptr h (slots_ptr m);
    Done (mk_mem h (Some new_slots) (snd hp) map2)
  else Done (mk_mem (fst hp) (slots_ptr m) (snd hp) map2).

(** [trashmap_set] allocates through its call of [trashmap_reserve]
    only. *)
Definition set_mem (m : trashmap_mem) (key : cstring) (value : ptr)
  : outcome trashmap_mem :=
  do m1 <- reserve_mem m 1;
  do map <- trashmap_set (fields m) key value;
  Done (mk_mem (mem_heap m1) (slots_ptr m1) (items_ptr m1) map).

(** [if (map->slots) TRASHMAP_FREE(map->slots);
     if (map->items) TRASHMAP_FREE(map->items);]
    The fields of the table are not written. *)
Definition trashmap_deinit (m : trashmap_mem) : outcome trashmap_mem :=
  do h <- match slots_ptr m with
          | Some p => free (mem_heap m) p
          | None => Done (mem_heap m)
          end;
  do h <- match items_ptr m with
          | Some p => free h p
          | None => Done h
          end;
  Done (mk_mem h (slots_ptr m) (items_ptr m) (fields m)).

Definition apply_op_mem (m : trashmap_mem) (o : op) : outcome trashmap_mem :=
  match o with
  | op_set key value => set_mem m key value
  | op_reserve extra => reserve_mem m extra
  | _ =>
      do map <- apply_op (fields m) o;
      Done (mk_mem (mem_heap m) (slots_ptr m) (items_ptr m) map)
  end.

Fixpoint run_mem (m : trashmap_mem) (ops : list op) : outcome trashmap_mem :=
  match ops with
  | [] => Done m
  | o :: ops => do m <- apply_op_mem m o; run_mem m ops
  end.

(** The blocks a table points to. *)
Definition blocks_of (m : trashmap_mem) : list nat :=
  option_list (slots_ptr m) ++ option_list (items_ptr m).

(** A heap in which no block is listed twice and every block has a number
    below the next one. *)
Definition heap_wf (h : heap) : Prop :=
  NoDup (live h) /\ forall b, b ∈ live h -> (b < next h)%nat.

(** A table in memory that owns its blocks: besides the blocks of [h0],
    exactly the blocks the table points to are allocated; the slot array
    is allocated, and the arena is exactly when [capacity] is not zero. *)
Record mem_inv (h0 : heap) (m : trashmap_mem) : Prop := mk_mem_inv {
  mi_wf : heap_wf (mem_heap m);
  mi_live : live (mem_heap m) ≡ₚ blocks_of m ++ live h0;
  mi_slots : slots_ptr m <> None;
  mi_items : items_ptr m = None <-> capacity (fields m) = 0;
  mi_capacity : 0 <= capacity (fields m)
}.

(** An empty heap. *)
Definition empty_heap : heap := mk_heap [] 0.

(** ** A table with more entries than the index can number *)

(** As many different keys as are needed: the binary numeral of [i + 1],
    lowest bit first, each stored at an address of its own. *)
Fixpoint pos_key (p : positive) : string :=
  match p with
  | xH => "1"%string
  | xO p => String "0"%char (pos_key p)
  | xI p => String "1"%char (pos_key p)
  end.

Definition nth_key (i : nat) : cstring :=
  mk_cstring (65536 + 64 * Z.of_nat i) (pos_key (Pos.of_succ_nat i)).

(** [trashmap_set(&map, key_i, key_i)] for [i = 0 .. n - 1], and the
    entries that these calls insert. *)
Definition nth_set (i : nat) : cstring * ptr := (nth_key i, Some (nth_key i)).

Definition first_sets (n : nat) : list (cstring * ptr) :=
  nth_set <$> seq 0 n.

Definition first_items (n : nat) : list trashmap_item_t :=
  (fun i => mk_item (nth_key i) (Some (nth_key i))) <$> seq 0 n.

(** The C strings of the first [n] keys. *)
Definition first_keys (n : nat) (s : string) : Prop :=
  exists i : nat, (i < n)%nat /\ s = c_str (chars (nth_key i)).

Definition set_ops (kvs : list (cstring * ptr)) : list op :=
  (fun kv => op_set (fst kv) (snd kv)) <$> kvs.

(** Every occupied slot holds the index of a written entry whose key is one
    of [known]. *)
Definition slots_known (known : string -> Prop) (map : trashmap_t) : Prop :=
  forall (p : nat) (t : trashmap_slot_t),
    slots map !! p = Some t -> occupied t = true ->
    0 <= Slot.index t < count map /\
    exists it, items map !! Z.to_nat (Slot.index t) = Some (Some it) /\
      known (c_str (chars (Item.key it))).

(** Of the [2^32] slots that a probe can visit, all are occupied, except
    slot [e] when there is one. *)
Definition probed_full (e : option nat) (sl : list trashmap_slot_t) : Prop :=
  (forall p : nat, Z.of_nat p < 2 ^ 32 -> Some p <> e ->
     exists t, sl !! p = Some t /\ occupied t = true) /\
  (forall p : nat, e = Some p ->
     Z.of_nat p < 2 ^ 32 /\ exists t, sl !! p = Some t /\ occupied t = false).

(** A table of more than [2^32] slots, with room for the next entries
    without a rehash, whose occupied slots refer to known keys. *)
Record crowded (known : string -> Prop) (map : trashmap_t) : Prop := mk_crowded {
  cr_slot_count : 2 ^ 32 <= slot_count map < 2 ^ 61;
  cr_load : 2 ^ 32 + 2 <= slot_count map * 3 / 4;
  cr_count : 1 <= count map <= 2 ^ 32 + 1;
  cr_capacity : count map <= capacity map < 2 ^ 60;
  cr_items_len : Z.of_nat (length (items map)) = capacity map;
  cr_first : exists it, items map !! 0%nat = Some (Some it) /\
    known (c_str (chars (Item.key it)));
  cr_known : slots_known known map
}.

(** ** Tactics *)

(** The powers of two of the machine model, as numerals for [lia]. *)
Ltac pow2 :=
  change (2 ^ 32) with 4294967296 in *;
  change (2 ^ 64) with 18446744073709551616 in *;
  change (2 ^ 61) with 2305843009213693952 in *;
  change (2 ^ 60) with 1152921504606846976 in *;
  change (2 ^ 59) with 576460752303423488 in *;
  change (2 ^ 58) with 288230376151711744 in *;
  unfold UINT32_MAX, SIZE_MAX, PTRDIFF_MAX, sizeof_slot, sizeof_item in *.


(** * Verification *)

(** ** Characters and C strings *)

Lemma uchar_range (c : ascii) : 0 <= uchar c < 256.
Proof.
  unfold uchar. pose proof (N_ascii_bounded c). lia.
Qed.

Lemma uchar_inj (a b : ascii) : uchar a = uchar b -> a = b.
Proof.
  unfold uchar. intros H. apply N2Z.inj in H.
  rewrite <- (ascii_N_embedding a), <- (ascii_N_embedding b). by rewrite H.
Qed.

Lemma schar_inj (a b : ascii) : schar a = schar b -> a = b.
Proof.
  unfold schar. intros H. apply uchar_inj.
  pose proof (uchar_range a). pose proof (uchar_range b).
  destruct (uchar a <? 128) eqn:Ha, (uchar b <? 128) eqn:Hb; lia.
Qed.

Lemma schar_NUL : schar NUL = 0.
Proof. reflexivity. Qed.

Lemma is_nul_true (c : ascii) : is_nul c = true <-> c = NUL.
Proof. unfold is_nul. apply Ascii.eqb_eq. Qed.

Lemma is_nul_false (c : ascii) : is_nul c = false <-> c <> NUL.
Proof. unfold is_nul. apply Ascii.eqb_neq. Qed.

Lemma schar_diff_zero (a b : ascii) : schar b - schar a = 0 <-> a = b.
Proof.
  split; [intros H; apply schar_inj; lia | intros ->; lia].
Qed.

Lemma c_str_idem (s : string) : c_str (c_str s) = c_str s.
Proof.
  induction s as [|c s IH]; simpl; [done|].
  destruct (is_nul c) eqn:E; simpl; [done|]. by rewrite E, IH.
Qed.

(** The comparison is zero exactly on equal C strings. *)
Lemma trashmap_strcmp_zero (lhs rhs : string) :
  trashmap_strcmp lhs rhs = 0 <-> c_str lhs = c_str rhs.
Proof.
  revert rhs. induction lhs as [|a lhs IH]; intros [|b rhs]; simpl.
  - done.
  - rewrite schar_NUL, Z.sub_0_r.
    destruct (is_nul b) eqn:E.
    + apply is_nul_true in E as ->. done.
    + apply is_nul_false in E. split; [|done].
      intros H. destruct E. apply schar_inj. by rewrite schar_NUL.
  - rewrite schar_NUL.
    destruct (is_nul a) eqn:E.
    + apply is_nul_true in E as ->. done.
    + apply is_nul_false in E. split; [|done].
      intros H. destruct E. apply schar_inj. rewrite schar_NUL. lia.
  - destruct (is_nul a) eqn:Ea, (is_nul b) eqn:Eb; simpl.
    + apply is_nul_true in Ea as ->. apply is_nul_true in Eb as ->. done.
    + rewrite schar_diff_zero. split; [|done].
      intros ->. congruence.
    + rewrite schar_diff_zero. split; [|done].
      intros ->. congruence.
    + destruct (schar b - schar a =? 0) eqn:Ed; simpl.
      * apply Z.eqb_eq, schar_diff_zero in Ed as ->. rewrite IH.
        split; [intros ->; done | intros H; by injection H].
      * apply Z.eqb_neq in Ed. split; [lia|].
        intros H. injection H as -> _. destruct Ed. lia.
Qed.

Lemma trashmap_strcmp_refl (a : string) : trashmap_strcmp a a = 0.
Proof. by apply trashmap_strcmp_zero. Qed.

Lemma same_key_spec (k : string) (it : trashmap_item_t) :
  same_key k it = true <-> c_str k = c_str (chars (Item.key it)).
Proof. unfold same_key. apply String.eqb_eq. Qed.

Lemma same_key_strcmp (k : string) (it : trashmap_item_t) :
  (trashmap_strcmp k (chars (Item.key it)) =? 0) = same_key k it.
Proof.
  apply eq_true_iff_eq. rewrite Z.eqb_eq, same_key_spec.
  apply trashmap_strcmp_zero.
Qed.

(** ** The hash *)

Lemma u32_range (x : Z) : 0 <= u32 x < 2 ^ 32.
Proof. unfold u32. apply Z.mod_pos_bound. done. Qed.

Lemma u32_small (x : Z) : 0 <= x < 2 ^ 32 -> u32 x = x.
Proof. unfold u32. intros H. by apply Z.mod_small. Qed.

Lemma usize_small (x : Z) : 0 <= x < 2 ^ 64 -> usize x = x.
Proof. unfold usize. intros H. by apply Z.mod_small. Qed.

(** The shift-add chain is the multiplication by the FNV prime. *)
Lemma shift_add_chain (hash : Z) :
  add32 (add32 (add32 (add32 (add32 hash (shl32 hash 1)) (shl32 hash 4))
                        (shl32 hash 7)) (shl32 hash 8)) (shl32 hash 24)
  = (hash * 16777619) mod 2 ^ 32.
Proof.
  unfold add32, shl32, u32. rewrite !Z.shiftl_mul_pow2 by lia.
  change (2 ^ 1) with 2. change (2 ^ 4) with 16. change (2 ^ 7) with 128.
  change (2 ^ 8) with 256. change (2 ^ 24) with 16777216. pow2.
  Z.div_mod_to_equations. lia.
Qed.

Lemma hash_loop_range (str : string) (hash : Z) :
  0 <= hash < 2 ^ 32 -> 0 <= hash_loop str hash < 2 ^ 32.
Proof.
  revert hash. induction str as [|c str IH]; intros hash H; simpl; [done|].
  destruct (is_nul c); [done|]. apply IH. apply u32_range.
Qed.

Lemma trashmap_hash_range (key : string) : 0 <= trashmap_hash key < 2 ^ 32.
Proof. apply hash_loop_range. unfold FNV_1A_OFFSET_BASIS. pow2. lia. Qed.

Lemma hash_loop_c_str (str : string) (hash : Z) :
  hash_loop (c_str str) hash = hash_loop str hash.
Proof.
  revert hash. induction str as [|c str IH]; intros hash; simpl; [done|].
  destruct (is_nul c) eqn:E; simpl; [done|]. by rewrite E, IH.
Qed.

(** Equal C strings have equal hashes. *)
Lemma trashmap_hash_c_str (a b : string) :
  c_str a = c_str b -> trashmap_hash a = trashmap_hash b.
Proof.
  intros H. unfold trashmap_hash.
  rewrite <- (hash_loop_c_str a), <- (hash_loop_c_str b). by rewrite H.
Qed.

Lemma hash_loop_reference (str : string) (hash : Z) :
  hash_loop str hash = fold_left fnv1a_step (key_bytes str) hash.
Proof.
  revert hash. induction str as [|c str IH]; intros hash; [done|].
  unfold key_bytes. simpl. destruct (is_nul c); [done|].
  simpl. rewrite shift_add_chain. apply IH.
Qed.

(** ** Arithmetic of the probe sequence *)

Lemma probe_size_bounds (sc : Z) :
  1 <= sc -> 1 <= probe_size sc <= sc /\ probe_size sc <= 2 ^ 32.
Proof. unfold probe_size. pow2. lia. Qed.

(** The start of the probe sequence of hash [h]. *)
Lemma probe_start (h sc M : Z) :
  M = probe_size sc -> 0 <= h < 2 ^ 32 -> 1 <= sc ->
  u32 (h mod sc) = h mod M.
Proof.
  intros -> Hh Hsc. unfold probe_size, u32.
  destruct (Z.min_spec sc (2 ^ 32)) as [[Hlt ->]|[Hle ->]].
  - apply Z.mod_small. pose proof (Z.mod_pos_bound h sc). lia.
  - rewrite (Z.mod_small h sc) by lia. done.
Qed.

(** One step of the probe sequence. *)
Lemma probe_next (x sc M : Z) :
  M = probe_size sc -> 1 <= sc < 2 ^ 64 ->
  next_idx (x mod M) sc = (x + 1) mod M.
Proof.
  intros HMeq Hsc. unfold next_idx.
  pose proof (probe_size_bounds sc ltac:(lia)) as [HM HM32].
  rewrite <- HMeq in HM, HM32.
  pose proof (Z.mod_pos_bound x M ltac:(lia)) as Hi.
  rewrite <- (Zplus_mod_idemp_l x 1 M).
  set (i := x mod M) in *.
  destruct (Z.eq_dec (i + 1) (2 ^ 32)) as [Heq|Hne].
  - assert (M = 2 ^ 32) as HM2 by lia.
    rewrite Heq, HM2. unfold u32, usize.
    rewrite Z.mod_same by done. change (0 mod 2 ^ 64) with 0.
    rewrite Z.mod_0_l by lia. done.
  - rewrite (u32_small (i + 1)) by lia.
    rewrite (usize_small (i + 1)) by (pow2; lia).
    unfold probe_size in HMeq.
    destruct (Z.min_spec sc (2 ^ 32)) as [[Hlt Hm]|[Hle Hm]]; rewrite Hm in HMeq; subst M.
    + apply u32_small. pose proof (Z.mod_pos_bound (i + 1) sc). lia.
    + rewrite (Z.mod_small (i + 1) sc) by lia.
      rewrite (Z.mod_small (i + 1) (2 ^ 32)) by lia.
      apply u32_small. lia.
Qed.

(** Within one turn the positions of a probe sequence are distinct. *)
Lemma probe_pos_inj (h M i j : Z) :
  0 <= i < M -> 0 <= j < M -> (h + i) mod M = (h + j) mod M -> i = j.
Proof.
  intros Hi Hj H.
  assert ((h + i - (h + j)) mod M = 0) as H0.
  { rewrite Zminus_mod, H, Z.sub_diag. apply Z.mod_0_l. lia. }
  replace (h + i - (h + j)) with (i - j) in H0 by lia.
  apply Z.mod_divide in H0; [|lia]. destruct H0 as [q Hq].
  assert (q = 0) by nia. lia.
Qed.

(** After a full turn the probe sequence is back at its start. *)
Lemma probe_turn (h M j : Z) :
  0 <= j < M -> ((h + j + 1) mod M = h mod M <-> j + 1 = M).
Proof.
  intros Hj. split.
  - intros H. destruct (Z.eq_dec (j + 1) M) as [|Hne]; [done|].
    assert ((h + (j + 1)) mod M = (h + 0) mod M) as H'.
    { rewrite Z.add_0_r, <- H. f_equal. lia. }
    apply probe_pos_inj in H'; lia.
  - intros H. replace (h + j + 1) with (h + M) by lia.
    rewrite <- Zplus_mod_idemp_r, Z.mod_same, Z.add_0_r by lia. done.
Qed.

(** The position [p] is reached from hash [h] after [(p - h) mod M] steps. *)
Lemma probe_pos_dist (h M p : Z) :
  0 <= p < M -> (h + (p - h) mod M) mod M = p.
Proof.
  intros Hp. rewrite Zplus_mod_idemp_r.
  replace (h + (p - h)) with p by lia. by apply Z.mod_small.
Qed.

Lemma probe_dist_pos (h M j : Z) :
  0 <= j < M -> ((h + j) mod M - h) mod M = j.
Proof.
  intros Hj. rewrite Zminus_mod_idemp_l.
  replace (h + j - h) with j by lia. by apply Z.mod_small.
Qed.

(** ** Memory *)

Lemma read_Done {A : Type} (arr : list A) (i : Z) (x : A) :
  arr !! Z.to_nat i = Some x -> read arr i = Done x.
Proof. unfold read. by intros ->. Qed.

Lemma read_inv {A : Type} (arr : list A) (i : Z) (x : A) :
  read arr i = Done x -> arr !! Z.to_nat i = Some x.
Proof. unfold read. destruct (arr !! Z.to_nat i); congruence. Qed.

Lemma read_fault {A : Type} (arr : list A) (i : Z) (f : fault) :
  read arr i = Fault f -> f = undefined_behaviour.
Proof. unfold read. destruct (arr !! Z.to_nat i); congruence. Qed.

Lemma read_item_Done (arr : list (option trashmap_item_t)) (i : Z)
    (it : trashmap_item_t) :
  arr !! Z.to_nat i = Some (Some it) -> read_item arr i = Done it.
Proof. unfold read_item. intros H. by rewrite (read_Done _ _ _ H). Qed.

Lemma read_item_fault (arr : list (option trashmap_item_t)) (i : Z) (f : fault) :
  read_item arr i = Fault f -> f = undefined_behaviour.
Proof.
  unfold read_item, read. destruct (arr !! Z.to_nat i) as [[it|]|]; simpl; congruence.
Qed.

Lemma write_Done {A : Type} (arr : list A) (i : Z) (x : A) :
  0 <= i < Z.of_nat (length arr) ->
  write arr i x = Done (<[Z.to_nat i := x]> arr).
Proof.
  intros H. unfold write. destruct (Z.leb_spec (Z.of_nat (length arr)) i); [lia|done].
Qed.

Lemma key_matches_fault (map : trashmap_t) (key : cstring) (h bh bi : Z) (f : fault) :
  key_matches map key h bh bi = Fault f -> f = undefined_behaviour.
Proof.
  unfold key_matches. destruct (bh =? h); [|congruence].
  destruct (read_item (items map) bi) eqn:E; simpl; [congruence|].
  intros [= <-]. by apply read_item_fault in E.
Qed.

(** ** The three loops are the one probe loop *)

Lemma get_loop_probe (fuel : nat) (map : trashmap_t) (key : cstring)
    (h start idx : Z) :
  get_loop fuel map key h start idx =
  do r <- probe fuel map key h start idx; get_of_probe r.
Proof.
  revert idx. induction fuel as [|fuel IH]; intros idx; simpl; [done|].
  destruct (read (slots map) idx) as [s|]; simpl; [|done].
  destruct (index s =? UINT32_MAX); [done|].
  destruct (key_matches map key h (hash s) (index s)) as [[]|]; simpl; [|..|done].
  - by destruct (read_item (items map) (index s)).
  - destruct (negb (next_idx idx (slot_count map) =? start)); [apply IH|done].
Qed.

Lemma has_loop_probe (fuel : nat) (map : trashmap_t) (key : cstring)
    (h start idx : Z) :
  (forall bi, key_matches map key h h bi = Done true ->
     exists it, read_item (items map) bi = Done it) ->
  has_loop fuel map key h start idx =
  do r <- probe fuel map key h start idx; has_of_probe r.
Proof.
  intros Hread.
  revert idx. induction fuel as [|fuel IH]; intros idx; simpl; [done|].
  destruct (read (slots map) idx) as [s|]; simpl; [|done].
  destruct (index s =? UINT32_MAX); [done|].
  destruct (key_matches map key h (hash s) (index s)) as [[]|] eqn:E; simpl; [|..|done].
  - assert (hash s = h) as Hh.
    { unfold key_matches in E. destruct (Z.eqb_spec (hash s) h); congruence. }
    rewrite Hh in E. destruct (Hread _ E) as [it ->]. done.
  - destruct (negb (next_idx idx (slot_count map) =? start)); [apply IH|done].
Qed.

Lemma set_loop_probe (fuel : nat) (map : trashmap_t) (key : cstring)
    (value : ptr) (h start idx : Z) :
  set_loop fuel map key value h start idx =
  do r <- probe fuel map key h start idx; set_of_probe map key value h r.
Proof.
  revert idx. induction fuel as [|fuel IH]; intros idx; simpl; [done|].
  destruct (read (slots map) idx) as [s|]; simpl; [|done].
  destruct (index s =? UINT32_MAX); [done|].
  destruct (key_matches map key h (hash s) (index s)) as [[]|]; simpl; [|..|done].
  - by destruct (read_item (items map) (index s)).
  - destruct (negb (next_idx idx (slot_count map) =? start)); [apply IH|done].
Qed.

Lemma key_matches_read (map : trashmap_t) (key : cstring) (h bh bi : Z) :
  key_matches map key h bh bi = Done true ->
  exists it, read_item (items map) bi = Done it.
Proof.
  unfold key_matches. destruct (bh =? h); [|congruence].
  destruct (read_item (items map) bi) as [it|]; simpl; [eauto|congruence].
Qed.

(** ** Fuel *)

Lemma probe_fuel_mono (fuel fuel' : nat) (map : trashmap_t) (key : cstring)
    (h start idx : Z) (r : probe_result) :
  probe fuel map key h start idx = Done r -> (fuel <= fuel')%nat ->
  probe fuel' map key h start idx = Done r.
Proof.
  revert fuel' idx. induction fuel as [|fuel IH]; intros fuel' idx H Hle; [done|].
  destruct fuel' as [|fuel']; [lia|]. simpl in *.
  destruct (read (slots map) idx) as [s|]; simpl in *; [|done].
  destruct (index s =? UINT32_MAX); [done|].
  destruct (key_matches map key h (hash s) (index s)) as [[]|]; simpl in *; [done|..|done].
  destruct (negb (next_idx idx (slot_count map) =? start)); [|done].
  apply IH; [done|lia].
Qed.

(** A probe loop started on the probe sequence of its hash ends before the
    sequence has made one turn. *)
Lemma probe_terminates (map : trashmap_t) (key : cstring) (h M : Z) :
  M = probe_size (slot_count map) ->
  1 <= slot_count map < 2 ^ 64 ->
  forall (fuel : nat) (j : Z),
    0 <= j < M -> M - j <= Z.of_nat fuel ->
    probe fuel map key h (h mod M) ((h + j) mod M) <> Fault out_of_fuel.
Proof.
  intros HM Hsc.
  induction fuel as [|fuel IH]; intros j Hj Hfuel; [lia|]. simpl.
  destruct (read (slots map) ((h + j) mod M)) as [s|f] eqn:Er; simpl.
  2:{ apply read_fault in Er as ->. done. }
  destruct (index s =? UINT32_MAX); [done|].
  destruct (key_matches map key h (hash s) (index s)) as [[]|f] eqn:Ek; simpl.
  3:{ apply key_matches_fault in Ek as ->. done. }
  - destruct (read_item (items map) (index s)) as [it|f] eqn:Ei; simpl; [done|].
    apply read_item_fault in Ei as ->. done.
  - rewrite (probe_next _ _ M) by done.
    destruct (Z.eqb_spec ((h + j + 1) mod M) (h mod M)) as [Heq|Hne]; simpl; [done|].
    replace (h + j + 1) with (h + (j + 1)) by lia.
    rewrite probe_turn in Hne by done.
    apply IH; lia.
Qed.

(** ** Skipping over occupied slots *)

Lemma probe_skip (map : trashmap_t) (key : cstring) (h M : Z) :
  M = probe_size (slot_count map) ->
  1 <= slot_count map < 2 ^ 64 ->
  forall (n fuel : nat) (j : Z),
    0 <= j -> j + Z.of_nat n < M ->
    (forall i, j <= i < j + Z.of_nat n ->
       exists t, slots map !! Z.to_nat ((h + i) mod M) = Some t /\
         occupied t = true /\
         key_matches map key h (hash t) (index t) = Done false) ->
    probe (n + fuel) map key h (h mod M) ((h + j) mod M) =
    probe fuel map key h (h mod M) ((h + (j + Z.of_nat n)) mod M).
Proof.
  intros HM Hsc. induction n as [|n IH]; intros fuel j Hj HjM Hskip.
  - simpl. do 2 f_equal. lia.
  - destruct (Hskip j ltac:(lia)) as (t & Ht & Hocc & Hk).
    simpl. rewrite (read_Done _ _ _ Ht). simpl.
    unfold occupied in Hocc. apply negb_true_iff in Hocc. rewrite Hocc, Hk. simpl.
    rewrite (probe_next _ _ M) by done.
    destruct (Z.eqb_spec ((h + j + 1) mod M) (h mod M)) as [Heq|Hne]; simpl.
    { apply probe_turn in Heq; lia. }
    replace (h + j + 1) with (h + (j + 1)) by lia.
    rewrite IH; [do 2 f_equal; lia|lia|lia|].
    intros i Hi. apply Hskip. lia.
Qed.

(** A probe for a key that matches no occupied slot stops at the first
    empty slot of its sequence, or wraps when there is none. *)
Lemma probe_absent (map : trashmap_t) (key : cstring) (h M : Z) :
  M = probe_size (slot_count map) ->
  1 <= slot_count map < 2 ^ 64 ->
  (forall i, 0 <= i < M ->
     exists t, slots map !! Z.to_nat ((h + i) mod M) = Some t /\
       (occupied t = true ->
        key_matches map key h (hash t) (index t) = Done false)) ->
  forall (n : nat) (j : Z),
    0 <= j < M -> Z.of_nat n = M - j ->
    (forall i, 0 <= i < j ->
       exists t, slots map !! Z.to_nat ((h + i) mod M) = Some t /\
         occupied t = true) ->
    (exists d e, j <= d < M /\
       probe n map key h (h mod M) ((h + j) mod M) = Done (PEmpty ((h + d) mod M)) /\
       slots map !! Z.to_nat ((h + d) mod M) = Some e /\ occupied e = false /\
       (forall i, 0 <= i < d ->
          exists t, slots map !! Z.to_nat ((h + i) mod M) = Some t /\
            occupied t = true)) \/
    (probe n map key h (h mod M) ((h + j) mod M) = Done PWrapped /\
     (forall i, 0 <= i < M ->
        exists t, slots map !! Z.to_nat ((h + i) mod M) = Some t /\
          occupied t = true)).
Proof.
  intros HM Hsc Hall. induction n as [|n IH]; intros j Hj Hn Hbefore; [lia|].
  destruct (Hall j Hj) as (t & Ht & Hk).
  simpl. rewrite (read_Done _ _ _ Ht). simpl.
  destruct (occupied t) eqn:Hocc.
  - assert (forall i, 0 <= i < j + 1 ->
      exists t, slots map !! Z.to_nat ((h + i) mod M) = Some t /\
        occupied t = true) as Hbefore'.
    { intros i Hi. destruct (Z.eq_dec i j) as [->|]; [eauto|]. apply Hbefore. lia. }
    rewrite (Hk eq_refl). unfold occupied in Hocc.
    apply negb_true_iff in Hocc. rewrite Hocc. simpl.
    rewrite (probe_next _ _ M) by done.
    destruct (Z.eqb_spec ((h + j + 1) mod M) (h mod M)) as [Heq|Hne]; simpl.
    + right. split; [done|]. apply probe_turn in Heq; [|done].
      intros i Hi. apply Hbefore'. lia.
    + rewrite probe_turn in Hne by done.
      replace (h + j + 1) with (h + (j + 1)) by lia.
      destruct (IH (j + 1) ltac:(lia) ltac:(lia) Hbefore')
        as [(d & e & Hd & Hp & He & Hemp & Hocc')|[Hp Hocc']].
      * left. exists d, e. repeat split; try done; lia.
      * by right.
  - left. exists j, t. unfold occupied in Hocc.
    apply negb_false_iff in Hocc. rewrite Hocc.
    repeat split; try done; try lia. unfold occupied. by rewrite Hocc.
Qed.

(** ** Counting occupied slots *)

Lemma count_occupied_cons (s : trashmap_slot_t) (sl : list trashmap_slot_t) :
  count_occupied (s :: sl) =
  if occupied s then S (count_occupied sl) else count_occupied sl.
Proof. unfold count_occupied. simpl. by destruct (occupied s). Qed.

Lemma count_occupied_app (sl1 sl2 : list trashmap_slot_t) :
  count_occupied (sl1 ++ sl2) = (count_occupied sl1 + count_occupied sl2)%nat.
Proof.
  unfold count_occupied. by rewrite List.filter_app, length_app.
Qed.

Lemma count_occupied_lower (sl : list trashmap_slot_t) (n : nat) :
  (forall q, (q < n)%nat -> exists t, sl !! q = Some t /\ occupied t = true) ->
  (n <= count_occupied sl)%nat.
Proof.
  revert n. induction sl as [|s sl IH]; intros n H.
  - destruct n as [|n]; [lia|]. destruct (H 0%nat ltac:(lia)) as (t & Ht & _). done.
  - destruct n as [|n]; [lia|]. rewrite count_occupied_cons.
    destruct (H 0%nat ltac:(lia)) as (t & Ht & Hocc). simpl in Ht.
    injection Ht as ->. rewrite Hocc.
    apply le_n_S, IH. intros q Hq. apply (H (S q)). lia.
Qed.

Lemma count_occupied_insert (sl : list trashmap_slot_t) (p : nat)
    (e s : trashmap_slot_t) :
  sl !! p = Some e -> occupied e = false -> occupied s = true ->
  count_occupied (<[p := s]> sl) = S (count_occupied sl).
Proof.
  revert p. induction sl as [|a sl IH]; intros p Hp He Hs; [done|].
  destruct p as [|p]; simpl in *.
  - injection Hp as ->. rewrite !count_occupied_cons, He, Hs. done.
  - rewrite !count_occupied_cons, (IH p) by done. by destruct (occupied a).
Qed.

Lemma count_occupied_replicate (s : trashmap_slot_t) (n : nat) :
  occupied s = false -> count_occupied (replicate n s) = 0%nat.
Proof.
  intros H. induction n as [|n IH]; [done|].
  simpl. by rewrite count_occupied_cons, H.
Qed.

(** A probe sequence that is occupied for a whole turn means that the first
    [M] slots are all occupied. *)
Lemma full_turn_count (sl : list trashmap_slot_t) (h M : Z) :
  1 <= M ->
  (forall i, 0 <= i < M ->
     exists t, sl !! Z.to_nat ((h + i) mod M) = Some t /\ occupied t = true) ->
  M <= Z.of_nat (count_occupied sl).
Proof.
  intros HM H.
  assert (Z.to_nat M <= count_occupied sl)%nat; [|lia].
  apply count_occupied_lower. intros q Hq.
  destruct (H ((Z.of_nat q - h) mod M)) as (t & Ht & Hocc).
  { apply Z.mod_pos_bound. lia. }
  rewrite probe_pos_dist in Ht by lia. rewrite Nat2Z.id in Ht. eauto.
Qed.

(** ** Consequences of the representation invariant *)

Lemma omap_id_Some {A : Type} (l : list A) : omap id (Some <$> l) = l.
Proof. induction l as [|x l IH]; [done|]. csimpl. by rewrite IH. Qed.

Lemma model_length (map : trashmap_t) :
  rep_inv map -> Z.of_nat (length (model map)) = count map.
Proof.
  intros I. pose proof (f_equal length (inv_live _ I)) as H.
  rewrite length_fmap, length_take in H.
  pose proof (inv_capacity _ I). pose proof (inv_count _ I).
  pose proof (inv_items_len _ I). lia.
Qed.

Lemma model_lookup (map : trashmap_t) (i : nat) (it : trashmap_item_t) :
  rep_inv map -> model map !! i = Some it ->
  items map !! i = Some (Some it) /\ Z.of_nat i < count map.
Proof.
  intros I H. pose proof (model_length _ I) as Hlen.
  pose proof (lookup_lt_Some _ _ _ H) as Hi.
  split; [|lia].
  rewrite <- (lookup_take_lt _ (Z.to_nat (count map))) by lia.
  rewrite (inv_live _ I), list_lookup_fmap, H. done.
Qed.

Lemma table_of_elem (its : list trashmap_item_t) (s : trashmap_slot_t) :
  s ∈ table_of its <->
  exists i it, its !! i = Some it /\
    s = mk_slot (trashmap_hash (chars (Item.key it))) (Z.of_nat i).
Proof.
  unfold table_of. rewrite elem_of_lookup_imap.
  split; intros (i & it & H1 & H2); eauto.
Qed.

Lemma table_of_length (its : list trashmap_item_t) :
  length (table_of its) = length its.
Proof. apply length_imap. Qed.

(** What an occupied slot of a well-formed table points to. *)
Lemma occupied_slot_item (map : trashmap_t) (p : nat) (s : trashmap_slot_t) :
  rep_inv map -> slots map !! p = Some s -> occupied s = true ->
  exists i it, model map !! i = Some it /\
    s = mk_slot (trashmap_hash (chars (Item.key it))) (Z.of_nat i) /\
    read_item (items map) (index s) = Done it.
Proof.
  intros I Hp Hocc.
  destruct (rep_mem _ _ _ (inv_rep _ I) _ _ Hp Hocc) as (_ & Hin & _).
  apply table_of_elem in Hin as (i & it & Hit & ->).
  exists i, it. repeat split; [done|]. simpl.
  apply read_item_Done. rewrite Nat2Z.id.
  by destruct (model_lookup _ _ _ I Hit).
Qed.

(** The match test on an occupied slot of a well-formed table. *)
Lemma key_matches_occupied (map : trashmap_t) (key : cstring) (p : nat)
    (s : trashmap_slot_t) :
  rep_inv map -> slots map !! p = Some s -> occupied s = true ->
  exists i it, model map !! i = Some it /\
    s = mk_slot (trashmap_hash (chars (Item.key it))) (Z.of_nat i) /\
    read_item (items map) (index s) = Done it /\
    key_matches map key (trashmap_hash (chars key)) (hash s) (index s) =
    Done (same_key (chars key) it).
Proof.
  intros I Hp Hocc.
  destruct (occupied_slot_item _ _ _ I Hp Hocc) as (i & it & Hit & Hs & Hread).
  exists i, it. repeat split; try done.
  unfold key_matches. rewrite Hread. simpl. rewrite same_key_strcmp.
  destruct (Z.eqb_spec (hash s) (trashmap_hash (chars key))) as [|Hne]; [done|].
  f_equal. symmetry. apply not_true_is_false. intros Hsame.
  apply same_key_spec, trashmap_hash_c_str in Hsame.
  rewrite Hs in Hne. simpl in Hne. congruence.
Qed.

Lemma model_get_Some (its : list trashmap_item_t) (k : string)
    (it : trashmap_item_t) :
  model_get its k = Some it ->
  same_key k it = true /\ exists i, its !! i = Some it.
Proof.
  unfold model_get. intros H. apply List.find_some in H as [Hin Hk].
  split; [done|]. apply list_elem_of_lookup. by apply list_elem_of_In.
Qed.

Lemma model_get_None (its : list trashmap_item_t) (k : string) (i : nat)
    (it : trashmap_item_t) :
  model_get its k = None -> its !! i = Some it -> same_key k it = false.
Proof.
  unfold model_get. intros H Hi. apply (List.find_none _ _ H).
  apply list_elem_of_In. by apply list_elem_of_lookup_2 in Hi.
Qed.

(** With distinct keys, a matching entry is the one a lookup reports. *)
Lemma model_get_unique (its : list trashmap_item_t) (k : string) (i : nat)
    (it : trashmap_item_t) :
  keys_distinct its -> its !! i = Some it -> same_key k it = true ->
  model_get its k = Some it.
Proof.
  intros Hd Hi Hk. destruct (model_get its k) as [it'|] eqn:E.
  - apply model_get_Some in E as (Hk' & j & Hj).
    apply same_key_spec in Hk, Hk'.
    assert (j = i) as -> by (apply (Hd j i it' it); congruence). congruence.
  - rewrite (model_get_None _ _ _ _ E Hi) in Hk. done.
Qed.

(** ** The probe on a well-formed table *)

Lemma probe_fuel_enough (map : trashmap_t) :
  rep_inv map ->
  (Z.to_nat (probe_size (slot_count map)) <= probe_fuel map)%nat.
Proof.
  intros I. pose proof (inv_slot_count _ I).
  pose proof (probe_size_bounds (slot_count map)). unfold probe_fuel. lia.
Qed.

(** A key that is in the table is found, at its entry. *)
Lemma probe_found (map : trashmap_t) (key : cstring) (i : nat)
    (it : trashmap_item_t) (M : Z) :
  rep_inv map -> M = probe_size (slot_count map) ->
  model map !! i = Some it -> same_key (chars key) it = true ->
  exists p,
    probe (probe_fuel map) map key (trashmap_hash (chars key))
      (trashmap_hash (chars key) mod M) (trashmap_hash (chars key) mod M)
    = Done (PFound p (Z.of_nat i) it).
Proof.
  intros I HM Hit Hk.
  pose proof (inv_slot_count _ I) as Hsc.
  pose proof (probe_size_bounds (slot_count map) ltac:(lia)) as [HM1 HM32].
  rewrite <- HM in HM1, HM32.
  set (h := trashmap_hash (chars key)).
  assert (trashmap_hash (chars (Item.key it)) = h) as Hh.
  { symmetry. apply trashmap_hash_c_str. by apply same_key_spec. }
  set (s := mk_slot h (Z.of_nat i)).
  assert (s ∈ table_of (model map)) as Hin.
  { apply table_of_elem. exists i, it. by rewrite Hh. }
  destruct (rep_all _ _ _ (inv_rep _ I) _ Hin) as (Hocc & p & Hp).
  destruct (rep_mem _ _ _ (inv_rep _ I) _ _ Hp Hocc) as (HpM & _ & Hchain).
  rewrite <- HM in HpM, Hchain. simpl in Hchain.
  set (d := (Z.of_nat p - h) mod M) in *.
  assert (0 <= d < M) as Hd by (apply Z.mod_pos_bound; lia).
  assert ((h + d) mod M = Z.of_nat p) as Hpos by (apply probe_pos_dist; lia).
  exists (Z.of_nat p).
  apply (probe_fuel_mono (Z.to_nat d + 1)).
  2:{ pose proof (probe_fuel_enough _ I). rewrite <- HM in *. lia. }
  replace ((h mod M)) with ((h + 0) mod M) at 2 by (f_equal; lia).
  rewrite (probe_skip map key h M HM ltac:(pow2; lia)); [|lia|lia|].
  - rewrite Z2Nat.id, Z.add_0_l, Hpos by lia. simpl.
    rewrite (read_Done _ _ _ ltac:(by rewrite Nat2Z.id)). simpl.
    unfold occupied in Hocc. apply negb_true_iff in Hocc. simpl in Hocc.
    rewrite Hocc.
    destruct (key_matches_occupied map key p s I Hp) as (i' & it' & Hit' & Hs & Hr & Hm).
    { unfold occupied. simpl. by rewrite Hocc. }
    injection Hs as _ Hi'. apply Nat2Z.inj in Hi'. subst i'.
    assert (it' = it) as -> by congruence.
    fold h in Hm. simpl in Hm, Hr. rewrite Hm, Hk. simpl. rewrite Hr. done.
  - intros j Hj. rewrite Z2Nat.id in Hj by lia.
    destruct (Hchain j ltac:(lia)) as (t & Ht & Htocc).
    exists t. repeat split; try done.
    destruct (key_matches_occupied map key _ t I Ht Htocc)
      as (i' & it' & Hit' & Hs & Hr & Hm).
    fold h in Hm. rewrite Hm. f_equal. apply not_true_is_false. intros Hk'.
    assert (i' = i) as ->.
    { apply (inv_keys _ I i' i it' it); [done..|].
      apply same_key_spec in Hk, Hk'. congruence. }
    assert (it' = it) as -> by congruence.
    assert (t = s) as -> by (rewrite Hs, Hh; done).
    pose proof (rep_inj _ _ _ (inv_rep _ I) _ _ _ Ht Hp Htocc) as Heq.
    assert ((h + j) mod M = (h + d) mod M) as Hjd.
    { rewrite Hpos, <- Heq, Z2Nat.id; [done|]. apply Z.mod_pos_bound. lia. }
    apply probe_pos_inj in Hjd; lia.
Qed.

(** A key that is not in the table ends the probe at the first empty slot
    of its sequence. *)
Lemma probe_not_found (map : trashmap_t) (key : cstring) (M : Z) :
  rep_inv map -> M = probe_size (slot_count map) ->
  model_get (model map) (chars key) = None ->
  exists d e, 0 <= d < M /\
    probe (probe_fuel map) map key (trashmap_hash (chars key))
      (trashmap_hash (chars key) mod M) (trashmap_hash (chars key) mod M)
    = Done (PEmpty ((trashmap_hash (chars key) + d) mod M)) /\
    slots map !! Z.to_nat ((trashmap_hash (chars key) + d) mod M) = Some e /\
    occupied e = false /\
    (forall i, 0 <= i < d ->
       exists t, slots map !! Z.to_nat ((trashmap_hash (chars key) + i) mod M) = Some t /\
         occupied t = true).
Proof.
  intros I HM Habs.
  pose proof (inv_slot_count _ I) as Hsc.
  pose proof (probe_size_bounds (slot_count map) ltac:(lia)) as [HM1 HM32].
  rewrite <- HM in HM1, HM32.
  set (h := trashmap_hash (chars key)).
  destruct (probe_absent map key h M HM ltac:(pow2; lia)) with (n := Z.to_nat M) (j := 0)
    as [(d & e & Hd & Hp & He & Hemp & Hocc)|[Hp Hocc]].
  - intros i Hi.
    assert (Z.to_nat ((h + i) mod M) < length (slots map))%nat as Hlt.
    { pose proof (inv_slots_len _ I). pose proof (Z.mod_pos_bound (h + i) M). lia. }
    apply lookup_lt_is_Some_2 in Hlt as [t Ht]. exists t. split; [done|].
    intros Htocc.
    destruct (key_matches_occupied map key _ t I Ht Htocc)
      as (i' & it' & Hit' & Hs & Hr & Hm).
    fold h in Hm. rewrite Hm. f_equal. by apply (model_get_None _ _ i' _ Habs).
  - lia.
  - lia.
  - intros i Hi. lia.
  - exists d, e. repeat split; try done; try lia.
    rewrite Z.add_0_r in Hp.
    apply (probe_fuel_mono (Z.to_nat M)); [done|].
    pose proof (probe_fuel_enough _ I). rewrite <- HM in *. lia.
  - exfalso. pose proof (full_turn_count _ _ _ (proj1 HM1) Hocc) as Hfull.
    rewrite (rep_card _ _ _ (inv_rep _ I)), table_of_length in Hfull.
    pose proof (model_length _ I). pose proof (inv_count _ I) as Hc.
    pose proof (inv_load _ I) as Hl.
    assert (count map < slot_count map).
    { assert (slot_count map * 3 / 4 < slot_count map); [|lia].
      apply Z.div_lt_upper_bound; lia. }
    unfold probe_size in HM. pow2. lia.
Qed.

(** ** trashmap_get and trashmap_has on a well-formed table *)

Lemma trashmap_get_spec (map : trashmap_t) (key : cstring) :
  rep_inv map ->
  trashmap_get map key = Done (model_value (model map) (chars key)).
Proof.
  intros I. pose proof (inv_slot_count _ I) as Hsc.
  unfold trashmap_get.
  destruct (Z.eqb_spec (slot_count map) 0) as [|_]; [lia|].
  rewrite (probe_start _ _ _ eq_refl (trashmap_hash_range _) (proj1 Hsc)).
  rewrite get_loop_probe. unfold model_value.
  destruct (model_get (model map) (chars key)) as [it|] eqn:E.
  - apply model_get_Some in E as (Hk & i & Hi).
    destruct (probe_found map key i it _ I eq_refl Hi Hk) as (p & ->). done.
  - destruct (probe_not_found map key _ I eq_refl E) as (d & e & _ & -> & _). done.
Qed.

Lemma trashmap_has_spec (map : trashmap_t) (key : cstring) :
  rep_inv map ->
  trashmap_has map key = Done (model_has (model map) (chars key)).
Proof.
  intros I. pose proof (inv_slot_count _ I) as Hsc.
  unfold trashmap_has.
  destruct (Z.eqb_spec (slot_count map) 0) as [|_]; [lia|].
  rewrite (probe_start _ _ _ eq_refl (trashmap_hash_range _) (proj1 Hsc)).
  rewrite has_loop_probe by apply key_matches_read. unfold model_has.
  destruct (model_get (model map) (chars key)) as [it|] eqn:E.
  - apply model_get_Some in E as (Hk & i & Hi).
    destruct (probe_found map key i it _ I eq_refl Hi Hk) as (p & ->). done.
  - destruct (probe_not_found map key _ I eq_refl E) as (d & e & _ & -> & _). done.
Qed.

(** ** Slot arrays that represent a set of slots *)

Lemma filled_slot_255 : filled_slot 255 = empty_slot.
Proof. reflexivity. Qed.

Lemma chain_mono (sl sl' : list trashmap_slot_t) (M h p : Z) :
  (forall q t, sl !! q = Some t -> occupied t = true -> sl' !! q = Some t) ->
  chain sl M h p -> chain sl' M h p.
Proof.
  intros Hsub Hc j Hj. destruct (Hc j Hj) as (t & Ht & Hocc). eauto.
Qed.

Lemma represents_empty (n : nat) (M : Z) :
  represents (replicate n empty_slot) M [].
Proof.
  split.
  - intros p s Hp Hocc. apply lookup_replicate in Hp as [-> _]. done.
  - intros s Hs. by apply elem_of_nil in Hs.
  - intros p q s Hp _ Hocc. apply lookup_replicate in Hp as [-> _]. done.
  - by apply count_occupied_replicate.
Qed.

Lemma represents_ext (sl : list trashmap_slot_t) (M : Z)
    (S S' : list trashmap_slot_t) :
  represents sl M S -> (forall s, s ∈ S <-> s ∈ S') -> length S = length S' ->
  represents sl M S'.
Proof.
  intros [Hmem Hall Hinj Hcard] Hiff Hlen. split.
  - intros p s Hp Hocc. destruct (Hmem p s Hp Hocc) as (? & ? & ?).
    repeat split; try done. by apply Hiff.
  - intros s Hs. apply Hall. by apply Hiff.
  - done.
  - congruence.
Qed.

(** Writing a new slot into an empty cell at the end of its occupied run. *)
Lemma represents_insert (sl : list trashmap_slot_t) (M : Z)
    (S : list trashmap_slot_t) (p : nat) (e s : trashmap_slot_t) :
  represents sl M S ->
  sl !! p = Some e -> occupied e = false -> Z.of_nat p < M ->
  occupied s = true -> s ∉ S -> chain sl M (hash s) (Z.of_nat p) ->
  represents (<[p := s]> sl) M (S ++ [s]).
Proof.
  intros [Hmem Hall Hinj Hcard] Hp He HpM Hs Hnew Hchain.
  assert (forall q t, sl !! q = Some t -> occupied t = true ->
            <[p := s]> sl !! q = Some t) as Hsub.
  { intros q t Hq Ht. rewrite list_lookup_insert_ne; [done|].
    intros ->. congruence. }
  pose proof (lookup_lt_Some _ _ _ Hp) as Hlt.
  split.
  - intros q t Hq Ht.
    destruct (decide (p = q)) as [<-|Hne].
    + rewrite list_lookup_insert_eq in Hq by done. injection Hq as <-.
      repeat split; [done| |by apply (chain_mono sl)].
      apply elem_of_app. right. by apply list_elem_of_singleton.
    + rewrite list_lookup_insert_ne in Hq by done.
      destruct (Hmem q t Hq Ht) as (? & ? & ?).
      repeat split; [done| |by apply (chain_mono sl)].
      apply elem_of_app. by left.
  - intros t Ht. apply elem_of_app in Ht as [Ht|Ht].
    + destruct (Hall t Ht) as (Hocc & q & Hq). split; [done|]. eauto.
    + apply list_elem_of_singleton in Ht as ->. split; [done|].
      exists p. by apply list_lookup_insert_eq.
  - intros q1 q2 t Hq1 Hq2 Ht.
    destruct (decide (p = q1)) as [<-|Hne1], (decide (p = q2)) as [<-|Hne2];
      [done|..].
    + rewrite list_lookup_insert_eq in Hq1 by done. injection Hq1 as <-.
      rewrite list_lookup_insert_ne in Hq2 by done.
      destruct Hnew. by destruct (Hmem q2 s Hq2 Ht) as (_ & ? & _).
    + rewrite list_lookup_insert_eq in Hq2 by done. injection Hq2 as <-.
      rewrite list_lookup_insert_ne in Hq1 by done.
      destruct Hnew. by destruct (Hmem q1 s Hq1 Ht) as (_ & ? & _).
    + rewrite list_lookup_insert_ne in Hq1, Hq2 by done. eauto.
  - rewrite (count_occupied_insert _ _ e) by done.
    rewrite length_app, Hcard. simpl. lia.
Qed.

(** ** trashmap_memset, trashmap_init, trashmap_clear *)

Lemma trashmap_memset_all (dest : list trashmap_slot_t) (byte n : Z) :
  0 <= n -> Z.of_nat (length dest) = n ->
  trashmap_memset dest byte (n * sizeof_slot) =
  Done (replicate (Z.to_nat n) (filled_slot byte)).
Proof.
  intros Hn Hlen. unfold trashmap_memset.
  rewrite Z.div_mul by done.
  destruct (Z.ltb_spec (Z.of_nat (length dest)) n); [lia|].
  rewrite drop_ge by lia. by rewrite app_nil_r.
Qed.

Lemma rep_inv_fresh (n cap : Z) (its : list (option trashmap_item_t)) :
  1 <= n < 2 ^ 61 -> 0 <= cap < 2 ^ 60 -> Z.of_nat (length its) = cap ->
  rep_inv (mk_map (replicate (Z.to_nat n) empty_slot) its n 0 cap).
Proof.
  intros Hn Hcap Hlen. split; simpl; try done; try (pow2; lia).
  - apply Z.div_le_lower_bound; lia.
  - rewrite length_replicate. lia.
  - apply represents_empty.
Qed.

Lemma memset_alloc_fresh (n : Z) :
  0 <= n ->
  memset_alloc (TRASHMAP_ALLOC (n * sizeof_slot)) 255 (n * sizeof_slot) =
  if n * sizeof_slot >? PTRDIFF_MAX then Fault undefined_behaviour
  else Done (Some (replicate (Z.to_nat n) empty_slot)).
Proof.
  intros Hn. unfold TRASHMAP_ALLOC.
  destruct (Z.gtb_spec (n * sizeof_slot) PTRDIFF_MAX) as [Hbig|Hfit]; simpl.
  - destruct (Z.eqb_spec (n * sizeof_slot) 0) as [Hz|]; [|done].
    pow2. lia.
  - rewrite Z.div_mul by done.
    rewrite trashmap_memset_all, filled_slot_255; [done|lia|].
    rewrite length_replicate. lia.
Qed.

Lemma trashmap_init_spec (n : Z) :
  1 <= n < 2 ^ 60 ->
  trashmap_init n = Done (mk_map (replicate (Z.to_nat n) empty_slot) [] n 0 0) /\
  rep_inv (mk_map (replicate (Z.to_nat n) empty_slot) [] n 0 0).
Proof.
  intros Hn. split; [|apply rep_inv_fresh; [pow2; lia|pow2; lia|done]].
  unfold trashmap_init. destruct (Z.eqb_spec n 0) as [|_]; [lia|].
  rewrite (usize_small (n * sizeof_slot)) by (pow2; lia).
  cbv zeta. rewrite memset_alloc_fresh by lia.
  destruct (Z.gtb_spec (n * sizeof_slot) PTRDIFF_MAX); [pow2; lia|done].
Qed.

(** A slot array of [2^63] bytes or more is refused, and [trashmap_init]
    writes through the [NULL] it got. *)
Lemma trashmap_init_Done (n : Z) (map : trashmap_t) :
  1 <= n < 2 ^ 61 -> trashmap_init n = Done map ->
  n < 2 ^ 60 /\
  map = mk_map (replicate (Z.to_nat n) empty_slot) [] n 0 0 /\
  rep_inv map.
Proof.
  intros Hn Hinit.
  destruct (Z_lt_ge_dec n (2 ^ 60)) as [Hlt|Hge].
  - destruct (trashmap_init_spec n ltac:(lia)) as [Heq I].
    rewrite Heq in Hinit. injection Hinit as <-. done.
  - exfalso. unfold trashmap_init in Hinit.
    destruct (Z.eqb_spec n 0) as [|_]; [lia|].
    rewrite (usize_small (n * sizeof_slot)) in Hinit by (pow2; lia).
    cbv zeta in Hinit. rewrite memset_alloc_fresh in Hinit by lia.
    destruct (Z.gtb_spec (n * sizeof_slot) PTRDIFF_MAX); [done|pow2; lia].
Qed.

Lemma trashmap_clear_spec (map : trashmap_t) :
  rep_inv map ->
  trashmap_clear map =
    Done (mk_map (replicate (Z.to_nat (slot_count map)) empty_slot) (items map)
            (slot_count map) 0 (capacity map)) /\
  rep_inv (mk_map (replicate (Z.to_nat (slot_count map)) empty_slot) (items map)
             (slot_count map) 0 (capacity map)).
Proof.
  intros I. pose proof (inv_slot_count _ I) as Hsc.
  pose proof (inv_capacity _ I). pose proof (inv_count _ I).
  split.
  - unfold trashmap_clear.
    rewrite (usize_small (slot_count map * sizeof_slot)) by (pow2; lia).
    rewrite trashmap_memset_all, filled_slot_255; [done|lia|].
    apply (inv_slots_len _ I).
  - apply rep_inv_fresh; [done|lia|]. apply (inv_items_len _ I).
Qed.

(** ** The abstract insert-or-update *)

Lemma keys_distinct_tail (it : trashmap_item_t) (its : list trashmap_item_t) :
  keys_distinct (it :: its) -> keys_distinct its.
Proof.
  intros H i j a b Hi Hj Hab.
  assert (S i = S j) by (by apply (H (S i) (S j) a b)). lia.
Qed.

Lemma model_set_found (its : list trashmap_item_t) (key : cstring) (value : ptr)
    (i : nat) (it : trashmap_item_t) :
  keys_distinct its -> its !! i = Some it -> same_key (chars key) it = true ->
  model_set its key value = <[i := mk_item (Item.key it) value]> its.
Proof.
  revert i. induction its as [|a its IH]; intros i Hd Hi Hk; [done|].
  destruct i as [|i]; simpl in *.
  - injection Hi as ->. by rewrite Hk.
  - destruct (same_key (chars key) a) eqn:Ha.
    + apply same_key_spec in Ha, Hk.
      assert (0 = S i)%nat; [|done].
      apply (Hd 0%nat (S i) a it); [done..|congruence].
    + f_equal. apply IH; [|done..]. by apply keys_distinct_tail in Hd.
Qed.

Lemma model_set_absent (its : list trashmap_item_t) (key : cstring) (value : ptr) :
  model_get its (chars key) = None ->
  model_set its key value = its ++ [mk_item key value].
Proof.
  unfold model_get. induction its as [|a its IH]; intros H; [done|].
  simpl in *. destruct (same_key (chars key) a); [done|]. by rewrite IH.
Qed.

Lemma table_of_app (its : list trashmap_item_t) (it : trashmap_item_t) :
  table_of (its ++ [it]) =
  table_of its ++
    [mk_slot (trashmap_hash (chars (Item.key it))) (Z.of_nat (length its))].
Proof.
  unfold table_of. rewrite imap_app. simpl. by rewrite Nat.add_0_r.
Qed.

Lemma table_of_update (its : list trashmap_item_t) (i : nat)
    (it : trashmap_item_t) (value : ptr) :
  its !! i = Some it ->
  table_of (<[i := mk_item (Item.key it) value]> its) = table_of its.
Proof.
  intros Hi. apply list_eq. intros j. unfold table_of.
  rewrite !list_lookup_imap.
  destruct (decide (i = j)) as [<-|Hne].
  - rewrite list_lookup_insert_eq by (by eapply lookup_lt_Some).
    by rewrite Hi.
  - by rewrite list_lookup_insert_ne.
Qed.

Lemma keys_distinct_update (its : list trashmap_item_t) (i : nat)
    (it : trashmap_item_t) (value : ptr) :
  its !! i = Some it -> keys_distinct its ->
  keys_distinct (<[i := mk_item (Item.key it) value]> its).
Proof.
  intros Hi Hd j1 j2 a b Hj1 Hj2 Hab.
  assert (forall j c, <[i := mk_item (Item.key it) value]> its !! j = Some c ->
            exists c', its !! j = Some c' /\ Item.key c' = Item.key c) as Hold.
  { intros j c Hj. destruct (decide (i = j)) as [<-|Hne].
    - rewrite list_lookup_insert_eq in Hj by (by eapply lookup_lt_Some).
      injection Hj as <-. eauto.
    - rewrite list_lookup_insert_ne in Hj by done. eauto. }
  destruct (Hold _ _ Hj1) as (a' & Ha' & Hka).
  destruct (Hold _ _ Hj2) as (b' & Hb' & Hkb).
  apply (Hd j1 j2 a' b'); [done..|congruence].
Qed.

Lemma keys_distinct_app (its : list trashmap_item_t) (key : cstring) (value : ptr) :
  keys_distinct its -> model_get its (chars key) = None ->
  keys_distinct (its ++ [mk_item key value]).
Proof.
  intros Hd Habs.
  assert (forall j a, its !! j = Some a ->
            c_str (chars key) <> c_str (chars (Item.key a))) as Hne.
  { intros j a Hj Heq. apply same_key_spec in Heq.
    by rewrite (model_get_None _ _ _ _ Habs Hj) in Heq. }
  intros j1 j2 a b Hj1 Hj2 Hab.
  apply lookup_snoc_Some in Hj1 as [[Hl1 Hj1]|[-> <-]];
    apply lookup_snoc_Some in Hj2 as [[Hl2 Hj2]|[-> <-]]; try done.
  - by apply (Hd j1 j2 a b).
  - simpl in Hab. by destruct (Hne _ _ Hj1).
  - simpl in Hab. by destruct (Hne _ _ Hj2).
Qed.

(** ** The two ways a set ends *)

Lemma live_update (arena : list (option trashmap_item_t))
    (its : list trashmap_item_t) (n i : nat) (x : trashmap_item_t) :
  take n arena = Some <$> its -> (i < n)%nat ->
  take n (<[i := Some x]> arena) = Some <$> <[i := x]> its.
Proof.
  intros H Hi. by rewrite take_insert_lt, H, list_fmap_insert.
Qed.

Lemma live_append (arena : list (option trashmap_item_t))
    (its : list trashmap_item_t) (n : nat) (x : trashmap_item_t) :
  take n arena = Some <$> its -> (n < length arena)%nat ->
  take (S n) (<[n := Some x]> arena) = Some <$> (its ++ [x]).
Proof.
  intros H Hn.
  rewrite (take_S_r _ _ (Some x)) by (by apply list_lookup_insert_eq).
  by rewrite take_insert_ge, H, fmap_app.
Qed.

(** Overwriting the value of a live entry. *)
Lemma rep_inv_update (map : trashmap_t) (i : nat) (it : trashmap_item_t)
    (value : ptr) :
  rep_inv map -> model map !! i = Some it ->
  model (mk_map (slots map)
           (<[i := Some (mk_item (Item.key it) value)]> (items map))
           (slot_count map) (count map) (capacity map))
    = <[i := mk_item (Item.key it) value]> (model map) /\
  rep_inv (mk_map (slots map)
             (<[i := Some (mk_item (Item.key it) value)]> (items map))
             (slot_count map) (count map) (capacity map)).
Proof.
  intros I Hi. destruct (model_lookup _ _ _ I Hi) as [Hcell Hlt].
  pose proof (live_update _ _ _ i (mk_item (Item.key it) value) (inv_live _ I)
                ltac:(lia)) as Hlive.
  assert (model (mk_map (slots map)
           (<[i := Some (mk_item (Item.key it) value)]> (items map))
           (slot_count map) (count map) (capacity map))
    = <[i := mk_item (Item.key it) value]> (model map)) as Hmodel.
  { unfold model at 1. simpl. by rewrite Hlive, omap_id_Some. }
  split; [done|].
  destruct I as [Hsc Hc Hcap Hload Hsl Hil Hlv Hk Hrep].
  split; simpl; try done.
  - by rewrite length_insert.
  - by rewrite Hmodel.
  - rewrite Hmodel. by apply keys_distinct_update.
  - rewrite Hmodel. by rewrite table_of_update.
Qed.

(** Appending a new entry and writing its slot. *)
Lemma rep_inv_insert (map : trashmap_t) (key : cstring) (value : ptr)
    (p : nat) (e : trashmap_slot_t) :
  rep_inv map -> count map + 1 <= capacity map ->
  model_get (model map) (chars key) = None ->
  slots map !! p = Some e -> occupied e = false ->
  Z.of_nat p < probe_size (slot_count map) ->
  chain (slots map) (probe_size (slot_count map))
    (trashmap_hash (chars key)) (Z.of_nat p) ->
  model (mk_map
           (<[p := mk_slot (trashmap_hash (chars key)) (count map)]> (slots map))
           (<[Z.to_nat (count map) := Some (mk_item key value)]> (items map))
           (slot_count map) (count map + 1) (capacity map))
    = model map ++ [mk_item key value] /\
  (count map < UINT32_MAX -> count map + 1 <= slot_count map * 3 / 4 ->
   rep_inv (mk_map
           (<[p := mk_slot (trashmap_hash (chars key)) (count map)]> (slots map))
           (<[Z.to_nat (count map) := Some (mk_item key value)]> (items map))
           (slot_count map) (count map + 1) (capacity map))).
Proof.
  intros I Hroom Habs Hp He HpM Hchain.
  pose proof (model_length _ I) as Hlen.
  pose proof (inv_count _ I) as Hc. pose proof (inv_items_len _ I) as Hil.
  pose proof (live_append _ _ _ (mk_item key value) (inv_live _ I) ltac:(lia))
    as Hlive.
  replace (S (Z.to_nat (count map))) with (Z.to_nat (count map + 1)) in Hlive
    by lia.
  match goal with |- ?m = _ /\ _ =>
    assert (m = model map ++ [mk_item key value]) as Hmodel
  end.
  { unfold model at 1. simpl. by rewrite Hlive, omap_id_Some. }
  split; [done|]. intros Hmax Hload.
  destruct I as [Hsc _ Hcap _ Hsl _ Hlv Hk Hrep].
  split; simpl; try done; try lia.
  - by rewrite length_insert.
  - by rewrite length_insert.
  - by rewrite Hmodel.
  - rewrite Hmodel. by apply keys_distinct_app.
  - rewrite Hmodel, table_of_app. simpl.
    replace (Z.of_nat (length (model map))) with (count map) by lia.
    apply (represents_insert _ _ _ _ e); try done.
    + unfold occupied. simpl. apply negb_true_iff, Z.eqb_neq. lia.
    + intros Hin. apply table_of_elem in Hin as (i & it & Hi & Heq).
      injection Heq as _ Hidx. apply lookup_lt_Some in Hi. lia.
Qed.

(** The probe of [trashmap_set] on a well-formed table with room for one
    more entry. *)
Lemma set_loop_spec (map : trashmap_t) (key : cstring) (value : ptr) :
  rep_inv map -> count map + 1 <= capacity map ->
  exists map',
    set_loop (probe_fuel map) map key value (trashmap_hash (chars key))
      (u32 (trashmap_hash (chars key) mod slot_count map))
      (u32 (trashmap_hash (chars key) mod slot_count map)) = Done map' /\
    model map' = model_set (model map) key value /\
    slot_count map' = slot_count map /\ capacity map' = capacity map /\
    length (items map') = length (items map) /\
    match model_get (model map) (chars key) with
    | Some it =>
        exists i, model map !! i = Some it /\
          slots map' = slots map /\ count map' = count map /\ rep_inv map' /\
          items map' = <[i := Some (mk_item (Item.key it) value)]> (items map)
    | None =>
        count map' = count map + 1 /\
        items map' =
          <[Z.to_nat (count map) := Some (mk_item key value)]> (items map) /\
        (count map < UINT32_MAX ->
         count map + 1 <= slot_count map * 3 / 4 -> rep_inv map')
    end.
Proof.
  intros I Hroom. pose proof (inv_slot_count _ I) as Hsc.
  pose proof (inv_count _ I) as Hc. pose proof (inv_items_len _ I) as Hil.
  pose proof (inv_slots_len _ I) as Hsl.
  rewrite (probe_start _ _ _ eq_refl (trashmap_hash_range _) (proj1 Hsc)).
  rewrite set_loop_probe.
  set (M := probe_size (slot_count map)).
  pose proof (probe_size_bounds (slot_count map) ltac:(lia)) as [HM1 HM32].
  fold M in HM1, HM32.
  destruct (model_get (model map) (chars key)) as [it|] eqn:E.
  - pose proof E as E'. apply model_get_Some in E' as (Hk & i & Hi).
    destruct (probe_found map key i it M I eq_refl Hi Hk) as (p & ->).
    destruct (model_lookup _ _ _ I Hi) as [Hcell Hlt].
    simpl. rewrite write_Done by lia. simpl. rewrite Nat2Z.id.
    destruct (rep_inv_update map i it value I Hi) as [Hmodel I'].
    eexists. split; [done|]. rewrite Hmodel.
    rewrite (model_set_found _ _ _ i it (inv_keys _ I) Hi Hk).
    simpl. rewrite length_insert. split_and!; try done. eauto 10.
  - destruct (probe_not_found map key M I eq_refl E)
      as (d & e & Hd & -> & He & Hemp & Hocc).
    simpl. rewrite write_Done by lia. simpl.
    assert (0 <= (trashmap_hash (chars key) + d) mod M < M) as Hpos
      by (apply Z.mod_pos_bound; lia).
    rewrite write_Done by lia. simpl.
    rewrite (u32_small (count map)) by (pow2; lia).
    rewrite (usize_small (count map + 1)) by (pow2; lia).
    destruct (rep_inv_insert map key value
                (Z.to_nat ((trashmap_hash (chars key) + d) mod M)) e I Hroom E He Hemp)
      as [Hmodel I'].
    + fold M. lia.
    + fold M. rewrite Z2Nat.id by lia. intros j Hj.
      rewrite probe_dist_pos in Hj by done. by apply Hocc.
    + eexists. split; [done|]. rewrite Hmodel, model_set_absent by done.
      simpl. rewrite length_insert. split_and!; done.
Qed.

(** ** Growth of the arena *)

Lemma grow_capacity_spec (count extra : Z) :
  0 <= count + extra <= 2 ^ 59 ->
  forall (fuel : nat) (cap : Z),
    1 <= cap < 2 ^ 60 -> count + extra <= cap * 2 ^ Z.of_nat fuel ->
    exists cap', grow_capacity fuel count extra cap = Done cap' /\
      count + extra <= cap' < 2 ^ 60 /\ cap <= cap' /\
      (cap' = cap \/ cap' < 2 * (count + extra)).
Proof.
  intros Hneed. induction fuel as [|fuel IH]; intros cap Hcap Hfuel.
  - simpl in *. rewrite usize_small by (pow2; lia).
    destruct (Z.gtb_spec (count + extra) cap); [lia|].
    exists cap. split; [done|lia].
  - simpl. rewrite usize_small by (pow2; lia).
    destruct (Z.gtb_spec (count + extra) cap) as [Hgt|Hle].
    + rewrite usize_small by (pow2; lia).
      destruct (IH (cap * 2)) as (cap' & Hrun & Hb & Hge & Hmin).
      * pow2. lia.
      * rewrite Nat2Z.inj_succ, Z.pow_succ_r in Hfuel by lia. lia.
      * exists cap'. split; [done|lia].
    + exists cap. split; [done|lia].
Qed.

Lemma realloc_grow (map : trashmap_t) (cap' : Z) :
  Z.of_nat (length (items map)) = capacity map ->
  capacity map <= cap' < 2 ^ 60 -> 1 <= cap' ->
  TRASHMAP_REALLOC (items_pointer map) (usize (cap' * sizeof_item)) =
    if cap' * sizeof_item >? PTRDIFF_MAX then None
    else Some (items map ++ replicate (Z.to_nat (cap' - capacity map)) None).
Proof.
  intros Hil Hcap' Hpos.
  unfold TRASHMAP_REALLOC, items_pointer. rewrite usize_small by (pow2; lia).
  destruct (cap' * sizeof_item >? PTRDIFF_MAX); [done|].
  rewrite Z.div_mul by done.
  destruct (Z.eqb_spec (capacity map) 0) as [Hz|Hnz].
  - assert (items map = []) as ->
      by (apply length_zero_iff_nil; lia).
    rewrite Hz, Z.sub_0_r. done.
  - destruct (Z.eqb_spec (cap' * sizeof_item) 0); [pow2; lia|].
    rewrite take_ge by lia. do 3 f_equal. lia.
Qed.

Lemma rep_inv_grow (map : trashmap_t) (cap' : Z) :
  rep_inv map -> capacity map <= cap' < 2 ^ 60 ->
  model (mk_map (slots map)
           (items map ++ replicate (Z.to_nat (cap' - capacity map)) None)
           (slot_count map) (count map) cap') = model map /\
  rep_inv (mk_map (slots map)
             (items map ++ replicate (Z.to_nat (cap' - capacity map)) None)
             (slot_count map) (count map) cap').
Proof.
  intros I Hcap'. pose proof (inv_capacity _ I) as Hcap.
  pose proof (inv_count _ I) as Hc. pose proof (inv_items_len _ I) as Hil.
  assert (take (Z.to_nat (count map))
            (items map ++ replicate (Z.to_nat (cap' - capacity map)) None)
          = take (Z.to_nat (count map)) (items map)) as Htake
    by (apply take_app_le; lia).
  assert (model (mk_map (slots map)
           (items map ++ replicate (Z.to_nat (cap' - capacity map)) None)
           (slot_count map) (count map) cap') = model map) as Hmodel.
  { unfold model. simpl. by rewrite Htake. }
  split; [done|].
  destruct I as [Hsc _ _ Hload Hsl _ Hlv Hk Hrep].
  split; simpl; try done; try lia.
  - rewrite length_app, length_replicate. lia.
  - by rewrite Hmodel, Htake.
  - by rewrite Hmodel.
  - by rewrite Hmodel.
Qed.

(** ** The rehash *)

Lemma rehash_probe_fuel_mono (fuel fuel' : nat) (nl : list trashmap_slot_t)
    (s : trashmap_slot_t) (nsc start idx : Z) (r : list trashmap_slot_t) :
  rehash_probe fuel nl s nsc start idx = Done r -> (fuel <= fuel')%nat ->
  rehash_probe fuel' nl s nsc start idx = Done r.
Proof.
  revert fuel' idx. induction fuel as [|fuel IH]; intros fuel' idx H Hle; [done|].
  destruct fuel' as [|fuel']; [lia|]. simpl in *.
  destruct (read nl idx) as [t|]; simpl in *; [|done].
  destruct (index t =? UINT32_MAX); [done|].
  destruct (negb (next_idx idx nsc =? start)); [|done].
  apply IH; [done|lia].
Qed.

(** The inner loop copies the slot into the first empty cell of its probe
    sequence, or ends without a copy when there is none. *)
Lemma rehash_probe_steps (nl : list trashmap_slot_t) (s : trashmap_slot_t)
    (nsc M h : Z) :
  M = probe_size nsc -> 1 <= nsc < 2 ^ 64 -> Z.of_nat (length nl) = nsc ->
  forall (n : nat) (j : Z),
    0 <= j < M -> Z.of_nat n = M - j ->
    (forall i, 0 <= i < j ->
       exists t, nl !! Z.to_nat ((h + i) mod M) = Some t /\ occupied t = true) ->
    (exists d e, j <= d < M /\
       rehash_probe n nl s nsc (h mod M) ((h + j) mod M) =
         Done (<[Z.to_nat ((h + d) mod M) := s]> nl) /\
       nl !! Z.to_nat ((h + d) mod M) = Some e /\ occupied e = false /\
       (forall i, 0 <= i < d ->
          exists t, nl !! Z.to_nat ((h + i) mod M) = Some t /\
            occupied t = true)) \/
    (rehash_probe n nl s nsc (h mod M) ((h + j) mod M) = Done nl /\
     (forall i, 0 <= i < M ->
        exists t, nl !! Z.to_nat ((h + i) mod M) = Some t /\
          occupied t = true)).
Proof.
  intros HM Hnsc Hlen.
  pose proof (probe_size_bounds nsc ltac:(lia)) as [HM1 HM32].
  rewrite <- HM in HM1, HM32.
  induction n as [|n IH]; intros j Hj Hn Hbefore; [lia|].
  assert (0 <= (h + j) mod M < M) as Hpos by (apply Z.mod_pos_bound; lia).
  assert (Z.to_nat ((h + j) mod M) < length nl)%nat as Hlt by lia.
  apply lookup_lt_is_Some_2 in Hlt as [t Ht].
  simpl. rewrite (read_Done _ _ _ Ht). simpl.
  destruct (occupied t) eqn:Hocc.
  - assert (forall i, 0 <= i < j + 1 ->
      exists t, nl !! Z.to_nat ((h + i) mod M) = Some t /\
        occupied t = true) as Hbefore'.
    { intros i Hi. destruct (Z.eq_dec i j) as [->|]; [eauto|]. apply Hbefore. lia. }
    unfold occupied in Hocc. apply negb_true_iff in Hocc. rewrite Hocc.
    rewrite (probe_next _ _ M) by done.
    destruct (Z.eqb_spec ((h + j + 1) mod M) (h mod M)) as [Heq|Hne]; simpl.
    + right. split; [done|]. apply probe_turn in Heq; [|done].
      intros i Hi. apply Hbefore'. lia.
    + rewrite probe_turn in Hne by done.
      replace (h + j + 1) with (h + (j + 1)) by lia.
      destruct (IH (j + 1) ltac:(lia) ltac:(lia) Hbefore')
        as [(d & e & Hd & Hp & He & Hemp & Hocc')|[Hp Hocc']].
      * left. exists d, e. split_and!; try done; lia.
      * by right.
  - left. exists j, t. unfold occupied in Hocc.
    apply negb_false_iff in Hocc. rewrite Hocc.
    rewrite write_Done by lia.
    split_and!; try done; try lia. unfold occupied. by rewrite Hocc.
Qed.

Lemma rehash_probe_spec (nl : list trashmap_slot_t) (s : trashmap_slot_t)
    (nsc : Z) :
  1 <= nsc < 2 ^ 64 -> Z.of_nat (length nl) = nsc ->
  0 <= hash s < 2 ^ 32 ->
  Z.of_nat (count_occupied nl) < probe_size nsc ->
  exists p e,
    rehash_probe (Z.to_nat nsc) nl s nsc (u32 (hash s mod nsc))
      (u32 (hash s mod nsc)) = Done (<[p := s]> nl) /\
    nl !! p = Some e /\ occupied e = false /\
    Z.of_nat p < probe_size nsc /\
    chain nl (probe_size nsc) (hash s) (Z.of_nat p).
Proof.
  intros Hnsc Hlen Hh Hfree.
  rewrite (probe_start _ _ _ eq_refl Hh (proj1 Hnsc)).
  set (M := probe_size nsc) in *.
  pose proof (probe_size_bounds nsc ltac:(lia)) as [HM1 HM32]. fold M in HM1, HM32.
  destruct (rehash_probe_steps nl s nsc M (hash s) eq_refl Hnsc Hlen
              (Z.to_nat M) 0)
    as [(d & e & Hd & Hp & He & Hemp & Hocc)|[_ Hfull]]; [lia|lia|intros; lia|..].
  - assert (0 <= (hash s + d) mod M < M) as Hpos by (apply Z.mod_pos_bound; lia).
    exists (Z.to_nat ((hash s + d) mod M)), e.
    rewrite Z.add_0_r in Hp.
    split_and!; try done; try lia.
    + apply (rehash_probe_fuel_mono (Z.to_nat M)); [done|lia].
    + rewrite Z2Nat.id by lia. intros j Hj.
      rewrite probe_dist_pos in Hj by done. by apply Hocc.
  - pose proof (full_turn_count _ _ _ (proj1 HM1) Hfull). lia.
Qed.

Lemma count_occupied_take (sl : list trashmap_slot_t) (k : nat) :
  (count_occupied (take k sl) <= count_occupied sl)%nat.
Proof.
  rewrite <- (take_drop k sl) at 2. rewrite count_occupied_app. lia.
Qed.

Lemma filter_occupied_elem (sl : list trashmap_slot_t) (s : trashmap_slot_t) :
  s ∈ List.filter occupied sl <-> s ∈ sl /\ occupied s = true.
Proof. rewrite !list_elem_of_In. apply List.filter_In. Qed.

Lemma filter_occupied_snoc (sl : list trashmap_slot_t) (s : trashmap_slot_t) :
  List.filter occupied (sl ++ [s]) =
  List.filter occupied sl ++ (if occupied s then [s] else []).
Proof. rewrite List.filter_app. simpl. by destruct (occupied s). Qed.

(** The outer loop: after the first [k] old slots, the new array represents
    the occupied ones among them. *)
Lemma rehash_for_spec (map : trashmap_t) (nsc : Z) :
  1 <= nsc < 2 ^ 64 ->
  (forall p s, slots map !! p = Some s -> occupied s = true ->
     0 <= hash s < 2 ^ 32) ->
  (forall p q s, slots map !! p = Some s -> slots map !! q = Some s ->
     occupied s = true -> p = q) ->
  Z.of_nat (count_occupied (slots map)) < probe_size nsc ->
  forall (todo k : nat) (nl : list trashmap_slot_t),
    (k + todo)%nat = length (slots map) ->
    Z.of_nat (length nl) = nsc ->
    represents nl (probe_size nsc) (List.filter occupied (take k (slots map))) ->
    exists nl',
      rehash_for todo map nl nsc (Z.of_nat k) = Done nl' /\
      Z.of_nat (length nl') = nsc /\
      represents nl' (probe_size nsc) (List.filter occupied (slots map)).
Proof.
  intros Hnsc Hrange Hinj Hfree.
  induction todo as [|todo IH]; intros k nl Hk Hlen Hrep.
  - simpl. exists nl. rewrite take_ge in Hrep by lia. done.
  - assert (k < length (slots map))%nat as Hlt by lia.
    apply lookup_lt_is_Some_2 in Hlt as [s Hs].
    pose proof (take_S_r _ _ _ Hs) as Htake.
    simpl. rewrite (read_Done _ _ _ ltac:(by rewrite Nat2Z.id)). simpl.
    replace (Z.of_nat k + 1) with (Z.of_nat (S k)) by lia.
    destruct (occupied s) eqn:Hocc.
    + pose proof Hocc as Hocc'. unfold occupied in Hocc'.
      apply negb_true_iff in Hocc'. rewrite Hocc'.
      destruct (Z.eqb_spec nsc 0) as [|_]; [lia|].
      destruct (rehash_probe_spec nl s nsc Hnsc Hlen (Hrange _ _ Hs Hocc))
        as (p & e & -> & Hp & He & HpM & Hchain).
      { rewrite (rep_card _ _ _ Hrep).
        pose proof (count_occupied_take (slots map) k).
        unfold count_occupied in *. lia. }
      simpl. apply IH; [lia|by rewrite length_insert|].
      rewrite Htake, filter_occupied_snoc, Hocc.
      apply (represents_insert _ _ _ _ e); try done.
      intros Hin. apply filter_occupied_elem in Hin as [Hin _].
      apply list_elem_of_lookup in Hin as [q Hq].
      pose proof (lookup_lt_Some _ _ _ Hq) as Hqk.
      rewrite length_take in Hqk.
      rewrite lookup_take_lt in Hq by lia.
      pose proof (Hinj _ _ _ Hq Hs Hocc). lia.
    + pose proof Hocc as Hocc'. unfold occupied in Hocc'.
      apply negb_false_iff in Hocc'. rewrite Hocc'.
      apply IH; [lia|done|].
      by rewrite Htake, filter_occupied_snoc, Hocc, app_nil_r.
Qed.

(** ** trashmap_reserve on a well-formed table *)

Lemma rep_inv_rehash (map : trashmap_t) :
  rep_inv map -> slot_count map * 2 < 2 ^ 61 ->
  exists nl,
    rehash_for (Z.to_nat (slot_count map)) map
      (replicate (Z.to_nat (slot_count map * 2)) empty_slot)
      (slot_count map * 2) 0 = Done nl /\
    rep_inv (mk_map nl (items map) (slot_count map * 2) (count map)
               (capacity map)).
Proof.
  intros I Hsc2. pose proof (inv_slot_count _ I) as Hsc.
  pose proof (inv_count _ I) as Hc. pose proof (inv_load _ I) as Hload.
  pose proof (inv_slots_len _ I) as Hsl. pose proof (model_length _ I) as Hml.
  pose proof (inv_rep _ I) as Hrep.
  assert (count map < slot_count map) as Hlt.
  { assert (slot_count map * 3 / 4 < slot_count map); [|lia].
    apply Z.div_lt_upper_bound; lia. }
  destruct (rehash_for_spec map (slot_count map * 2)) with
    (todo := Z.to_nat (slot_count map)) (k := 0%nat)
    (nl := replicate (Z.to_nat (slot_count map * 2)) empty_slot)
    as (nl & Hrun & Hlen & Hnew).
  - pow2. lia.
  - intros p s Hp Hocc.
    destruct (rep_mem _ _ _ Hrep _ _ Hp Hocc) as (_ & Hin & _).
    apply table_of_elem in Hin as (i & it & _ & ->). simpl.
    apply trashmap_hash_range.
  - apply (rep_inj _ _ _ Hrep).
  - rewrite (rep_card _ _ _ Hrep), table_of_length.
    unfold probe_size. pow2. lia.
  - lia.
  - rewrite length_replicate. lia.
  - apply represents_empty.
  - exists nl. split; [done|].
    destruct I as [_ _ Hcap _ _ Hil Hlv Hk _].
    split; simpl; try done; try lia.
    + assert (slot_count map * 3 / 4 <= slot_count map * 2 * 3 / 4); [|lia].
      apply Z.div_le_mono; lia.
    + change (model _) with (model map).
      apply (represents_ext _ _ _ _ Hnew).
      * intros s. rewrite filter_occupied_elem. split.
        -- intros [Hin Hocc]. apply list_elem_of_lookup in Hin as [p Hp].
           by destruct (rep_mem _ _ _ Hrep _ _ Hp Hocc) as (_ & ? & _).
        -- intros Hin. destruct (rep_all _ _ _ Hrep _ Hin) as (Hocc & p & Hp).
           split; [|done]. by apply list_elem_of_lookup_2 in Hp.
      * apply (rep_card _ _ _ Hrep).
Qed.

(** The two blocks of [trashmap_reserve] on a well-formed table: the
    result that the block computes is well-formed and holds the same
    entries; the block returns it unless the allocator refuses the request,
    which it does not for [count + extra <= 2^58]. *)
Lemma reserve_items_core (map : trashmap_t) (extra : Z) :
  rep_inv map -> 0 <= extra -> count map + extra <= 2 ^ 59 ->
  exists map',
    (reserve_items map extra = Done map' \/
     reserve_items map extra = Fault (assertion_failed "out of memory")) /\
    (count map + extra <= 2 ^ 58 -> reserve_items map extra = Done map') /\
    rep_inv map' /\ model map' = model map /\ count map' = count map /\
    slot_count map' = slot_count map /\ slots map' = slots map /\
    count map + extra <= capacity map' /\ capacity map <= capacity map' /\
    (count map + extra <= capacity map -> capacity map' = capacity map) /\
    exists k, items map' = items map ++ replicate k None.
Proof.
  intros I Hextra Hneed. unfold reserve_items.
  pose proof (inv_count _ I) as Hc. pose proof (inv_capacity _ I) as Hcap.
  rewrite (usize_small (count map + extra)) by (pow2; lia).
  destruct (Z.gtb_spec (count map + extra) (capacity map)) as [Hgt|Hle].
  - cbv zeta.
    destruct (grow_capacity_spec (count map) extra ltac:(lia) grow_fuel
                (if capacity map =? 0 then 16 else capacity map))
      as (cap' & -> & Hb & Hge & Hmin).
    + destruct (Z.eqb_spec (capacity map) 0); pow2; lia.
    + assert (2 ^ 59 <= 1 * 2 ^ Z.of_nat grow_fuel) by done.
      assert (0 < 2 ^ Z.of_nat grow_fuel) by done.
      destruct (Z.eqb_spec (capacity map) 0); nia.
    + cbn [obind].
      assert (capacity map <= cap' < 2 ^ 60) as Hcap'.
      { destruct (Z.eqb_spec (capacity map) 0); lia. }
      assert (1 <= cap') as Hpos
        by (destruct (Z.eqb_spec (capacity map) 0); lia).
      rewrite (realloc_grow map cap' (inv_items_len _ I) Hcap' Hpos).
      destruct (rep_inv_grow map cap' I Hcap') as (Hmodel & I').
      eexists. split_and!; [| |exact I'|..]; simpl; try done; try lia.
      * destruct (cap' * sizeof_item >? PTRDIFF_MAX); [by right|by left].
      * intros Hsmall.
        destruct (Z.gtb_spec (cap' * sizeof_item) PTRDIFF_MAX) as [Hbig|];
          [|done].
        exfalso. destruct (Z.eqb_spec (capacity map) 0); pow2; lia.
      * eauto.
  - exists map. split_and!; try done; try lia; [by left|].
    exists 0%nat. by rewrite app_nil_r.
Qed.

Lemma reserve_slots_core (map : trashmap_t) (extra : Z) :
  rep_inv map -> 0 <= extra -> count map + extra <= 2 ^ 59 ->
  exists map',
    (reserve_slots map extra = Done map' \/
     reserve_slots map extra = Fault undefined_behaviour) /\
    (count map + extra <= 2 ^ 58 -> reserve_slots map extra = Done map') /\
    rep_inv map' /\ model map' = model map /\ count map' = count map /\
    capacity map' = capacity map /\ items map' = items map /\
    (1 <= extra -> count map + 1 <= slot_count map' * 3 / 4) /\
    (if count map + extra >? slot_count map * 3 / 4
     then slot_count map' = slot_count map * 2
     else slot_count map' = slot_count map /\ slots map' = slots map).
Proof.
  intros I Hextra Hneed. unfold reserve_slots.
  pose proof (inv_count _ I) as Hc. pose proof (inv_slot_count _ I) as Hsc.
  pose proof (inv_load _ I) as Hload.
  rewrite (usize_small (count map + extra)) by (pow2; lia).
  rewrite (usize_small (slot_count map * 3)) by (pow2; lia).
  destruct (Z.gtb_spec (count map + extra) (slot_count map * 3 / 4)) as [Hgt|Hle].
  - assert (slot_count map * 2 < 2 ^ 61) as Hsc2.
    { assert (slot_count map * 3 / 4 < 2 ^ 59) as Hq by lia.
      pow2. Z.div_mod_to_equations. lia. }
    rewrite (usize_small (slot_count map * 2)) by (pow2; lia).
    rewrite (usize_small (slot_count map * 2 * sizeof_slot)) by (pow2; lia).
    cbv zeta. rewrite memset_alloc_fresh by lia.
    destruct (rep_inv_rehash map I Hsc2) as (nl & Hrehash & I2).
    exists (mk_map nl (items map) (slot_count map * 2) (count map)
              (capacity map)).
    split_and!; [| |exact I2|..]; simpl; try done.
    + destruct (slot_count map * 2 * sizeof_slot >? PTRDIFF_MAX);
        [by right|left]. cbn [obind]. by rewrite Hrehash.
    + intros Hsmall.
      destruct (Z.gtb_spec (slot_count map * 2 * sizeof_slot) PTRDIFF_MAX)
        as [Hbig|].
      { exfalso. assert (slot_count map * 3 / 4 < 2 ^ 58) as Hq by lia.
        pow2. Z.div_mod_to_equations. lia. }
      cbn [obind]. by rewrite Hrehash.
    + intros _. pow2. Z.div_mod_to_equations. lia.
  - exists map. split_and!; try done; try lia. by left.
Qed.

Lemma trashmap_reserve_core (map : trashmap_t) (extra : Z) :
  rep_inv map -> 0 <= extra -> count map + extra <= 2 ^ 59 ->
  exists map',
    (trashmap_reserve map extra = Done map' \/
     trashmap_reserve map extra = Fault (assertion_failed "out of memory") \/
     trashmap_reserve map extra = Fault undefined_behaviour) /\
    (count map + extra <= 2 ^ 58 -> trashmap_reserve map extra = Done map') /\
    rep_inv map' /\
    model map' = model map /\
    count map' = count map /\
    count map + extra <= capacity map' /\
    capacity map <= capacity map' /\
    (count map + extra <= capacity map -> capacity map' = capacity map) /\
    (exists k, items map' = items map ++ replicate k None) /\
    (1 <= extra -> count map + 1 <= slot_count map' * 3 / 4) /\
    (if count map + extra >? slot_count map * 3 / 4
     then slot_count map' = slot_count map * 2
     else slot_count map' = slot_count map /\ slots map' = slots map).
Proof.
  intros I Hextra Hneed. unfold trashmap_reserve.
  destruct (reserve_items_core map extra I Hextra Hneed)
    as (map1 & Hrun1 & Htot1 & I1 & Hm1 & Hc1 & Hsc1 & Hsl1 & Hroom & Hmono
        & Hsame & Hitems).
  destruct (reserve_slots_core map1 extra I1 Hextra ltac:(lia))
    as (map2 & Hrun2 & Htot2 & I2 & Hm2 & Hc2 & Hcap2 & Hit2 & Hload2 & Hsc2).
  exists map2. rewrite Hc1, Hsc1, Hsl1 in *.
  split_and!; try done; try congruence; try lia.
  - destruct Hrun1 as [-> | ->]; simpl; [|by right; left].
    destruct Hrun2 as [-> | ->]; [by left|by right; right].
  - intros Hsmall. rewrite (Htot1 Hsmall). simpl. by apply Htot2.
  - by rewrite Hit2.
Qed.

Lemma reserve_items_spec (map : trashmap_t) (extra : Z) :
  rep_inv map -> 0 <= extra -> count map + extra <= 2 ^ 58 ->
  exists map',
    reserve_items map extra = Done map' /\
    rep_inv map' /\ model map' = model map /\ count map' = count map /\
    slot_count map' = slot_count map /\ slots map' = slots map /\
    count map + extra <= capacity map' /\ capacity map <= capacity map' /\
    (count map + extra <= capacity map -> capacity map' = capacity map) /\
    exists k, items map' = items map ++ replicate k None.
Proof.
  intros I Hextra Hneed.
  destruct (reserve_items_core map extra I Hextra ltac:(pow2; lia))
    as (map' & _ & Htot & H).
  exists map'. split; [by apply Htot|done].
Qed.

Lemma reserve_slots_spec (map : trashmap_t) (extra : Z) :
  rep_inv map -> 0 <= extra -> count map + extra <= 2 ^ 58 ->
  exists map',
    reserve_slots map extra = Done map' /\
    rep_inv map' /\ model map' = model map /\ count map' = count map /\
    capacity map' = capacity map /\ items map' = items map /\
    (1 <= extra -> count map + 1 <= slot_count map' * 3 / 4) /\
    (if count map + extra >? slot_count map * 3 / 4
     then slot_count map' = slot_count map * 2
     else slot_count map' = slot_count map /\ slots map' = slots map).
Proof.
  intros I Hextra Hneed.
  destruct (reserve_slots_core map extra I Hextra ltac:(pow2; lia))
    as (map' & _ & Htot & H).
  exists map'. split; [by apply Htot|done].
Qed.

Lemma trashmap_reserve_spec (map : trashmap_t) (extra : Z) :
  rep_inv map -> 0 <= extra -> count map + extra <= 2 ^ 58 ->
  exists map',
    trashmap_reserve map extra = Done map' /\
    rep_inv map' /\
    model map' = model map /\
    count map' = count map /\
    count map + extra <= capacity map' /\
    capacity map <= capacity map' /\
    (count map + extra <= capacity map -> capacity map' = capacity map) /\
    (exists k, items map' = items map ++ replicate k None) /\
    (1 <= extra -> count map + 1 <= slot_count map' * 3 / 4) /\
    (if count map + extra >? slot_count map * 3 / 4
     then slot_count map' = slot_count map * 2
     else slot_count map' = slot_count map /\ slots map' = slots map).
Proof.
  intros I Hextra Hneed.
  destruct (trashmap_reserve_core map extra I Hextra ltac:(pow2; lia))
    as (map' & _ & Htot & H).
  exists map'. split; [by apply Htot|done].
Qed.

(** When [trashmap_reserve] returns, what it returns is that result. *)
Lemma trashmap_reserve_Done (map map' : trashmap_t) (extra : Z) :
  rep_inv map -> 0 <= extra -> count map + extra <= 2 ^ 59 ->
  trashmap_reserve map extra = Done map' ->
  rep_inv map' /\
  model map' = model map /\
  count map' = count map /\
  count map + extra <= capacity map' /\
  capacity map <= capacity map' /\
  (count map + extra <= capacity map -> capacity map' = capacity map) /\
  (exists k, items map' = items map ++ replicate k None) /\
  (1 <= extra -> count map + 1 <= slot_count map' * 3 / 4) /\
  (if count map + extra >? slot_count map * 3 / 4
   then slot_count map' = slot_count map * 2
   else slot_count map' = slot_count map /\ slots map' = slots map).
Proof.
  intros I Hextra Hneed Hrun.
  destruct (trashmap_reserve_core map extra I Hextra Hneed)
    as (m & Hcases & _ & H).
  destruct Hcases as [Hd|[Hf|Hf]]; rewrite Hrun in *; [|done..].
  by injection Hd as <-.
Qed.

(** ** trashmap_set on a well-formed table *)

Lemma trashmap_set_spec (map : trashmap_t) (key : cstring) (value : ptr) :
  rep_inv map ->
  exists map',
    trashmap_set map key value = Done map' /\
    model map' = model_set (model map) key value /\
    (count map < UINT32_MAX -> rep_inv map') /\
    match model_get (model map) (chars key) with
    | Some it =>
        rep_inv map' /\ count map' = count map /\
        exists i k, model map !! i = Some it /\
          items map' =
            <[i := Some (mk_item (Item.key it) value)]>
              (items map ++ replicate k None)
    | None => count map' = count map + 1
    end /\
    (count map + 1 <= capacity map -> capacity map' = capacity map) /\
    (count map + 1 <= slot_count map * 3 / 4 ->
     slot_count map' = slot_count map).
Proof.
  intros I. pose proof (inv_count _ I) as Hc.
  unfold trashmap_set.
  destruct (trashmap_reserve_spec map 1 I ltac:(lia) ltac:(pow2; lia))
    as (map1 & -> & I1 & Hm1 & Hc1 & Hroom & Hmono & Hsame & (k & Hitems)
        & Hload1 & Hsc1).
  simpl. pose proof (inv_slot_count _ I1) as Hsc.
  destruct (Z.eqb_spec (slot_count map1) 0) as [|_]; [lia|].
  destruct (set_loop_spec map1 key value I1 ltac:(lia))
    as (map2 & -> & Hm2 & Hsc2 & Hcap2 & Hlen2 & Hcase).
  exists map2. rewrite Hm1 in Hm2, Hcase.
  split_and!; try done.
  - destruct (model_get (model map) (chars key)) as [it|].
    + by destruct Hcase as (i & _ & _ & _ & I2 & _).
    + destruct Hcase as (Hc2 & _ & I2). intros Hmax. apply I2; lia.
  - destruct (model_get (model map) (chars key)) as [it|].
    + destruct Hcase as (i & Hi & _ & Hc2 & I2 & Hit2).
      split; [done|]. split; [lia|]. exists i, k. by rewrite Hit2, Hitems.
    + destruct Hcase as (Hc2 & _). lia.
  - intros H. rewrite Hcap2. by apply Hsame.
  - intros H. rewrite Hsc2.
    destruct (Z.gtb_spec (count map + 1) (slot_count map * 3 / 4)); [lia|].
    by destruct Hsc1.
Qed.

(** ** Lookups in the abstract view *)

Lemma same_key_trans (k1 k2 : cstring) (it : trashmap_item_t) :
  same_key (chars k1) it = true -> same_key (chars k2) it = true ->
  String.eqb (c_str (chars k1)) (c_str (chars k2)) = true.
Proof.
  rewrite !same_key_spec, String.eqb_eq. congruence.
Qed.

Lemma model_get_set (its : list trashmap_item_t) (key : cstring) (value : ptr)
    (k : string) :
  model_get (model_set its key value) k =
  if String.eqb (c_str k) (c_str (chars key)) then
    Some (mk_item
            (match model_get its (chars key) with
             | Some it => Item.key it
             | None => key
             end) value)
  else model_get its k.
Proof.
  unfold model_get. induction its as [|a its IH]; simpl.
  - unfold same_key at 1. simpl. by destruct (c_str k =? c_str (chars key))%string.
  - destruct (same_key (chars key) a) eqn:Ha; simpl.
    + unfold same_key at 1. simpl. fold (same_key k a).
      destruct (String.eqb_spec (c_str k) (c_str (chars key))) as [Heq|Hne].
      * apply same_key_spec in Ha.
        assert (same_key k a = true) as -> by (apply same_key_spec; congruence).
        done.
      * destruct (same_key k a) eqn:Hka; [|done].
        apply same_key_spec in Ha, Hka. congruence.
    + destruct (same_key k a) eqn:Hka.
      * destruct (String.eqb_spec (c_str k) (c_str (chars key))) as [Heq|Hne]; [|done].
        apply same_key_spec in Hka. apply not_true_iff_false in Ha.
        destruct Ha. apply same_key_spec. congruence.
      * apply IH.
Qed.

Lemma model_value_set (its : list trashmap_item_t) (key : cstring) (value : ptr)
    (k : string) :
  model_value (model_set its key value) k =
  if String.eqb (c_str k) (c_str (chars key)) then value else model_value its k.
Proof.
  unfold model_value. rewrite model_get_set.
  by destruct (c_str k =? c_str (chars key))%string.
Qed.

Lemma model_has_set (its : list trashmap_item_t) (key : cstring) (value : ptr)
    (k : string) :
  model_has (model_set its key value) k =
  if String.eqb (c_str k) (c_str (chars key)) then true else model_has its k.
Proof.
  unfold model_has. rewrite model_get_set.
  by destruct (c_str k =? c_str (chars key))%string.
Qed.

Lemma model_value_set_all (kvs : list (cstring * ptr))
    (its : list trashmap_item_t) (k : string) :
  model_value (model_set_all its kvs) k =
  match last_set kvs k with
  | Some v => v
  | None => model_value its k
  end.
Proof.
  revert its. induction kvs as [|[k' v] kvs IH]; intros its; [done|].
  simpl. unfold model_set_all in *. simpl. rewrite IH.
  destruct (last_set kvs k); [done|]. simpl. rewrite model_value_set.
  by destruct (c_str k =? c_str (chars k'))%string.
Qed.

Lemma model_has_set_all (kvs : list (cstring * ptr))
    (its : list trashmap_item_t) (k : string) :
  model_has (model_set_all its kvs) k =
  match last_set kvs k with
  | Some _ => true
  | None => model_has its k
  end.
Proof.
  revert its. induction kvs as [|[k' v] kvs IH]; intros its; [done|].
  simpl. unfold model_set_all in *. simpl. rewrite IH.
  destruct (last_set kvs k); [done|]. simpl. rewrite model_has_set.
  by destruct (c_str k =? c_str (chars k'))%string.
Qed.

(** The keys for which [last_set] has a value are the keys that were set. *)
Lemma last_set_is_Some (kvs : list (cstring * ptr)) (k : string) :
  is_Some (last_set kvs k) <->
  exists k' v, (k', v) ∈ kvs /\ c_str k = c_str (chars k').
Proof.
  induction kvs as [|[k' v] kvs IH]; simpl.
  - split; [by intros [? ?]|]. intros (? & ? & H & _). by apply elem_of_nil in H.
  - destruct (last_set kvs k) as [v'|].
    + split; [|eauto]. intros _.
      destruct (proj1 IH ltac:(eauto)) as (k1 & v1 & Hin & Heq).
      exists k1, v1. split; [|done]. apply elem_of_cons. by right.
    + destruct (String.eqb_spec (c_str k) (c_str (chars k'))) as [Heq|Hne].
      * split; [|eauto]. intros _. exists k', v. split; [|done].
        apply elem_of_cons. by left.
      * split; [by intros [? ?]|]. intros (k1 & v1 & Hin & Heq).
        apply elem_of_cons in Hin as [[= -> ->]|Hin]; [done|].
        apply IH. eauto.
Qed.

(** With distinct keys the last value set for a key is the one value set
    for it. *)
Lemma last_set_distinct (kvs : list (cstring * ptr)) (k : cstring) (v : ptr) :
  NoDup ((fun kv => c_str (chars (fst kv))) <$> kvs) -> (k, v) ∈ kvs ->
  last_set kvs (chars k) = Some v.
Proof.
  induction kvs as [|[k' v'] kvs IH]; intros Hnd Hin.
  - by apply elem_of_nil in Hin.
  - simpl in *. apply NoDup_cons in Hnd as [Hnotin Hnd].
    apply elem_of_cons in Hin as [[= <- <-]|Hin].
    + destruct (last_set kvs (chars k)) as [v1|] eqn:E.
      * destruct Hnotin.
        destruct (proj1 (last_set_is_Some kvs (chars k)) ltac:(eauto))
          as (k1 & v1' & Hin1 & Heq). rewrite Heq.
        by apply (list_elem_of_fmap_2 (fun kv => c_str (chars kv.1)) _ (k1, v1')).
      * by rewrite String.eqb_refl.
    + by rewrite IH.
Qed.

(** ** Sequences of sets *)

Lemma set_all_spec (kvs : list (cstring * ptr)) (map : trashmap_t) :
  rep_inv map -> count map + Z.of_nat (length kvs) <= UINT32_MAX ->
  exists map',
    set_all map kvs = Done map' /\ rep_inv map' /\
    model map' = model_set_all (model map) kvs /\
    count map' <= count map + Z.of_nat (length kvs).
Proof.
  revert map. induction kvs as [|[k v] kvs IH]; intros map I Hlen.
  - exists map. split_and!; try done. simpl. lia.
  - simpl in *.
    destruct (trashmap_set_spec map k v I) as (map1 & -> & Hm1 & I1 & Hcnt & _).
    simpl.
    assert (count map1 <= count map + 1) as Hc1.
    { destruct (model_get (model map) (chars k)); [destruct Hcnt as (_ & ? & _)|]; lia. }
    destruct (IH map1 (I1 ltac:(lia)) ltac:(lia)) as (map2 & -> & I2 & Hm2 & Hc2).
    exists map2. split_and!; try done; [|lia].
    by rewrite Hm2, Hm1.
Qed.

(** ** Runs of the public operations *)

Lemma abstract_run_snoc (ops : list op) (o : op) :
  abstract_run (ops ++ [o]) = abstract_step (abstract_run ops) o.
Proof. unfold abstract_run. by rewrite fold_left_app. Qed.

Lemma model_cleared (sl : list trashmap_slot_t)
    (its : list (option trashmap_item_t)) (sc cap : Z) :
  model (mk_map sl its sc 0 cap) = [].
Proof. reflexivity. Qed.

Lemma reaches_rep_inv (ops : list op) (map : trashmap_t) :
  reaches ops map -> rep_inv map /\ model map = abstract_run ops.
Proof.
  induction 1 as [n map Hn Hinit|ops map o map' Hreach [I Hmodel] Hrange Hstep].
  - destruct (trashmap_init_Done n map Hn Hinit) as (_ & -> & I). done.
  - rewrite abstract_run_snoc, <- Hmodel.
    destruct o as [key value|extra| |key|key]; simpl in *.
    + destruct (trashmap_set_spec map key value I)
        as (map1 & Hrun & Hm1 & I1 & Hcnt & _).
      rewrite Hrun in Hstep. injection Hstep as <-.
      split; [|done]. apply I1.
      done.
    + destruct Hrange as [Hextra Hneed].
      by destruct (trashmap_reserve_Done map map' extra I Hextra Hneed Hstep)
        as (I1 & Hm1 & _).
    + destruct (trashmap_clear_spec map I) as [Hrun I1].
      rewrite Hrun in Hstep. by injection Hstep as <-.
    + destruct (trashmap_get map key); simpl in Hstep; [|done].
      by injection Hstep as <-.
    + destruct (trashmap_has map key); simpl in Hstep; [|done].
      by injection Hstep as <-.
Qed.

(** * Runs with any arguments *)

(** ** Sizes that wrap *)

Lemma usize_range (x : Z) : 0 <= usize x <= SIZE_MAX.
Proof. unfold usize. pose proof (Z.mod_pos_bound x (2 ^ 64)). pow2. lia. Qed.

Lemma usize_le (x : Z) : 0 <= x -> usize x <= x.
Proof. intros H. unfold usize. apply Z.mod_le; [done|]. pow2. lia. Qed.

Lemma u32_le (x : Z) : 0 <= x -> u32 x <= x.
Proof. intros H. unfold u32. apply Z.mod_le; [done|]. pow2. lia. Qed.

(** The byte size of [n] slots, and the cells it pays for. *)
Lemma usize_slot_bytes (n : Z) :
  usize (n * sizeof_slot) = n mod 2 ^ 61 * sizeof_slot.
Proof.
  unfold usize, sizeof_slot. change (2 ^ 64) with (2 ^ 61 * 8).
  by apply Z.mul_mod_distr_r.
Qed.

Lemma pow2_wraps (e : Z) : 64 <= e -> usize (2 ^ e) = 0.
Proof.
  intros He. unfold usize. replace e with ((e - 64) + 64) by lia.
  rewrite Z.pow_add_r by lia. by apply Z.mod_mul.
Qed.

(** A capacity obtained from sixteen by doubling in [size_t] is zero, or a
    power of two whose byte size fits, or a power of two whose byte size
    wraps to zero. *)
Lemma doubled_capacity_cases (k j : nat) :
  usize (16 * 2 ^ Z.of_nat k * 2 ^ Z.of_nat j) = 0 \/
  (usize (16 * 2 ^ Z.of_nat k * 2 ^ Z.of_nat j) = 16 * 2 ^ Z.of_nat (k + j) /\
   16 * 2 ^ Z.of_nat (k + j) < 2 ^ 60) \/
  (usize (16 * 2 ^ Z.of_nat k * 2 ^ Z.of_nat j) = 16 * 2 ^ Z.of_nat (k + j) /\
   usize (16 * 2 ^ Z.of_nat (k + j) * sizeof_item) = 0).
Proof.
  assert (16 * 2 ^ Z.of_nat k * 2 ^ Z.of_nat j = 2 ^ (4 + Z.of_nat (k + j)))
    as Hpow.
  { rewrite Nat2Z.inj_add, !Z.pow_add_r by lia. change (2 ^ 4) with 16. lia. }
  assert (16 * 2 ^ Z.of_nat (k + j) = 2 ^ (4 + Z.of_nat (k + j))) as Hpow'.
  { rewrite Z.pow_add_r by lia. done. }
  rewrite Hpow, Hpow'. set (e := 4 + Z.of_nat (k + j)).
  destruct (Z_lt_le_dec e 60) as [Hlt|Hge].
  - right. left.
    assert (2 ^ e < 2 ^ 60) by (apply Z.pow_lt_mono_r; lia).
    assert (0 < 2 ^ e) by (apply Z.pow_pos_nonneg; lia).
    split; [|done]. apply usize_small. pow2. lia.
  - destruct (Z_lt_le_dec e 64) as [Hlt|Hge'].
    + right. right.
      assert (2 ^ e < 2 ^ 64) by (apply Z.pow_lt_mono_r; lia).
      assert (0 < 2 ^ e) by (apply Z.pow_pos_nonneg; lia).
      split; [apply usize_small; pow2; lia|].
      unfold sizeof_item. change 16 with (2 ^ 4).
      rewrite <- Z.pow_add_r by lia. apply pow2_wraps. lia.
    + left. by apply pow2_wraps.
Qed.

(** ** Which faults a function can end in *)

Lemma write_inv {A : Type} (arr arr' : list A) (i : Z) (x : A) :
  write arr i x = Done arr' ->
  arr' = <[Z.to_nat i := x]> arr /\ i < Z.of_nat (length arr).
Proof.
  unfold write. destruct (Z.leb_spec (Z.of_nat (length arr)) i); [done|].
  intros [= <-]. done.
Qed.

Lemma write_fault {A : Type} (arr : list A) (i : Z) (x : A) (f : fault) :
  write arr i x = Fault f -> f = undefined_behaviour.
Proof. unfold write. destruct (_ <=? _); congruence. Qed.

Lemma trashmap_memset_fault (dest : list trashmap_slot_t) (byte n : Z) (f : fault) :
  trashmap_memset dest byte n = Fault f -> f = undefined_behaviour.
Proof. unfold trashmap_memset. destruct (_ <? _); congruence. Qed.

Lemma grow_capacity_fault (fuel : nat) (count extra cap : Z) (f : fault) :
  grow_capacity fuel count extra cap = Fault f -> f = out_of_fuel.
Proof.
  revert cap. induction fuel as [|fuel IH]; intros cap; simpl;
    destruct (_ >? _); try congruence. apply IH.
Qed.

Lemma rehash_probe_fault (fuel : nat) (nl : list trashmap_slot_t)
    (s : trashmap_slot_t) (nsc start idx : Z) (f : fault) :
  rehash_probe fuel nl s nsc start idx = Fault f -> not_assertion f.
Proof.
  revert idx. induction fuel as [|fuel IH]; intros idx; simpl.
  - intros [= <-]. by right.
  - destruct (read nl idx) as [t|f'] eqn:Er; simpl.
    2:{ intros [= <-]. apply read_fault in Er as ->. by left. }
    destruct (index t =? UINT32_MAX).
    + intros H. apply write_fault in H as ->. by left.
    + destruct (negb (next_idx idx nsc =? start)); [apply IH|done].
Qed.

Lemma rehash_for_fault (todo : nat) (map : trashmap_t)
    (nl : list trashmap_slot_t) (nsc k : Z) (f : fault) :
  rehash_for todo map nl nsc k = Fault f -> not_assertion f.
Proof.
  revert nl k. induction todo as [|todo IH]; intros nl k; simpl; [done|].
  destruct (read (slots map) k) as [s|f'] eqn:Er; simpl.
  2:{ intros [= <-]. apply read_fault in Er as ->. by left. }
  destruct (index s =? UINT32_MAX); [apply IH|].
  destruct (nsc =? 0); [intros [= <-]; by left|].
  destruct (rehash_probe _ _ _ _ _ _) as [nl'|f'] eqn:Ep; simpl; [apply IH|].
  intros [= <-]. by apply rehash_probe_fault in Ep.
Qed.

Lemma probe_fault (fuel : nat) (map : trashmap_t) (key : cstring)
    (h start idx : Z) (f : fault) :
  probe fuel map key h start idx = Fault f -> not_assertion f.
Proof.
  revert idx. induction fuel as [|fuel IH]; intros idx; simpl.
  - intros [= <-]. by right.
  - destruct (read (slots map) idx) as [s|f'] eqn:Er; simpl.
    2:{ intros [= <-]. apply read_fault in Er as ->. by left. }
    destruct (index s =? UINT32_MAX); [done|].
    destruct (key_matches map key h (hash s) (index s)) as [[]|f'] eqn:Ek; simpl.
    + destruct (read_item (items map) (index s)) as [it|f'] eqn:Ei; simpl; [done|].
      intros [= <-]. apply read_item_fault in Ei as ->. by left.
    + destruct (negb (next_idx idx (slot_count map) =? start)); [apply IH|done].
    + intros [= <-]. apply key_matches_fault in Ek as ->. by left.
Qed.

(** ** The invariant of all runs: init and clear *)

Lemma count_occupied_insert_le (sl : list trashmap_slot_t) (p : nat)
    (s : trashmap_slot_t) :
  (count_occupied (<[p := s]> sl) <= S (count_occupied sl))%nat.
Proof.
  revert p. induction sl as [|a sl IH]; intros p; [vm_compute; lia|].
  destruct p as [|p]; simpl.
  - rewrite !count_occupied_cons. destruct (occupied s), (occupied a); lia.
  - rewrite !count_occupied_cons. specialize (IH p).
    destruct (occupied a); lia.
Qed.

Lemma count_occupied_insert_empty (sl : list trashmap_slot_t) (p : nat)
    (s : trashmap_slot_t) :
  occupied s = false ->
  (count_occupied (<[p := s]> sl) <= count_occupied sl)%nat.
Proof.
  intros Hs. revert p. induction sl as [|a sl IH]; intros p; [done|].
  destruct p as [|p]; simpl.
  - rewrite !count_occupied_cons, Hs. destruct (occupied a); lia.
  - rewrite !count_occupied_cons. specialize (IH p).
    destruct (occupied a); lia.
Qed.

Lemma fresh_slots (n : Z) (r : option (list trashmap_slot_t)) :
  0 <= n ->
  memset_alloc (TRASHMAP_ALLOC (usize (n * sizeof_slot))) 255
    (usize (n * sizeof_slot)) = Done r ->
  r = Some (replicate (Z.to_nat (n mod 2 ^ 61)) empty_slot).
Proof.
  intros Hn. rewrite usize_slot_bytes.
  pose proof (Z.mod_pos_bound n (2 ^ 61) ltac:(done)) as Hm.
  rewrite memset_alloc_fresh by lia.
  destruct (_ >? _); [done|]. by intros [= <-].
Qed.

Lemma memset_alloc_fault (dest : option (list trashmap_slot_t)) (byte n : Z)
    (f : fault) :
  memset_alloc dest byte n = Fault f -> f = undefined_behaviour.
Proof.
  unfold memset_alloc. destruct dest as [d|].
  - destruct (trashmap_memset d byte n) as [|f'] eqn:Hm; simpl; [done|].
    intros [= <-]. by apply trashmap_memset_fault in Hm.
  - destruct (n =? 0); congruence.
Qed.

Lemma weak_inv_fresh (n count cap : Z) (its : list (option trashmap_item_t)) :
  1 <= n <= SIZE_MAX -> count = 0 -> 0 <= cap <= SIZE_MAX ->
  (cap = 0 \/ exists k : nat, cap = 16 * 2 ^ Z.of_nat k) ->
  weak_inv (mk_map (replicate (Z.to_nat (n mod 2 ^ 61)) empty_slot) its n count cap).
Proof.
  intros Hn -> Hcap Hshape.
  pose proof (Z.mod_pos_bound n (2 ^ 61) ltac:(done)) as Hm.
  split; simpl; try done; try lia.
  - apply Z.div_le_lower_bound; lia.
  - rewrite length_replicate. lia.
  - intros p s Hp Hocc. apply lookup_replicate in Hp as [-> _]. done.
  - rewrite count_occupied_replicate; done.
Qed.

Lemma weak_inv_init (n : Z) (map : trashmap_t) :
  1 <= n <= SIZE_MAX -> trashmap_init n = Done map -> weak_inv map.
Proof.
  intros Hn. unfold trashmap_init.
  destruct (Z.eqb_spec n 0) as [|_]; [lia|]. cbv zeta.
  destruct (memset_alloc _ _ _) as [r|] eqn:Hr; cbn [obind]; [|done].
  apply fresh_slots in Hr as ->; [|lia]. intros [= <-].
  apply weak_inv_fresh; try done. by left.
Qed.

Lemma weak_inv_clear (map map' : trashmap_t) :
  weak_inv map -> trashmap_clear map = Done map' -> weak_inv map'.
Proof.
  intros W. unfold trashmap_clear.
  pose proof (w_slot_count _ W) as Hsc. pose proof (w_count _ W).
  pose proof (w_capacity _ W).
  rewrite usize_slot_bytes.
  pose proof (Z.mod_pos_bound (slot_count map) (2 ^ 61) ltac:(done)) as Hm.
  rewrite trashmap_memset_all, filled_slot_255; [|lia|apply (w_slots_len _ W)].
  simpl. intros [= <-].
  apply weak_inv_fresh; try done; [lia|]. apply (w_capacity_shape _ W).
Qed.

(** ** The arena block of reserve *)

Lemma grow_capacity_shape (count extra : Z) (fuel : nat) (cap cap' : Z) :
  0 <= cap <= SIZE_MAX ->
  grow_capacity fuel count extra cap = Done cap' ->
  usize (count + extra) <= cap' /\
  exists j : nat, cap' = usize (cap * 2 ^ Z.of_nat j).
Proof.
  revert cap. induction fuel as [|fuel IH]; intros cap Hcap; simpl;
    destruct (Z.gtb_spec (usize (count + extra)) cap) as [Hgt|Hle]; try done.
  - intros [= <-]. split; [done|]. exists 0%nat.
    rewrite Z.mul_1_r, usize_small; [done|]. pow2. lia.
  - intros Hrun. destruct (IH _ (usize_range _) Hrun) as (Hneed & j & Hj).
    split; [done|]. exists (S j). rewrite Hj. unfold usize.
    rewrite Zmult_mod_idemp_l. f_equal.
    rewrite Nat2Z.inj_succ, Z.pow_succ_r by lia. lia.
  - intros [= <-]. split; [done|]. exists 0%nat.
    rewrite Z.mul_1_r, usize_small; [done|]. pow2. lia.
Qed.

Lemma weak_inv_reserve_items (map map' : trashmap_t) (extra : Z) :
  weak_inv map -> reserve_items map extra = Done map' ->
  weak_inv map' /\ usize (count map + extra) <= capacity map' /\
  count map' = count map /\ slot_count map' = slot_count map /\
  slots map' = slots map.
Proof.
  intros W. unfold reserve_items.
  pose proof (w_count _ W) as Hc. pose proof (w_capacity _ W) as Hcap.
  destruct (Z.gtb_spec (usize (count map + extra)) (capacity map)) as [Hgt|Hle].
  2:{ intros [= <-]. done. }
  cbv zeta.
  destruct (grow_capacity grow_fuel (count map) extra
              (if capacity map =? 0 then 16 else capacity map))
    as [cap'|] eqn:Hgrow; [|done].
  cbn [obind].
  assert (exists k : nat,
    (if capacity map =? 0 then 16 else capacity map) = 16 * 2 ^ Z.of_nat k)
    as [k Hk].
  { destruct (Z.eqb_spec (capacity map) 0) as [|Hne]; [by exists 0%nat|].
    by destruct (w_capacity_shape _ W). }
  apply grow_capacity_shape in Hgrow as (Hneed & j & Hj).
  2:{ destruct (Z.eqb_spec (capacity map) 0); pow2; lia. }
  rewrite Hk in Hj.
  destruct (TRASHMAP_REALLOC (items_pointer map) (usize (cap' * sizeof_item)))
    as [its|] eqn:Hre; [|done].
  intros [= <-]. simpl. split_and!; try done.
  assert (capacity map <> 0 ->
          its = take (Z.to_nat (usize (cap' * sizeof_item) / sizeof_item))
                  (items map) ++
                replicate (Z.to_nat (usize (cap' * sizeof_item) / sizeof_item)
                           - length (items map))%nat None /\
          usize (cap' * sizeof_item) <> 0) as Hits.
  { intros Hnz. unfold TRASHMAP_REALLOC, items_pointer in Hre.
    destruct (_ >? PTRDIFF_MAX); [done|].
    destruct (Z.eqb_spec (capacity map) 0); [done|].
    destruct (Z.eqb_spec (usize (cap' * sizeof_item)) 0); [done|].
    by injection Hre as <-. }
  destruct (doubled_capacity_cases k j) as [H0|[[Heq Hlt]|[Heq Hwrap]]];
    rewrite <- Hj in *.
  - lia.
  - assert (0 < cap') as Hpos.
    { rewrite Heq. pose proof (Z.pow_pos_nonneg 2 (Z.of_nat (k + j))). lia. }
    destruct W as [Hsc _ _ _ Hload Hsl Hidx Hocc Hlive Hbig].
    split; simpl; try done; try (pow2; lia).
    + right. by exists (k + j)%nat.
    + intros i Hi. destruct (Hlive i Hi) as [it Hit]. exists it.
      pose proof (lookup_lt_Some _ _ _ Hit).
      destruct Hits as [-> _]; [lia|].
      rewrite (usize_small (cap' * sizeof_item)) by (pow2; lia).
      unfold sizeof_item. rewrite Z.div_mul by done.
      rewrite lookup_app_l by (rewrite length_take; lia).
      rewrite lookup_take_lt by lia. done.
  - rewrite <- Heq in Hwrap.
    destruct (Z.eqb_spec (capacity map) 0) as [Hzero|Hnz].
    2:{ destruct (Hits Hnz) as [_ Hne]. done. }
    pose proof (usize_range (16 * 2 ^ Z.of_nat k * 2 ^ Z.of_nat j)).
    destruct W as [Hsc _ _ _ Hload Hsl Hidx Hocc Hlive Hbig].
    split; simpl; try done; try lia.
    right. by exists (k + j)%nat.
Qed.

(** ** The slot block of reserve *)

Lemma rehash_probe_inv (fuel : nat) (nl nl' : list trashmap_slot_t)
    (s : trashmap_slot_t) (nsc start idx : Z) :
  rehash_probe fuel nl s nsc start idx = Done nl' ->
  length nl' = length nl /\
  (count_occupied nl' <= S (count_occupied nl))%nat /\
  (forall p t, nl' !! p = Some t -> occupied t = true ->
     nl !! p = Some t \/ t = s).
Proof.
  revert idx. induction fuel as [|fuel IH]; intros idx; simpl; [done|].
  destruct (read nl idx) as [t|]; simpl; [|done].
  destruct (index t =? UINT32_MAX).
  - intros Hw. apply write_inv in Hw as [-> _].
    split_and!; [apply length_insert|apply count_occupied_insert_le|].
    intros p u Hp _. apply list_lookup_insert_Some in Hp as [(_ & -> & _)|[_ Hp]];
      [by right|by left].
  - destruct (negb (next_idx idx nsc =? start)); [apply IH|].
    intros [= <-]. split_and!; [done|lia|]. intros p u Hp _. by left.
Qed.

Lemma rehash_for_inv (map : trashmap_t) (nsc : Z) (todo k : nat)
    (nl nl' : list trashmap_slot_t) :
  rehash_for todo map nl nsc (Z.of_nat k) = Done nl' ->
  ((0 < todo)%nat -> (k + todo <= length (slots map))%nat) /\
  length nl' = length nl /\
  (count_occupied nl' <=
     count_occupied nl + count_occupied (drop k (slots map)))%nat /\
  (forall p t, nl' !! p = Some t -> occupied t = true ->
     nl !! p = Some t \/ t ∈ slots map).
Proof.
  revert k nl. induction todo as [|todo IH]; intros k nl; simpl.
  - intros [= <-]. split_and!; [lia|done|lia|]. intros p t Hp _. by left.
  - destruct (read (slots map) (Z.of_nat k)) as [s|] eqn:Er; simpl; [|done].
    apply read_inv in Er. rewrite Nat2Z.id in Er.
    pose proof (lookup_lt_Some _ _ _ Er) as Hk.
    rewrite (drop_S _ _ _ Er), count_occupied_cons.
    replace (Z.of_nat k + 1) with (Z.of_nat (S k)) by lia.
    destruct (index s =? UINT32_MAX) eqn:Hidx.
    + intros Hrun. destruct (IH _ _ Hrun) as (Hlen & Hl & Hc & Hfrom).
      assert (occupied s = false) as -> by (unfold occupied; by rewrite Hidx).
      split_and!; [lia|done|lia|done].
    + destruct (nsc =? 0); [done|].
      destruct (rehash_probe _ _ _ _ _ _) as [nl1|] eqn:Ep; simpl; [|done].
      apply rehash_probe_inv in Ep as (Hl1 & Hc1 & Hfrom1).
      intros Hrun. destruct (IH _ _ Hrun) as (Hlen & Hl & Hc & Hfrom).
      assert (occupied s = true) as -> by (unfold occupied; by rewrite Hidx).
      split_and!; [lia|congruence|lia|].
      intros p t Hp Hocc. destruct (Hfrom p t Hp Hocc) as [Hp1|Hin]; [|by right].
      destruct (Hfrom1 p t Hp1 Hocc) as [Hp0| ->]; [by left|].
      right. by apply list_elem_of_lookup_2 in Er.
Qed.

Lemma weak_inv_reserve_slots (map map' : trashmap_t) (extra : Z) :
  weak_inv map -> reserve_slots map extra = Done map' ->
  weak_inv map' /\ count map' = count map /\ capacity map' = capacity map /\
  (usize (count map + extra) <= slot_count map' * 3 / 4 \/
   slot_count map' = slot_count map * 2).
Proof.
  intros W. unfold reserve_slots.
  pose proof (w_slot_count _ W) as Hsc. pose proof (w_load _ W) as Hload.
  destruct (Z.gtb_spec (usize (count map + extra))
              (usize (slot_count map * 3) / 4)) as [Hgt|Hle].
  2:{ intros [= <-]. split_and!; try done. left.
      assert (usize (slot_count map * 3) / 4 <= slot_count map * 3 / 4); [|lia].
      apply Z.div_le_mono; [lia|]. apply usize_le. lia. }
  cbv zeta.
  destruct (memset_alloc _ _ _) as [r|] eqn:Hr; cbn [obind]; [|done].
  apply fresh_slots in Hr as ->; [|apply usize_range].
  destruct (rehash_for _ _ _ _ _) as [nl|] eqn:Hrun; [|done].
  cbn [obind]. intros [= <-]. simpl.
  apply (rehash_for_inv map _ _ 0%nat) in Hrun as (Hlen & Hl & Hc & Hfrom).
  rewrite drop_0 in Hc. rewrite count_occupied_replicate in Hc by done.
  rewrite length_replicate in Hl.
  pose proof (w_slots_len _ W) as Hsl.
  pose proof (Z.mod_pos_bound (slot_count map) (2 ^ 61) ltac:(done)) as Hm.
  assert (slot_count map < 2 ^ 61) as Hsmall by lia.
  assert (usize (slot_count map * 2) = slot_count map * 2) as Hdouble
    by (apply usize_small; pow2; lia).
  rewrite Hdouble in *.
  pose proof (Z.mod_pos_bound (slot_count map * 2) (2 ^ 61) ltac:(done)) as Hm2.
  split_and!; try done; [|by right].
  destruct W as [_ Hcount Hcap Hshape _ _ Hidx Hocc Hlive Hbig].
  split; simpl; try done.
  - pow2. lia.
  - assert (slot_count map * 3 / 4 <= slot_count map * 2 * 3 / 4); [|lia].
    apply Z.div_le_mono; lia.
  - lia.
  - intros p t Hp Ht. destruct (Hfrom p t Hp Ht) as [Hp0|Hin].
    + apply lookup_replicate in Hp0 as [-> _]. done.
    + apply list_elem_of_lookup in Hin as [q Hq]. by apply (Hidx q).
  - lia.
  - intros Hover. specialize (Hbig Hover). lia.
Qed.

Lemma weak_inv_reserve (map map' : trashmap_t) (extra : Z) :
  weak_inv map -> trashmap_reserve map extra = Done map' ->
  weak_inv map' /\ count map' = count map /\
  usize (count map + extra) <= capacity map' /\
  (usize (count map + extra) <= slot_count map' * 3 / 4 \/
   slot_count map' = slot_count map * 2).
Proof.
  intros W. unfold trashmap_reserve.
  destruct (reserve_items map extra) as [map1|] eqn:H1; simpl; [|done].
  apply weak_inv_reserve_items in H1 as (W1 & Hroom & Hc1 & Hsc1 & _); [|done].
  intros H2.
  apply weak_inv_reserve_slots in H2 as (W2 & Hc2 & Hcap2 & Hload); [|done].
  rewrite Hc1, Hsc1 in *. split_and!; try done; congruence.
Qed.

(** ** Set *)

Lemma weak_inv_set_room (map map1 : trashmap_t) :
  weak_inv map -> trashmap_reserve map 1 = Done map1 ->
  weak_inv map1 /\ count map1 = count map /\
  count map + 1 <= capacity map1 /\ count map + 1 <= slot_count map1 * 3 / 4.
Proof.
  intros W Hrun. pose proof (w_load _ W) as Hload.
  pose proof (w_slot_count _ W) as Hsc. pose proof (w_count _ W) as Hc.
  apply weak_inv_reserve in Hrun as (W1 & Hc1 & Hroom & Hload1); [|done].
  assert (slot_count map * 3 / 4 < slot_count map) as Hlt
    by (apply Z.div_lt_upper_bound; lia).
  rewrite (usize_small (count map + 1)) in * by (pow2; lia).
  split_and!; try done.
  destruct Hload1 as [|Heq]; [done|]. rewrite Heq.
  pow2. Z.div_mod_to_equations. lia.
Qed.

Lemma weak_inv_set_end (map map' : trashmap_t) (key : cstring) (value : ptr)
    (h : Z) (r : probe_result) :
  weak_inv map -> count map + 1 <= capacity map ->
  count map + 1 <= slot_count map * 3 / 4 ->
  set_of_probe map key value h r = Done map' -> weak_inv map'.
Proof.
  intros W Hroom Hload. pose proof (w_count _ W) as Hc.
  pose proof (w_capacity _ W) as Hcap.
  destruct W as [Hsc _ _ Hshape _ Hsl Hidx Hocc Hlive Hbig].
  destruct r as [idx bidx it|idx|]; simpl; [| |done].
  - destruct (write (items map) bidx _) as [items'|] eqn:Hw; simpl; [|done].
    apply write_inv in Hw as [-> _]. intros [= <-].
    split; simpl; try done; [lia|].
    intros i Hi. destruct (Hlive i Hi) as [it0 Hit0].
    destruct (decide (Z.to_nat bidx = i)) as [<-|Hne].
    + rewrite list_lookup_insert_eq by (by eapply lookup_lt_Some). eauto.
    + rewrite list_lookup_insert_ne by done. eauto.
  - destruct (write (items map) (count map) _) as [items'|] eqn:Hw; simpl; [|done].
    apply write_inv in Hw as [-> Hlt].
    destruct (write (slots map) idx _) as [slots'|] eqn:Hw'; simpl; [|done].
    apply write_inv in Hw' as [-> _]. intros [= <-].
    rewrite (usize_small (count map + 1)) by (pow2; lia).
    split; simpl; try done; try lia.
    + by rewrite length_insert.
    + intros p s Hp Hs.
      apply list_lookup_insert_Some in Hp as [(_ & <- & _)|[_ Hp]].
      * simpl. pose proof (u32_range (count map)).
        pose proof (u32_le (count map)). lia.
      * specialize (Hidx p s Hp Hs). lia.
    + pose proof (count_occupied_insert_le (slots map) (Z.to_nat idx)
                    (mk_slot h (u32 (count map)))). lia.
    + intros i Hi. destruct (decide (Z.to_nat (count map) = i)) as [<-|Hne].
      * rewrite list_lookup_insert_eq by lia. eauto.
      * rewrite list_lookup_insert_ne by done. apply Hlive. lia.
    + intros Hover.
      destruct (Z_le_gt_dec (count map) UINT32_MAX) as [Hle|Hgt].
      * assert (count map = UINT32_MAX) as Heq by lia.
        pose proof (count_occupied_insert_empty (slots map) (Z.to_nat idx)
                      (mk_slot h (u32 (count map)))) as Hins.
        rewrite Heq in Hins at 1. specialize (Hins eq_refl). lia.
      * specialize (Hbig ltac:(lia)).
        pose proof (count_occupied_insert_le (slots map) (Z.to_nat idx)
                      (mk_slot h (u32 (count map)))). lia.
Qed.

Lemma weak_inv_set (map map' : trashmap_t) (key : cstring) (value : ptr) :
  weak_inv map -> trashmap_set map key value = Done map' -> weak_inv map'.
Proof.
  intros W. unfold trashmap_set.
  destruct (trashmap_reserve map 1) as [map1|] eqn:Hres; simpl; [|done].
  apply weak_inv_set_room in Hres as (W1 & Hc1 & Hroom & Hload); [|done].
  destruct (slot_count map1 =? 0); [done|].
  rewrite set_loop_probe.
  destruct (probe _ _ _ _ _ _) as [r|]; simpl; [|done].
  apply weak_inv_set_end; [done|lia..].
Qed.

(** ** All runs *)

Lemma runs_weak_inv (ops : list op) (map : trashmap_t) :
  runs ops map -> weak_inv map.
Proof.
  induction 1 as [n map Hn Hinit|ops map o map' _ W Htyped Hstep].
  - by apply (weak_inv_init n).
  - destruct o as [key value|extra| |key|key]; simpl in *.
    + by apply (weak_inv_set map map' key value).
    + by apply (weak_inv_reserve map map' extra).
    + by apply (weak_inv_clear map).
    + destruct (trashmap_get map key); simpl in Hstep; [|done].
      by injection Hstep as <-.
    + destruct (trashmap_has map key); simpl in Hstep; [|done].
      by injection Hstep as <-.
Qed.

Lemma reaches_runs (ops : list op) (map : trashmap_t) :
  reaches ops map -> runs ops map.
Proof.
  induction 1 as [n map Hn Hinit|ops map o map' _ IH Hrange Hstep].
  - apply (runs_init n); [pow2; lia|done].
  - apply (runs_step ops map); [done| |done].
    destruct o; simpl in *; try done.
    pose proof (w_count _ (runs_weak_inv _ _ IH)). pow2. lia.
Qed.

(** ** The assertion of set *)

(** A probe that wraps has found every slot of its sequence occupied. *)
Lemma probe_wrapped_full (map : trashmap_t) (key : cstring) (h M : Z) :
  M = probe_size (slot_count map) -> 1 <= slot_count map < 2 ^ 64 ->
  forall (fuel : nat) (j : Z),
    0 <= j < M ->
    probe fuel map key h (h mod M) ((h + j) mod M) = Done PWrapped ->
    forall i, j <= i < M ->
      exists t, slots map !! Z.to_nat ((h + i) mod M) = Some t /\
        occupied t = true.
Proof.
  intros HM Hsc. induction fuel as [|fuel IH]; intros j Hj; simpl; [done|].
  destruct (read (slots map) ((h + j) mod M)) as [s|] eqn:Er; simpl; [|done].
  apply read_inv in Er.
  destruct (index s =? UINT32_MAX) eqn:Hidx; [done|].
  assert (occupied s = true) as Hocc by (unfold occupied; by rewrite Hidx).
  destruct (key_matches map key h (hash s) (index s)) as [[]|]; simpl; [|..|done].
  - by destruct (read_item (items map) (index s)).
  - rewrite (probe_next _ _ M) by done.
    destruct (Z.eqb_spec ((h + j + 1) mod M) (h mod M)) as [Heq|Hne]; simpl.
    + intros _ i Hi. apply probe_turn in Heq; [|done].
      assert (i = j) as -> by lia. eauto.
    + rewrite probe_turn in Hne by done.
      replace (h + j + 1) with (h + (j + 1)) by lia.
      intros Hrun i Hi. destruct (Z.eq_dec i j) as [->|]; [eauto|].
      apply (IH (j + 1)); [lia|done|lia].
Qed.

Lemma reserve_slots_fault (map : trashmap_t) (extra : Z) (f : fault) :
  reserve_slots map extra = Fault f ->
  f <> assertion_failed "corrupted hash map".
Proof.
  unfold reserve_slots. destruct (_ >? _); [|done]. cbv zeta.
  destruct (memset_alloc _ _ _) as [[nl|]|f'] eqn:Hm; cbn [obind].
  - destruct (rehash_for _ _ _ _ _) as [nl'|f'] eqn:Hr; cbn [obind]; [done|].
    intros [= <-]. by destruct (rehash_for_fault _ _ _ _ _ _ Hr) as [-> | ->].
  - by intros [= <-].
  - intros [= <-]. by apply memset_alloc_fault in Hm as ->.
Qed.

Lemma reserve_items_fault (map : trashmap_t) (extra : Z) (f : fault) :
  reserve_items map extra = Fault f ->
  f <> assertion_failed "corrupted hash map".
Proof.
  unfold reserve_items. destruct (_ >? _); [|done]. cbv zeta.
  destruct (grow_capacity _ _ _ _) as [cap'|f'] eqn:Hg; cbn [obind].
  2:{ intros [= <-]. by apply grow_capacity_fault in Hg as ->. }
  destruct (TRASHMAP_REALLOC _ _); [done|]. by intros [= <-].
Qed.

Lemma trashmap_reserve_fault (map : trashmap_t) (extra : Z) (f : fault) :
  trashmap_reserve map extra = Fault f ->
  f <> assertion_failed "corrupted hash map".
Proof.
  unfold trashmap_reserve.
  destruct (reserve_items map extra) as [map1|f'] eqn:H1; cbn [obind].
  - apply reserve_slots_fault.
  - intros [= <-]. by apply reserve_items_fault in H1.
Qed.

(** With at most [2^32] entries, the probe of [trashmap_set] does not wrap,
    whatever the run that led to the table. *)
Lemma weak_inv_set_not_corrupted (map : trashmap_t) (key : cstring)
    (value : ptr) :
  weak_inv map -> count map <= UINT32_MAX + 1 ->
  trashmap_set map key value <> Fault (assertion_failed "corrupted hash map").
Proof.
  intros W Hmax. unfold trashmap_set.
  destruct (trashmap_reserve map 1) as [map1|f] eqn:Hres; simpl.
  2:{ intros [= ->]. by apply trashmap_reserve_fault in Hres. }
  apply weak_inv_set_room in Hres as (W1 & Hc1 & Hroom & Hload); [|done].
  pose proof (w_slot_count _ W1) as Hsc. pose proof (w_count _ W) as Hc.
  destruct (Z.eqb_spec (slot_count map1) 0) as [|_]; [lia|].
  rewrite (probe_start _ _ _ eq_refl (trashmap_hash_range _) (proj1 Hsc)).
  rewrite set_loop_probe.
  set (h := trashmap_hash (chars key)). set (M := probe_size (slot_count map1)).
  pose proof (probe_size_bounds (slot_count map1) (proj1 Hsc)) as [HM1 HM32].
  fold M in HM1, HM32.
  destruct (probe (probe_fuel map1) map1 key h (h mod M) (h mod M))
    as [r|f] eqn:Hprobe; simpl.
  2:{ intros [= ->]. by destruct (probe_fault _ _ _ _ _ _ _ Hprobe). }
  destruct r as [idx bidx it|idx|]; simpl.
  - destruct (write (items map1) bidx _) as [?|f] eqn:Hw; simpl; [done|].
    intros [= ->]. by apply write_fault in Hw.
  - destruct (write (items map1) (count map1) _) as [?|f] eqn:Hw; simpl.
    2:{ intros [= ->]. by apply write_fault in Hw. }
    destruct (write (slots map1) idx _) as [?|f] eqn:Hw'; simpl; [done|].
    intros [= ->]. by apply write_fault in Hw'.
  - exfalso.
    replace (h mod M) with ((h + 0) mod M) in Hprobe at 2 by (f_equal; lia).
    pose proof (probe_wrapped_full map1 key h M eq_refl ltac:(pow2; lia)
                  _ 0 ltac:(lia) Hprobe) as Hfull.
    pose proof (full_turn_count _ _ _ (proj1 HM1) Hfull) as Hcount.
    pose proof (w_occupied _ W1) as Hocc.
    pose proof (w_sentinel _ W1) as Hbig.
    assert (slot_count map1 * 3 / 4 < slot_count map1)
      by (apply Z.div_lt_upper_bound; lia).
    unfold M, probe_size in Hcount. pow2. lia.
Qed.

(** * The claims *)

(** ** Example tables *)

Lemma example_table_run :
  (do map <- trashmap_init 4; trashmap_set map hello (Some world))
  = Done example_table.
Proof. vm_compute. reflexivity. Qed.

Lemma example_table_reaches :
  reaches [op_set hello (Some world)] example_table.
Proof.
  destruct (trashmap_init_spec 4 ltac:(pow2; lia)) as [Hinit _].
  pose proof example_table_run as Hrun. rewrite Hinit in Hrun. simpl in Hrun.
  apply (reaches_step [] _ (op_set hello (Some world)) _
           (reaches_init 4 _ ltac:(pow2; lia) Hinit)); [|done].
  simpl. pow2. lia.
Qed.

Lemma example_table_inv : rep_inv example_table.
Proof. apply (reaches_rep_inv _ _ example_table_reaches). Qed.

(** ** C4: the byte comparison *)

(** C4. [trashmap_strcmp(a, a)] is zero for every string [a], but the order
    is the reverse of libc's [strcmp]: the difference is taken as right
    minus left, so [trashmap_strcmp("abc", "abd")] is [+1], not negative. *)
Theorem trashmap_strcmp_reversed :
  (forall a : string, trashmap_strcmp a a = 0) /\
  trashmap_strcmp "abc" "abd" = 1 /\
  ~ trashmap_strcmp "abc" "abd" < 0.
Proof.
  split; [apply trashmap_strcmp_refl|]. split; [reflexivity|].
  vm_compute. discriminate.
Qed.

(** ** C6: the hash *)


(** The published FNV-1a test vectors. *)
Example trashmap_hash_vectors :
  trashmap_hash "" = 2166136261 (* 0x811c9dc5 *) /\
  trashmap_hash "a" = 3826002220 (* 0xe40c292c *) /\
  trashmap_hash "foobar" = 3214735720 (* 0xbf9cf968 *).
Proof. repeat split; reflexivity. Qed.

(** ** C9: lookups terminate *)

Lemma get_loop_terminates (map : trashmap_t) (key : cstring) :
  1 <= slot_count map <= SIZE_MAX ->
  get_loop (probe_fuel map) map key (trashmap_hash (chars key))
    (u32 (trashmap_hash (chars key) mod slot_count map))
    (u32 (trashmap_hash (chars key) mod slot_count map)) <> Fault out_of_fuel /\
  has_loop (probe_fuel map) map key (trashmap_hash (chars key))
    (u32 (trashmap_hash (chars key) mod slot_count map))
    (u32 (trashmap_hash (chars key) mod slot_count map)) <> Fault out_of_fuel.
Proof.
  intros Hsc.
  rewrite (probe_start _ _ _ eq_refl (trashmap_hash_range _) (proj1 Hsc)).
  set (h := trashmap_hash (chars key)). set (M := probe_size (slot_count map)).
  pose proof (probe_size_bounds (slot_count map) (proj1 Hsc)) as [HM1 HM32].
  fold M in HM1, HM32.
  assert (probe (probe_fuel map) map key h (h mod M) (h mod M)
          <> Fault out_of_fuel) as Hprobe.
  { replace (h mod M) with ((h + 0) mod M) at 2 by (f_equal; lia).
    apply probe_terminates; [done|pow2; lia|lia|]. unfold probe_fuel. lia. }
  rewrite get_loop_probe, has_loop_probe by apply key_matches_read.
  destruct (probe (probe_fuel map) map key h (h mod M) (h mod M)) as [[]|f];
    simpl; try done.
  split; congruence.
Qed.

(** On a slot table without an empty slot and without the key, the probe
    goes round once and reports that the key is absent. *)
Lemma probe_full_table (map : trashmap_t) (key : cstring) :
  1 <= slot_count map <= SIZE_MAX ->
  Z.of_nat (length (slots map)) = slot_count map ->
  (forall p s, slots map !! p = Some s ->
     occupied s = true /\ hash s <> trashmap_hash (chars key)) ->
  probe (probe_fuel map) map key (trashmap_hash (chars key))
    (u32 (trashmap_hash (chars key) mod slot_count map))
    (u32 (trashmap_hash (chars key) mod slot_count map)) = Done PWrapped.
Proof.
  intros Hsc Hlen Hfull.
  rewrite (probe_start _ _ _ eq_refl (trashmap_hash_range _) (proj1 Hsc)).
  set (h := trashmap_hash (chars key)). set (M := probe_size (slot_count map)).
  pose proof (probe_size_bounds (slot_count map) (proj1 Hsc)) as [HM1 HM32].
  fold M in HM1, HM32.
  destruct (probe_absent map key h M eq_refl ltac:(pow2; lia)) with
    (n := Z.to_nat M) (j := 0)
    as [(d & e & Hd & Hp & He & Hemp & Hocc)|[Hp Hocc]].
  - intros i Hi.
    assert (Z.to_nat ((h + i) mod M) < length (slots map))%nat as Hlt.
    { pose proof (Z.mod_pos_bound (h + i) M). lia. }
    apply lookup_lt_is_Some_2 in Hlt as [t Ht]. exists t. split; [done|].
    intros _. destruct (Hfull _ _ Ht) as [_ Hne].
    unfold key_matches. by destruct (Z.eqb_spec (hash t) h).
  - lia.
  - lia.
  - intros i Hi. lia.
  - destruct (Hfull _ _ He) as [Hocc' _]. congruence.
  - rewrite Z.add_0_r in Hp.
    apply (probe_fuel_mono (Z.to_nat M)); [done|]. unfold probe_fuel. lia.
Qed.

Lemma probe_index_pos (sc h : Z) (i : nat) :
  1 <= sc < 2 ^ 64 ->
  probe_index sc (h mod probe_size sc) i = (h + Z.of_nat i) mod probe_size sc.
Proof.
  intros Hsc. unfold probe_index. induction i as [|i IH].
  - simpl. by rewrite Z.add_0_r.
  - rewrite Nat.iter_succ, IH, (probe_next _ _ _ eq_refl Hsc).
    f_equal. lia.
Qed.

(** C9. For every table with at least one slot and every key, the loops of
    [trashmap_get] and [trashmap_has] end within [slot_count] iterations
    (their fuel): the indices examined before the probe is back at its
    start are pairwise distinct, and on a slot table that is full and does
    not hold the key the loops go round once and answer "not found". *)
Theorem lookup_terminates (map : trashmap_t) (key : cstring) :
  1 <= slot_count map <= SIZE_MAX ->
  trashmap_get map key <> Fault out_of_fuel /\
  trashmap_has map key <> Fault out_of_fuel /\
  (forall i j : nat,
     (i < j)%nat -> Z.of_nat j < probe_size (slot_count map) ->
     probe_index (slot_count map)
       (u32 (trashmap_hash (chars key) mod slot_count map)) i <>
     probe_index (slot_count map)
       (u32 (trashmap_hash (chars key) mod slot_count map)) j) /\
  (Z.of_nat (length (slots map)) = slot_count map ->
   (forall p s, slots map !! p = Some s ->
      occupied s = true /\ hash s <> trashmap_hash (chars key)) ->
   trashmap_get map key = Done None /\ trashmap_has map key = Done false).
Proof.
  intros Hsc. unfold trashmap_get, trashmap_has.
  destruct (Z.eqb_spec (slot_count map) 0) as [|_]; [lia|].
  destruct (get_loop_terminates map key Hsc) as [Hget Hhas].
  split_and!; [done..| |].
  - intros i j Hi Hj.
    rewrite (probe_start _ _ _ eq_refl (trashmap_hash_range _) (proj1 Hsc)).
    rewrite !probe_index_pos by (pow2; lia).
    intros Heq. apply probe_pos_inj in Heq; lia.
  - intros Hlen Hfull.
    rewrite get_loop_probe, has_loop_probe by apply key_matches_read.
    by rewrite (probe_full_table map key Hsc Hlen Hfull).
Qed.

Lemma lookup_terminates_witness :
  1 <= slot_count example_table <= SIZE_MAX /\
  trashmap_get example_table there <> Fault out_of_fuel.
Proof.
  split; [vm_compute; split; discriminate|].
  apply (lookup_terminates example_table there).
  vm_compute; split; discriminate.
Defined.

(** ** C1: insert and look up *)

(** C1, corrected: for every initial slot count [n >= 1] whose slot array
    has a byte size that fits [size_t] ([n < 2^61]) and is granted by the
    allocator, so that [trashmap_init] returns, and for every sequence of
    at most [2^32 - 1] calls of [trashmap_set] on the fresh table (so that
    every entry has an index below the empty-slot mark), the calls return,
    and afterwards [trashmap_get] returns the last value set for a key and
    [trashmap_has] is true for every key that was set and false for every
    other key; with distinct keys the last value is the one value set.
    Nothing is assumed about [n] against the number of keys, so the arena
    growth and the rehashes are covered. *)
Theorem set_get_roundtrip (n : Z) (m0 : trashmap_t)
    (kvs : list (cstring * ptr)) :
  1 <= n < 2 ^ 61 -> trashmap_init n = Done m0 ->
  Z.of_nat (length kvs) <= UINT32_MAX ->
  exists map,
    set_all m0 kvs = Done map /\
    (forall key : cstring,
       match last_set kvs (chars key) with
       | Some v =>
           trashmap_get map key = Done v /\ trashmap_has map key = Done true
       | None =>
           trashmap_get map key = Done None /\ trashmap_has map key = Done false
       end) /\
    (forall (k : cstring) (v : ptr),
       NoDup ((fun kv => c_str (chars (fst kv))) <$> kvs) -> (k, v) ∈ kvs ->
       trashmap_get map k = Done v /\ trashmap_has map k = Done true) /\
    (forall key : cstring,
       (forall k v, (k, v) ∈ kvs -> c_str (chars key) <> c_str (chars k)) ->
       trashmap_has map key = Done false).
Proof.
  intros Hn Hinit Hlen.
  destruct (trashmap_init_Done n m0 Hn Hinit) as (_ & -> & I0).
  pose proof (set_all_spec kvs _ I0) as Hsets. simpl in Hsets.
  destruct (Hsets Hlen) as (map & -> & I & Hm & _).
  exists map. split; [done|].
  assert (forall key : cstring,
       match last_set kvs (chars key) with
       | Some v =>
           trashmap_get map key = Done v /\ trashmap_has map key = Done true
       | None =>
           trashmap_get map key = Done None /\ trashmap_has map key = Done false
       end) as Hall.
  { intros key. rewrite trashmap_get_spec, trashmap_has_spec by done.
    rewrite Hm, model_value_set_all, model_has_set_all.
    by destruct (last_set kvs (chars key)). }
  split_and!; [done| |].
  - intros k v Hnd Hin. specialize (Hall k).
    by rewrite (last_set_distinct kvs k v Hnd Hin) in Hall.
  - intros key Hnever. specialize (Hall key).
    destruct (last_set kvs (chars key)) as [v|] eqn:E; [|by destruct Hall].
    destruct (proj1 (last_set_is_Some kvs (chars key)) ltac:(eauto))
      as (k' & v' & Hin & Heq). by destruct (Hnever k' v' Hin).
Qed.

Lemma set_get_roundtrip_witness :
  exists m0 map,
    trashmap_init 1 = Done m0 /\
    set_all m0 example_sets = Done map /\
    trashmap_get map there = Done (Some hello) /\
    trashmap_has map world = Done true.
Proof.
  assert (1 <= 1 < 2 ^ 61) as Hn by (split; [lia|reflexivity]).
  assert (Z.of_nat (length example_sets) <= UINT32_MAX) as Hlen
    by (vm_compute; discriminate).
  eexists.
  assert (trashmap_init 1 = Done _) as Hinit by (vm_compute; reflexivity).
  destruct (set_get_roundtrip 1 _ example_sets Hn Hinit Hlen)
    as (map & Hrun & Hall & _).
  exists map. split; [exact Hinit|]. split; [exact Hrun|].
  split; [exact (proj1 (Hall there))|exact (proj2 (Hall world))].
Defined.

(** Without the bound on the slot count the round trip fails: for [2^61]
    slots the byte size of the slot array wraps to zero, [trashmap_init]
    allocates an array of no cells, and the first probe of [trashmap_set]
    reads outside of it, so that no table comes back in which
    [trashmap_get] could return the value. *)
Lemma slot_bytes_overflow :
  1 <= 2 ^ 61 /\
  trashmap_init (2 ^ 61) = Done (mk_map [] [] (2 ^ 61) 0 0) /\
  (do map <- trashmap_init (2 ^ 61); set_all map [(hello, Some world)])
    = Fault undefined_behaviour /\
  ~ exists map,
      (do map <- trashmap_init (2 ^ 61); set_all map [(hello, Some world)])
        = Done map /\
      trashmap_get map hello = Done (Some world).
Proof.
  assert ((do map <- trashmap_init (2 ^ 61); set_all map [(hello, Some world)])
          = Fault undefined_behaviour) as Hrun by reflexivity.
  split; [vm_compute; discriminate|]. split; [reflexivity|]. split; [exact Hrun|].
  intros (map & Hdone & _). rewrite Hrun in Hdone. discriminate.
Qed.

(** ** C2: updating a key *)

Lemma model_has_true (its : list trashmap_item_t) (k : string) :
  model_has its k = true ->
  exists it, model_get its k = Some it.
Proof. unfold model_has. destruct (model_get its k); [eauto|done]. Qed.



(** After a set the key is in the table. *)
Lemma trashmap_has_after_set (map map' : trashmap_t) (key : cstring)
    (value : ptr) :
  rep_inv map -> count map < UINT32_MAX ->
  trashmap_set map key value = Done map' ->
  rep_inv map' /\ trashmap_has map' key = Done true /\
  trashmap_get map' key = Done value.
Proof.
  intros I Hmax Hrun.
  destruct (trashmap_set_spec map key value I)
    as (map1 & Hrun1 & Hm & I' & Hcase & _).
  rewrite Hrun in Hrun1. injection Hrun1 as <-.
  assert (rep_inv map') as I1 by (by apply I').
  split; [done|].
  rewrite trashmap_has_spec, trashmap_get_spec by done.
  rewrite Hm, model_has_set, model_value_set. by rewrite String.eqb_refl.
Qed.

(** ** C3: the representation invariant *)



(** ** C5: reserve *)

(** C5. [trashmap_reserve] grows the arena until [count + extra] fits, but
    doubles the slot table once only: after [trashmap_init(&map, 4)] and
    [trashmap_reserve(&map, 100)] the capacity is 128 and the slot count is
    8, so [count + extra = 100] exceeds [slot_count * 3 / 4 = 6]. *)
Theorem trashmap_reserve_single_doubling :
  exists map,
    (do map <- trashmap_init 4; trashmap_reserve map 100) = Done map /\
    count map = 0 /\ capacity map = 128 /\ slot_count map = 8 /\
    count map + 100 <= capacity map /\
    ~ count map + 100 <= slot_count map * 3 / 4.
Proof.
  eexists. split; [vm_compute; reflexivity|]. vm_compute.
  split_and!; try done.
Qed.

(** The arena half of the claim holds on every well-formed table, whenever
    the call returns. *)
Lemma trashmap_reserve_capacity (map map' : trashmap_t) (extra : Z) :
  rep_inv map -> 1 <= extra -> count map + extra <= 2 ^ 59 ->
  trashmap_reserve map extra = Done map' ->
  count map' + extra <= capacity map' /\
  count map' + 1 <= slot_count map' * 3 / 4.
Proof.
  intros I Hextra Hneed Hrun.
  destruct (trashmap_reserve_Done map map' extra I ltac:(lia) Hneed Hrun)
    as (_ & _ & Hc & Hroom & _ & _ & _ & Hload & _).
  rewrite Hc. split; [done|]. by apply Hload.
Qed.

(** ** C7: the assertion of trashmap_set *)



(** ** C8: clear *)

(** C8. On a well-formed table [trashmap_clear] sets [count] to zero and
    makes every slot empty; the slot count, the capacity, the length of the
    slot array and the arena with its abandoned cells stay as they are.
    Afterwards no key is in the table, and a [trashmap_set] followed by a
    [trashmap_get] works, in the retained arrays when they have room for
    one entry. *)
Theorem trashmap_clear_retains (map : trashmap_t) :
  rep_inv map ->
  exists map',
    trashmap_clear map = Done map' /\
    count map' = 0 /\
    Forall (fun s => index s = UINT32_MAX) (slots map') /\
    length (slots map') = length (slots map) /\
    slot_count map' = slot_count map /\
    capacity map' = capacity map /\
    items map' = items map /\
    (forall key, trashmap_has map' key = Done false) /\
    (forall key value,
       exists map'',
         trashmap_set map' key value = Done map'' /\
         trashmap_get map'' key = Done value /\
         trashmap_has map'' key = Done true /\
         count map'' = 1 /\
         (1 <= capacity map -> capacity map'' = capacity map) /\
         (1 <= slot_count map * 3 / 4 -> slot_count map'' = slot_count map)).
Proof.
  intros I. destruct (trashmap_clear_spec map I) as [Hrun I'].
  pose proof (inv_slots_len _ I) as Hsl. pose proof (inv_slot_count _ I) as Hsc.
  eexists. split; [exact Hrun|]. simpl.
  split_and!; try done.
  - apply Forall_forall. intros s Hs. by apply elem_of_replicate in Hs as [-> _].
  - rewrite length_replicate. lia.
  - intros key. by rewrite trashmap_has_spec.
  - intros key value.
    destruct (trashmap_set_spec _ key value I')
      as (map'' & Hset & Hm & I'' & Hcase & Hcap & Hslots).
    simpl in *.
    exists map''. assert (rep_inv map'') as I2 by (apply I''; pow2; lia).
    split; [done|]. split.
    { rewrite trashmap_get_spec, Hm by done.
      unfold model_value, model_get. simpl. unfold same_key. simpl.
      by rewrite String.eqb_refl. }
    split.
    { rewrite trashmap_has_spec, Hm by done.
      unfold model_has, model_get. simpl. unfold same_key. simpl.
      by rewrite String.eqb_refl. }
    split; [lia|].
    split; intros H; [apply Hcap|apply Hslots]; lia.
Qed.

Lemma trashmap_clear_retains_witness :
  rep_inv example_table /\
  exists map', trashmap_clear example_table = Done map' /\ count map' = 0 /\
    items map' = items example_table.
Proof.
  split; [exact example_table_inv|].
  destruct (trashmap_clear_retains example_table example_table_inv)
    as (map' & Hrun & Hc & _ & _ & _ & _ & Hitems & _).
  exists map'. split; [exact Hrun|]. split; [exact Hc|exact Hitems].
Defined.

(** ** C10: a stored NULL *)

(** C10. After [trashmap_set(map, key, NULL)] on a well-formed table with
    room below the sentinel, [trashmap_has] reports the key and
    [trashmap_get] returns [NULL] for it, which is also what [trashmap_get]
    returns for every key that [trashmap_has] does not report. *)
Theorem null_value_like_absent (map : trashmap_t) (key : cstring) :
  rep_inv map -> count map < UINT32_MAX ->
  exists map',
    trashmap_set map key None = Done map' /\
    trashmap_has map' key = Done true /\
    trashmap_get map' key = Done None /\
    (forall absent, trashmap_has map' absent = Done false ->
       trashmap_get map' absent = Done None).
Proof.
  intros I Hmax.
  destruct (trashmap_set_spec map key None I) as (map' & Hrun & _).
  destruct (trashmap_has_after_set _ _ _ _ I Hmax Hrun) as (I' & Hhas & Hget).
  exists map'. split_and!; try done.
  intros absent. rewrite trashmap_has_spec, trashmap_get_spec by done.
  unfold model_has, model_value.
  by destruct (model_get (model map') (chars absent)).
Qed.

Lemma null_value_like_absent_witness :
  rep_inv example_table /\ count example_table < UINT32_MAX /\
  exists map',
    trashmap_set example_table there None = Done map' /\
    trashmap_has map' there = Done true /\
    trashmap_get map' there = Done None.
Proof.
  assert (count example_table < UINT32_MAX) as Hmax by reflexivity.
  split; [exact example_table_inv|]. split; [exact Hmax|].
  destruct (null_value_like_absent example_table there example_table_inv Hmax)
    as (map' & Hrun & Hhas & Hget & _).
  exists map'. split; [exact Hrun|]. split; [exact Hhas|exact Hget].
Defined.

(** * Further properties of the code *)

(** ** trashmap_strcmp *)

(** X1. [trashmap_strcmp] returns zero exactly when its two arguments are
    the same C string, that is, hold the same bytes before their first
    NUL. This is the only use the table makes of it. *)
Theorem trashmap_strcmp_zero_iff (lhs rhs : string) :
  trashmap_strcmp lhs rhs = 0 <-> c_str lhs = c_str rhs.
Proof. apply trashmap_strcmp_zero. Qed.

(** X2. Exchanging the arguments of [trashmap_strcmp] negates the
    result. *)
Theorem trashmap_strcmp_antisym (lhs rhs : string) :
  trashmap_strcmp lhs rhs = - trashmap_strcmp rhs lhs.
Proof.
  revert rhs. induction lhs as [|a lhs IH]; intros [|b rhs]; simpl; try lia.
  rewrite (andb_comm (negb (is_nul b))).
  destruct (negb (is_nul a) && negb (is_nul b)); [|lia].
  destruct (Z.eqb_spec (schar b - schar a) 0) as [Hz|Hz];
    destruct (Z.eqb_spec (schar a - schar b) 0) as [Hz'|Hz'];
    simpl; try lia.
  apply IH.
Qed.

(** X3. After a common prefix without NUL, the result of
    [trashmap_strcmp] is the difference of the first two characters that
    differ, the right one minus the left one, as signed [char]s; the end of
    a string counts as its NUL. *)
Theorem trashmap_strcmp_first_difference (p a b : string) :
  c_str p = p -> deref a <> deref b ->
  trashmap_strcmp (p ++ a) (p ++ b) = schar (deref b) - schar (deref a) /\
  schar (deref b) - schar (deref a) <> 0.
Proof.
  intros Hp Hne. split.
  2:{ intros Hz. apply Hne, schar_inj. lia. }
  induction p as [|c p IH]; simpl in *.
  - destruct a as [|x a], b as [|y b]; simpl in *; try done.
    destruct (negb (is_nul x) && negb (is_nul y)); [|done].
    destruct (Z.eqb_spec (schar y - schar x) 0) as [Hz|Hz]; [|done].
    exfalso. apply Hne. symmetry. apply schar_inj. lia.
  - destruct (is_nul c) eqn:Hc; [done|]. simpl.
    rewrite Z.sub_diag. simpl. apply IH. congruence.
Qed.

Lemma trashmap_strcmp_first_difference_witness :
  trashmap_strcmp "abc" "abd" = schar "d" - schar "c" /\
  schar "d" - schar "c" <> 0.
Proof.
  apply (trashmap_strcmp_first_difference "ab" "c" "d"); [reflexivity|].
  simpl. discriminate.
Defined.

(** ** trashmap_get, trashmap_has *)

Lemma key_matches_c_str (map : trashmap_t) (k1 k2 : cstring) (h bh bi : Z) :
  c_str (chars k1) = c_str (chars k2) ->
  key_matches map k1 h bh bi = key_matches map k2 h bh bi.
Proof.
  intros Heq. unfold key_matches. destruct (bh =? h); [|done].
  destruct (read_item (items map) bi) as [it|]; simpl; [|done].
  f_equal. rewrite !same_key_strcmp. unfold same_key. by rewrite Heq.
Qed.

Lemma probe_c_str (map : trashmap_t) (k1 k2 : cstring) (h start : Z) :
  c_str (chars k1) = c_str (chars k2) ->
  forall (fuel : nat) (idx : Z),
    probe fuel map k1 h start idx = probe fuel map k2 h start idx.
Proof.
  intros Heq. induction fuel as [|fuel IH]; intros idx; simpl; [done|].
  destruct (read (slots map) idx) as [s|]; simpl; [|done].
  destruct (index s =? UINT32_MAX); [done|].
  rewrite (key_matches_c_str map k1 k2) by done.
  destruct (key_matches map k2 h (hash s) (index s)) as [[]|]; simpl; try done.
  destruct (negb _); [apply IH|done].
Qed.

Lemma has_loop_c_str (map : trashmap_t) (k1 k2 : cstring) (h start : Z) :
  c_str (chars k1) = c_str (chars k2) ->
  forall (fuel : nat) (idx : Z),
    has_loop fuel map k1 h start idx = has_loop fuel map k2 h start idx.
Proof.
  intros Heq. induction fuel as [|fuel IH]; intros idx; simpl; [done|].
  destruct (read (slots map) idx) as [s|]; simpl; [|done].
  destruct (index s =? UINT32_MAX); [done|].
  rewrite (key_matches_c_str map k1 k2) by done.
  destruct (key_matches map k2 h (hash s) (index s)) as [[]|]; simpl; try done.
  destruct (negb _); [apply IH|done].
Qed.

(** X5. A lookup depends on the key's C string only, not on where it is
    stored nor on what follows its NUL: on any table, two pointers to the
    same C string give the same result of [trashmap_get] and of
    [trashmap_has]. *)
Theorem lookup_by_content (map : trashmap_t) (k1 k2 : cstring) :
  c_str (chars k1) = c_str (chars k2) ->
  trashmap_get map k1 = trashmap_get map k2 /\
  trashmap_has map k1 = trashmap_has map k2.
Proof.
  intros Heq. unfold trashmap_get, trashmap_has.
  rewrite (trashmap_hash_c_str _ _ Heq).
  destruct (slot_count map =? 0); [done|]. split.
  - rewrite !get_loop_probe. by rewrite (probe_c_str map k1 k2).
  - by apply has_loop_c_str.
Qed.

Lemma lookup_by_content_witness :
  trashmap_get example_table (mk_cstring 8192 "hello")
    = trashmap_get example_table hello /\
  trashmap_has example_table (mk_cstring 8192 "hello")
    = trashmap_has example_table hello.
Proof. apply lookup_by_content. reflexivity. Defined.

(** ** The entries of a reachable table *)

Lemma live_entry_model (map : trashmap_t) (i : nat) (it : trashmap_item_t) :
  rep_inv map -> Z.of_nat i < count map ->
  items map !! i = Some (Some it) -> model map !! i = Some it.
Proof.
  intros I Hi Hit. pose proof (inv_live _ I) as Hlive.
  assert (take (Z.to_nat (count map)) (items map) !! i = Some (Some it)) as Ht.
  { rewrite lookup_take_lt by lia. done. }
  rewrite Hlive, list_lookup_fmap in Ht.
  destruct (model map !! i) as [it'|]; simpl in Ht; congruence.
Qed.

(** X6. In a table reached by a run of the public operations, every live
    entry of the arena is found under its own key: [trashmap_get] returns
    the value stored in the entry and [trashmap_has] returns true. *)
Theorem every_entry_found (ops : list op) (map : trashmap_t) (i : nat)
    (it : trashmap_item_t) :
  reaches ops map -> Z.of_nat i < count map ->
  items map !! i = Some (Some it) ->
  trashmap_get map (Item.key it) = Done (Item.value it) /\
  trashmap_has map (Item.key it) = Done true.
Proof.
  intros Hreach Hi Hit. destruct (reaches_rep_inv _ _ Hreach) as [I _].
  pose proof (live_entry_model _ _ _ I Hi Hit) as Hm.
  assert (model_get (model map) (chars (Item.key it)) = Some it) as Hget.
  { apply (model_get_unique _ _ i); [apply (inv_keys _ I)|done|].
    by apply same_key_spec. }
  rewrite (trashmap_get_spec _ _ I), (trashmap_has_spec _ _ I).
  unfold model_value, model_has. by rewrite Hget.
Qed.

Lemma every_entry_found_witness :
  trashmap_get example_table hello = Done (Some world) /\
  trashmap_has example_table hello = Done true.
Proof.
  apply (every_entry_found _ example_table 0 (mk_item hello (Some world))
           example_table_reaches); reflexivity.
Defined.

(** X7. In a table reached by a run of the public operations, no two live
    entries of the arena have the same key, and [count] is the number of
    different keys set since [trashmap_init] or the last
    [trashmap_clear]. *)
Theorem arena_keys_distinct (ops : list op) (map : trashmap_t) :
  reaches ops map ->
  count map = Z.of_nat (length (abstract_run ops)) /\
  forall (i j : nat) (a b : trashmap_item_t),
    Z.of_nat i < count map -> Z.of_nat j < count map ->
    items map !! i = Some (Some a) -> items map !! j = Some (Some b) ->
    c_str (chars (Item.key a)) = c_str (chars (Item.key b)) -> i = j.
Proof.
  intros Hreach. destruct (reaches_rep_inv _ _ Hreach) as [I Hmodel]. split.
  - rewrite <- Hmodel. symmetry. by apply model_length.
  - intros i j a b Hi Hj Ha Hb Heq.
    apply (inv_keys _ I i j a b); [by apply live_entry_model..|done].
Qed.

Lemma arena_keys_distinct_witness :
  count example_table = 1.
Proof.
  exact (proj1 (arena_keys_distinct _ _ example_table_reaches)).
Defined.

(** X8. In a table reached by a run of the public operations, occupied
    slots and live entries correspond one to one: there are [count]
    occupied slots, every live entry has a slot that holds its index and
    the hash of its key, and every occupied slot holds the index of a live
    entry together with the hash of that entry's key. *)
Theorem slots_match_entries (ops : list op) (map : trashmap_t) :
  reaches ops map ->
  Z.of_nat (count_occupied (slots map)) = count map /\
  (forall (i : nat) (it : trashmap_item_t),
     Z.of_nat i < count map -> items map !! i = Some (Some it) ->
     exists p, slots map !! p =
       Some (mk_slot (trashmap_hash (chars (Item.key it))) (Z.of_nat i))) /\
  (forall (p q : nat) (s : trashmap_slot_t),
     slots map !! p = Some s -> slots map !! q = Some s ->
     index s <> UINT32_MAX -> p = q) /\
  (forall (p : nat) (s : trashmap_slot_t),
     slots map !! p = Some s -> index s <> UINT32_MAX ->
     exists it, items map !! Z.to_nat (index s) = Some (Some it) /\
       0 <= index s < count map /\
       hash s = trashmap_hash (chars (Item.key it))).
Proof.
  intros Hreach. destruct (reaches_rep_inv _ _ Hreach) as [I _].
  pose proof (inv_rep _ I) as R.
  assert (forall s, index s <> UINT32_MAX -> occupied s = true) as Hocc.
  { intros s Hs. unfold occupied. by apply negb_true_iff, Z.eqb_neq. }
  split_and!.
  - rewrite (rep_card _ _ _ R), table_of_length. by apply model_length.
  - intros i it Hi Hit. apply (rep_all _ _ _ R).
    apply table_of_elem. exists i, it. split; [|done].
    by apply live_entry_model.
  - intros p q s Hp Hq Hs. apply (rep_inj _ _ _ R p q s); auto.
  - intros p s Hp Hs.
    destruct (occupied_slot_item _ _ _ I Hp (Hocc _ Hs)) as (i & it & Hi & -> & _).
    exists it. simpl. rewrite Nat2Z.id.
    destruct (model_lookup _ _ _ I Hi) as [Hit Hlt]. split_and!; [done|lia|done|done].
Qed.

Lemma slots_match_entries_witness :
  Z.of_nat (count_occupied (slots example_table)) = count example_table.
Proof.
  exact (proj1 (slots_match_entries _ _ example_table_reaches)).
Defined.

(** ** trashmap_set *)

(** X9. Setting a key that the table does not hold appends one entry: the
    call returns, [count] grows by one, the arena cell at the old [count]
    holds the key and value pointers as they were passed (nothing is
    copied), and the live entries before it are untouched. *)
Theorem set_new_key (map : trashmap_t) (key : cstring) (value : ptr) :
  rep_inv map -> count map < UINT32_MAX ->
  trashmap_has map key = Done false ->
  exists map',
    trashmap_set map key value = Done map' /\
    count map' = count map + 1 /\
    items map' !! Z.to_nat (count map) = Some (Some (mk_item key value)) /\
    (forall i : nat, Z.of_nat i < count map ->
       items map' !! i = items map !! i) /\
    trashmap_get map' key = Done value.
Proof.
  intros I Hmax Hhas. rewrite (trashmap_has_spec _ _ I) in Hhas.
  injection Hhas as Hhas. unfold model_has in Hhas.
  destruct (model_get (model map) (chars key)) as [|] eqn:Hget; [done|].
  destruct (trashmap_set_spec map key value I)
    as (map' & Hrun & Hmodel & HI & Hcase & _).
  rewrite Hget in Hcase. specialize (HI Hmax).
  rewrite (model_set_absent _ _ _ Hget) in Hmodel.
  pose proof (model_length _ I) as Hlen.
  exists map'. split_and!; [done|done| | |].
  - apply (model_lookup map' _ _ HI). rewrite Hmodel.
    replace (Z.to_nat (count map)) with (length (model map)) by lia.
    by rewrite lookup_app_r, Nat.sub_diag.
  - intros i Hi.
    assert (i < length (model map))%nat as Hlt by lia.
    destruct (lookup_lt_is_Some_2 _ _ Hlt) as [it Hit].
    destruct (model_lookup _ _ _ I Hit) as [-> _].
    apply (model_lookup map' _ _ HI). rewrite Hmodel.
    by rewrite lookup_app_l.
  - rewrite (trashmap_get_spec _ _ HI), Hmodel.
    rewrite <- (model_set_absent _ _ value Hget), model_value_set.
    by rewrite String.eqb_refl.
Qed.

Lemma set_new_key_witness :
  exists map',
    trashmap_set example_table there None = Done map' /\
    count map' = count example_table + 1 /\
    items map' !! Z.to_nat (count example_table)
      = Some (Some (mk_item there None)) /\
    (forall i : nat, Z.of_nat i < count example_table ->
       items map' !! i = items example_table !! i) /\
    trashmap_get map' there = Done None.
Proof.
  apply (set_new_key example_table there None example_table_inv);
    reflexivity.
Defined.

(** X10. [trashmap_set] leaves every other key alone: after setting [key],
    [trashmap_get] and [trashmap_has] answer for any key with a different
    C string as they did before, whether the call appended an entry,
    overwrote a value, grew the arena or rehashed the slots. *)
Theorem set_other_keys_unchanged (map : trashmap_t) (key k : cstring)
    (value : ptr) :
  rep_inv map -> count map < UINT32_MAX ->
  c_str (chars k) <> c_str (chars key) ->
  exists map',
    trashmap_set map key value = Done map' /\
    trashmap_get map' k = trashmap_get map k /\
    trashmap_has map' k = trashmap_has map k.
Proof.
  intros I Hmax Hne.
  destruct (trashmap_set_spec map key value I)
    as (map' & Hrun & Hmodel & HI & _).
  specialize (HI Hmax). exists map'. split; [done|].
  rewrite !(trashmap_get_spec _ _ HI), !(trashmap_has_spec _ _ HI).
  rewrite !(trashmap_get_spec _ _ I), !(trashmap_has_spec _ _ I).
  rewrite Hmodel, model_value_set, model_has_set.
  apply String.eqb_neq in Hne. by rewrite Hne.
Qed.

Lemma set_other_keys_unchanged_witness :
  exists map',
    trashmap_set example_table there None = Done map' /\
    trashmap_get map' hello = trashmap_get example_table hello /\
    trashmap_has map' hello = trashmap_has example_table hello.
Proof.
  apply (set_other_keys_unchanged example_table there hello None
           example_table_inv); [reflexivity|].
  vm_compute. discriminate.
Defined.

(** X11. Two [trashmap_set] calls on different keys commute as far as
    lookups can tell: in either order both calls return, and every
    [trashmap_get] and [trashmap_has] answers the same on the two resulting
    tables (the arena order of the two entries may differ). *)
Theorem set_commute (map : trashmap_t) (k1 k2 : cstring) (v1 v2 : ptr) :
  rep_inv map -> count map + 1 < UINT32_MAX ->
  c_str (chars k1) <> c_str (chars k2) ->
  exists ma mb,
    (do m <- trashmap_set map k1 v1; trashmap_set m k2 v2) = Done ma /\
    (do m <- trashmap_set map k2 v2; trashmap_set m k1 v1) = Done mb /\
    forall k, trashmap_get ma k = trashmap_get mb k /\
              trashmap_has ma k = trashmap_has mb k.
Proof.
  intros I Hmax Hne.
  assert (forall m key value, rep_inv m -> count m < UINT32_MAX ->
            exists m', trashmap_set m key value = Done m' /\ rep_inv m' /\
              model m' = model_set (model m) key value /\
              count m' <= count m + 1) as Hstep.
  { intros m key value Im Hm.
    destruct (trashmap_set_spec m key value Im)
      as (m' & Hrun & Hmodel & HI & Hcase & _).
    exists m'. split_and!; [done|by apply HI|done|].
    destruct (model_get (model m) (chars key)); [|lia].
    destruct Hcase as (_ & -> & _). lia. }
  destruct (Hstep map k1 v1 I ltac:(lia)) as (m1 & Hr1 & I1 & Hm1 & Hc1).
  destruct (Hstep m1 k2 v2 I1 ltac:(lia)) as (ma & Hra & Ia & Hma & _).
  destruct (Hstep map k2 v2 I ltac:(lia)) as (m2 & Hr2 & I2 & Hm2 & Hc2).
  destruct (Hstep m2 k1 v1 I2 ltac:(lia)) as (mb & Hrb & Ib & Hmb & _).
  exists ma, mb. rewrite Hr1, Hr2. simpl. split_and!; [done|done|].
  intros k.
  rewrite (trashmap_get_spec _ _ Ia), (trashmap_get_spec _ _ Ib).
  rewrite (trashmap_has_spec _ _ Ia), (trashmap_has_spec _ _ Ib).
  rewrite Hma, Hm1, Hmb, Hm2, !model_value_set, !model_has_set.
  destruct (String.eqb_spec (c_str (chars k)) (c_str (chars k1))) as [E1|E1];
    destruct (String.eqb_spec (c_str (chars k)) (c_str (chars k2))) as [E2|E2];
    try done.
  congruence.
Qed.

Lemma set_commute_witness :
  exists ma mb,
    (do m <- trashmap_set example_table there None;
     trashmap_set m world (Some hello)) = Done ma /\
    (do m <- trashmap_set example_table world (Some hello);
     trashmap_set m there None) = Done mb /\
    forall k, trashmap_get ma k = trashmap_get mb k /\
              trashmap_has ma k = trashmap_has mb k.
Proof.
  apply (set_commute example_table there world None (Some hello)
           example_table_inv); [reflexivity|].
  vm_compute. discriminate.
Defined.

(** ** trashmap_reserve *)

(** X12. [trashmap_reserve] keeps the contents of the table: whenever the
    call returns on a well-formed table, with sizes that fit, [count] and
    the live arena entries are as before, the arena has room for [extra]
    more entries, and [trashmap_get] and [trashmap_has] answer for every
    key as before, also when the slots were rehashed into a table twice as
    large. *)
Theorem reserve_keeps_contents (map map' : trashmap_t) (extra : Z) :
  rep_inv map -> 0 <= extra -> count map + extra <= 2 ^ 59 ->
  trashmap_reserve map extra = Done map' ->
  count map' = count map /\
  count map + extra <= capacity map' /\
  (forall i : nat, Z.of_nat i < count map ->
     items map' !! i = items map !! i) /\
  (forall k, trashmap_get map' k = trashmap_get map k /\
             trashmap_has map' k = trashmap_has map k).
Proof.
  intros I Hextra Hfit Hrun.
  destruct (trashmap_reserve_Done map map' extra I Hextra Hfit Hrun)
    as (I' & Hmodel & Hcount & Hroom & _ & _ & [k Hitems] & _).
  split_and!; try done.
  - intros i Hi. rewrite Hitems. apply lookup_app_l.
    pose proof (inv_items_len _ I). pose proof (inv_capacity _ I). lia.
  - intros key.
    rewrite (trashmap_get_spec _ _ I'), (trashmap_has_spec _ _ I').
    rewrite (trashmap_get_spec _ _ I), (trashmap_has_spec _ _ I).
    by rewrite Hmodel.
Qed.

Lemma reserve_keeps_contents_witness :
  exists map',
    trashmap_reserve example_table 100 = Done map' /\
    count map' = count example_table /\
    count example_table + 100 <= capacity map' /\
    (forall i : nat, Z.of_nat i < count example_table ->
       items map' !! i = items example_table !! i) /\
    (forall k, trashmap_get map' k = trashmap_get example_table k /\
               trashmap_has map' k = trashmap_has example_table k).
Proof.
  eexists.
  assert (trashmap_reserve example_table 100 = Done _) as Hrun
    by (vm_compute; reflexivity).
  split; [exact Hrun|].
  apply (reserve_keeps_contents example_table _ 100 example_table_inv);
    [vm_compute; discriminate..|exact Hrun].
Defined.

Lemma set_all_keeps_capacity (kvs : list (cstring * ptr)) :
  forall map : trashmap_t,
    rep_inv map ->
    count map + Z.of_nat (length kvs) <= capacity map ->
    count map + Z.of_nat (length kvs) <= UINT32_MAX ->
    exists map',
      set_all map kvs = Done map' /\ capacity map' = capacity map /\
      length (items map') = length (items map).
Proof.
  induction kvs as [|[k v] kvs IH]; intros map I Hroom Hmax; simpl in *.
  - by exists map.
  - destruct (trashmap_set_spec map k v I)
      as (m1 & Hrun & _ & HI & Hcase & Hcap & _).
    rewrite Hrun. simpl. specialize (HI ltac:(lia)). specialize (Hcap ltac:(lia)).
    assert (count m1 <= count map + 1) as Hc1.
    { destruct (model_get (model map) (chars k)); [|lia].
      destruct Hcase as (_ & -> & _). lia. }
    destruct (IH m1 HI ltac:(lia) ltac:(lia)) as (map' & Hrun' & Hcap' & Hlen').
    exists map'. split_and!; [done|congruence|].
    pose proof (inv_items_len _ I). pose proof (inv_items_len _ HI). lia.
Qed.

(** X13. What [trashmap_reserve] is for: after [trashmap_reserve(map,
    extra)], the next [extra] calls of [trashmap_set] all return without
    resizing the item arena; its capacity and its length stay what the
    reserve left. *)
Theorem reserve_then_sets_keep_arena (map map1 : trashmap_t) (extra : Z)
    (kvs : list (cstring * ptr)) :
  rep_inv map -> count map + extra <= UINT32_MAX ->
  Z.of_nat (length kvs) <= extra ->
  trashmap_reserve map extra = Done map1 ->
  exists map2,
    set_all map1 kvs = Done map2 /\
    capacity map2 = capacity map1 /\
    length (items map2) = length (items map1).
Proof.
  intros I Hmax Hlen Hrun.
  destruct (trashmap_reserve_spec map extra I ltac:(lia) ltac:(pow2; lia))
    as (m & Hrun' & I' & _ & Hcount & Hroom & _).
  rewrite Hrun in Hrun'. injection Hrun' as <-.
  apply set_all_keeps_capacity; [done|lia|lia].
Qed.

Lemma reserve_then_sets_keep_arena_witness :
  exists map1 map2,
    trashmap_reserve example_table 20 = Done map1 /\
    set_all map1 example_sets = Done map2 /\
    capacity map2 = capacity map1 /\
    length (items map2) = length (items map1).
Proof.
  eexists.
  assert (trashmap_reserve example_table 20 = Done _) as Hrun
    by (vm_compute; reflexivity).
  destruct (reserve_then_sets_keep_arena example_table _ 20 example_sets
              example_table_inv ltac:(vm_compute; discriminate)
              ltac:(vm_compute; discriminate) Hrun) as (map2 & H).
  exists map2. split; [exact Hrun|exact H].
Defined.

(** ** Growth *)

Lemma grow_capacity_one (fuel : nat) (count cap : Z) :
  0 <= count <= cap -> 1 <= cap < 2 ^ 60 ->
  grow_capacity (S (S fuel)) count 1 cap =
  Done (if count + 1 >? cap then 2 * cap else cap).
Proof.
  intros Hc Hcap.
  assert (usize (count + 1) = count + 1) as Hu by (apply usize_small; pow2; lia).
  assert (usize (cap * 2) = 2 * cap) as Hd
    by (rewrite usize_small; [lia|pow2; lia]).
  cbn [grow_capacity]. rewrite Hu.
  destruct (Z.gtb_spec (count + 1) cap) as [Hgt|Hle]; [|done].
  rewrite Hd. destruct (Z.gtb_spec (count + 1) (2 * cap)); [lia|done].
Qed.

Lemma reserve_one_sizes (map map1 : trashmap_t) :
  rep_inv map -> trashmap_reserve map 1 = Done map1 ->
  count map1 = count map /\
  (slot_count map1 = slot_count map \/
   slot_count map1 = 2 * slot_count map /\
   slot_count map * 3 / 4 <= count map) /\
  (capacity map1 = capacity map \/
   capacity map = 0 /\ capacity map1 = 16 \/
   capacity map1 = 2 * capacity map /\ capacity map = count map).
Proof.
  intros I Hrun.
  pose proof (inv_count _ I) as Hc. pose proof (inv_capacity _ I) as Hcap.
  pose proof (inv_slot_count _ I) as Hsc.
  destruct (trashmap_reserve_spec map 1 I ltac:(lia) ltac:(pow2; lia))
    as (m & Hrun' & _ & _ & Hcount & _ & _ & Hsame & _ & _ & Hslots).
  rewrite Hrun in Hrun'. injection Hrun' as <-.
  split_and!; [done| |].
  - destruct (Z.gtb_spec (count map + 1) (slot_count map * 3 / 4));
      [right; lia|left; tauto].
  - destruct (Z_le_gt_dec (count map + 1) (capacity map)) as [Hle|Hgt];
      [left; by apply Hsame|].
    unfold trashmap_reserve in Hrun.
    destruct (reserve_items map 1) as [m1|] eqn:Hitems; simpl in Hrun; [|done].
    destruct (reserve_slots_spec m1 1) as (m2 & Hrun2 & _ & _ & _ & Hcap2 & _).
    { destruct (reserve_items_spec map 1 I ltac:(lia) ltac:(pow2; lia))
        as (m & Hm & Im & _). congruence. }
    { lia. }
    { destruct (reserve_items_spec map 1 I ltac:(lia) ltac:(pow2; lia))
        as (m & Hm & _ & _ & Hcm & _). pow2.
      assert (m = m1) as <- by congruence. lia. }
    rewrite Hrun in Hrun2. injection Hrun2 as <-. rewrite Hcap2.
    unfold reserve_items in Hitems.
    rewrite (usize_small (count map + 1)) in Hitems by (pow2; lia).
    destruct (Z.gtb_spec (count map + 1) (capacity map)); [|lia].
    cbv zeta in Hitems. change grow_fuel with (S (S 63)) in Hitems.
    destruct (Z.eqb_spec (capacity map) 0) as [Hz|Hnz].
    + rewrite grow_capacity_one in Hitems by (pow2; lia).
      destruct (Z.gtb_spec (count map + 1) 16); [lia|].
      cbn [obind] in Hitems.
      destruct (TRASHMAP_REALLOC _ _); [|done].
      injection Hitems as <-. simpl. by right; left.
    + rewrite grow_capacity_one in Hitems by (pow2; lia).
      destruct (Z.gtb_spec (count map + 1) (capacity map)); [|lia].
      cbn [obind] in Hitems.
      destruct (TRASHMAP_REALLOC _ _); [|done].
      injection Hitems as <-. simpl.
      right; right. lia.
Qed.

Lemma set_sizes (map map' : trashmap_t) (key : cstring) (value : ptr) :
  rep_inv map -> trashmap_set map key value = Done map' ->
  count map <= count map' <= count map + 1 /\
  (slot_count map' = slot_count map \/
   slot_count map' = 2 * slot_count map /\
   slot_count map * 3 / 4 <= count map) /\
  (capacity map' = capacity map \/
   capacity map = 0 /\ capacity map' = 16 \/
   capacity map' = 2 * capacity map /\ capacity map = count map).
Proof.
  intros I Hrun.
  destruct (trashmap_set_spec map key value I) as (m & Hrun' & _ & _ & Hcase & _).
  rewrite Hrun in Hrun'. injection Hrun' as <-.
  assert (count map <= count map' <= count map + 1) as Hcount.
  { destruct (model_get (model map) (chars key)); [|lia].
    destruct Hcase as (_ & -> & _). lia. }
  split; [done|]. clear Hcase.
  unfold trashmap_set in Hrun.
  destruct (trashmap_reserve map 1) as [map1|] eqn:Hres; simpl in Hrun; [|done].
  destruct (reserve_one_sizes _ _ I Hres) as (Hc1 & Hsc1 & Hcap1).
  destruct (trashmap_reserve_spec map 1 I ltac:(lia))
    as (m & Hm & I1 & _ & _ & Hroom & _).
  { pose proof (inv_count _ I). pow2. lia. }
  assert (m = map1) as -> by congruence.
  destruct (slot_count map1 =? 0); [done|].
  destruct (set_loop_spec map1 key value I1 ltac:(lia))
    as (m' & Hloop & _ & Hsc & Hcap & _).
  rewrite Hloop in Hrun. injection Hrun as <-.
  rewrite Hsc, Hcap. done.
Qed.

Lemma set_all_growth (n : Z) (kvs : list (cstring * ptr)) :
  forall map map' : trashmap_t,
    rep_inv map ->
    count map + Z.of_nat (length kvs) <= UINT32_MAX ->
    set_all map kvs = Done map' ->
    ((exists k : nat, slot_count map = n * 2 ^ Z.of_nat k) /\
     (slot_count map = n \/ slot_count map / 2 * 3 / 4 <= count map) /\
     (capacity map = 0 \/ capacity map = 16 \/
      capacity map <= 2 * count map)) ->
    (exists k : nat, slot_count map' = n * 2 ^ Z.of_nat k) /\
    (slot_count map' = n \/ slot_count map' / 2 * 3 / 4 <= count map') /\
    (capacity map' = 0 \/ capacity map' = 16 \/
     capacity map' <= 2 * count map').
Proof.
  induction kvs as [|[k v] kvs IH]; intros map map' I Hmax Hrun G; simpl in *.
  - by injection Hrun as <-.
  - destruct (trashmap_set map k v) as [m1|] eqn:Hset; simpl in Hrun; [|done].
    destruct (set_sizes _ _ _ _ I Hset) as (Hc & Hsc & Hcap).
    destruct (trashmap_set_spec map k v I) as (m & Hm & _ & HI & _).
    assert (m = m1) as -> by congruence. specialize (HI ltac:(lia)).
    apply (IH m1 map' HI ltac:(lia) Hrun).
    destruct G as ([j Hj] & Hload & Hfill). split_and!.
    + destruct Hsc as [->|[-> _]]; [by exists j|].
      exists (S j). rewrite Hj, Nat2Z.inj_succ, Z.pow_succ_r by lia. lia.
    + destruct Hsc as [->|[-> Hfull]].
      * destruct Hload; [by left|right; lia].
      * right. replace (2 * slot_count map / 2) with (slot_count map)
          by (rewrite Z.mul_comm, Z.div_mul; lia). lia.
    + lia.
Qed.

(** X14. Tables that only grow by [trashmap_set] stay within a constant
    factor of their contents: after [trashmap_init(n)] and any sequence of
    [trashmap_set] calls, [slot_count] is [n] doubled some number of times
    and, unless it is still [n], the load of the table at half that size
    has been reached ([slot_count / 2 * 3 / 4 <= count]); [capacity] is 0,
    16 or at most twice [count]. *)
Theorem sets_growth_bound (n : Z) (kvs : list (cstring * ptr))
    (map : trashmap_t) :
  1 <= n < 2 ^ 61 -> Z.of_nat (length kvs) <= UINT32_MAX ->
  (do m <- trashmap_init n; set_all m kvs) = Done map ->
  (exists k : nat, slot_count map = n * 2 ^ Z.of_nat k) /\
  (slot_count map = n \/ slot_count map / 2 * 3 / 4 <= count map) /\
  (capacity map = 0 \/ capacity map = 16 \/ capacity map <= 2 * count map).
Proof.
  intros Hn Hlen.
  destruct (trashmap_init n) as [m0|] eqn:Hinit; cbn [obind]; [|done].
  destruct (trashmap_init_Done n m0 Hn Hinit) as (_ & -> & I).
  intros Hrun. apply (set_all_growth n kvs _ _ I); [simpl; lia|done|].
  simpl. split_and!; [exists 0%nat; simpl; lia|by left|by left].
Qed.

Lemma sets_growth_bound_witness :
  exists map,
    (do m <- trashmap_init 1; set_all m example_sets) = Done map /\
    (exists k : nat, slot_count map = 1 * 2 ^ Z.of_nat k) /\
    (slot_count map = 1 \/ slot_count map / 2 * 3 / 4 <= count map) /\
    (capacity map = 0 \/ capacity map = 16 \/ capacity map <= 2 * count map).
Proof.
  eexists.
  assert ((do m <- trashmap_init 1; set_all m example_sets) = Done _) as Hrun
    by (vm_compute; reflexivity).
  split; [exact Hrun|].
  apply (sets_growth_bound 1 example_sets _); [split; [lia|reflexivity]| |exact Hrun].
  vm_compute. discriminate.
Defined.

Lemma reserve_items_grows (map map' : trashmap_t) (extra : Z) :
  weak_inv map -> reserve_items map extra = Done map' ->
  capacity map <= capacity map'.
Proof.
  intros W. unfold reserve_items.
  pose proof (w_count _ W) as Hc. pose proof (w_capacity _ W) as Hcap.
  destruct (Z.gtb_spec (usize (count map + extra)) (capacity map)) as [Hgt|Hle].
  2:{ by intros [= <-]. }
  cbv zeta.
  destruct (grow_capacity grow_fuel (count map) extra
              (if capacity map =? 0 then 16 else capacity map))
    as [cap'|] eqn:Hgrow; [|done].
  cbn [obind].
  assert (exists k : nat,
    (if capacity map =? 0 then 16 else capacity map) = 16 * 2 ^ Z.of_nat k)
    as [k Hk].
  { destruct (Z.eqb_spec (capacity map) 0) as [|Hne]; [by exists 0%nat|].
    by destruct (w_capacity_shape _ W). }
  apply grow_capacity_shape in Hgrow as (Hneed & j & Hj).
  2:{ destruct (Z.eqb_spec (capacity map) 0); pow2; lia. }
  rewrite Hk in Hj.
  assert (capacity map <= cap') as Hmono.
  { assert (capacity map <= 16 * 2 ^ Z.of_nat k) as Hle0
      by (rewrite <- Hk; destruct (Z.eqb_spec (capacity map) 0); lia).
    assert (16 * 2 ^ Z.of_nat k <= 16 * 2 ^ Z.of_nat (k + j)) as Hle1.
    { apply Z.mul_le_mono_nonneg_l; [lia|].
      apply Z.pow_le_mono_r; lia. }
    destruct (doubled_capacity_cases k j) as [H0|[[Heq _]|[Heq _]]];
      rewrite <- Hj in *; lia. }
  destruct (TRASHMAP_REALLOC _ _); [|done]. by intros [= <-].
Qed.

Lemma reserve_slots_cases (map map' : trashmap_t) (extra : Z) :
  weak_inv map -> reserve_slots map extra = Done map' ->
  capacity map' = capacity map /\ count map' = count map /\
  (slot_count map' = slot_count map \/
   slot_count map' = 2 * slot_count map).
Proof.
  intros W. unfold reserve_slots.
  pose proof (w_slot_count _ W) as Hsc.
  destruct (_ >? _).
  2:{ intros [= <-]. split_and!; [done|done|by left]. }
  cbv zeta.
  destruct (memset_alloc _ _ _) as [r|] eqn:Hr; cbn [obind]; [|done].
  apply fresh_slots in Hr as ->; [|apply usize_range].
  destruct (rehash_for _ _ _ _ _) as [nl|] eqn:Hrun; [|done].
  cbn [obind]. intros [= <-]. simpl. split_and!; [done|done|right].
  apply (rehash_for_inv map _ _ 0%nat) in Hrun as (Hlen & _).
  pose proof (w_slots_len _ W) as Hsl.
  pose proof (Z.mod_pos_bound (slot_count map) (2 ^ 61) ltac:(done)) as Hm.
  rewrite usize_small; pow2; lia.
Qed.

Lemma set_cases (map map' : trashmap_t) (key : cstring) (value : ptr) :
  trashmap_set map key value = Done map' ->
  exists map1, trashmap_reserve map 1 = Done map1 /\
    slot_count map' = slot_count map1 /\ capacity map' = capacity map1 /\
    (count map' = count map1 \/ count map' = usize (count map1 + 1)).
Proof.
  unfold trashmap_set.
  destruct (trashmap_reserve map 1) as [map1|]; simpl; [|done].
  intros Hrun. exists map1. split; [done|].
  destruct (slot_count map1 =? 0); [done|].
  rewrite set_loop_probe in Hrun.
  destruct (probe _ _ _ _ _ _) as [[idx bidx it|idx|]|]; simpl in Hrun; try done.
  - destruct (write (items map1) bidx _); simpl in Hrun; [|done].
    injection Hrun as <-. simpl. tauto.
  - destruct (write (items map1) (count map1) _); simpl in Hrun; [|done].
    destruct (write (slots map1) idx _); simpl in Hrun; [|done].
    injection Hrun as <-. simpl. tauto.
Qed.

(** X15. No public operation shrinks the table. Whatever the arguments,
    when a call returns, [slot_count] and [capacity] are at least what
    they were; [count] is changed by [trashmap_set] only, which adds at
    most one, and by [trashmap_clear], which makes it zero. *)
Theorem table_never_shrinks (ops : list op) (map map' : trashmap_t) (o : op) :
  runs ops map -> op_typed o -> apply_op map o = Done map' ->
  slot_count map <= slot_count map' /\
  capacity map <= capacity map' /\
  match o with
  | op_set _ _ => count map <= count map' <= count map + 1
  | op_clear => count map' = 0
  | _ => count map' = count map
  end.
Proof.
  intros Hruns Htyped Hstep. pose proof (runs_weak_inv _ _ Hruns) as W.
  pose proof (w_slot_count _ W) as Hsc. pose proof (w_count _ W) as Hc.
  assert (forall extra m, trashmap_reserve map extra = Done m ->
            slot_count map <= slot_count m /\ capacity map <= capacity m /\
            count m = count map /\ weak_inv m /\
            usize (count map + extra) <= capacity m) as Hres.
  { intros extra m Hrun.
    destruct (weak_inv_reserve _ _ _ W Hrun) as (Wm & _ & Hroom & _).
    unfold trashmap_reserve in Hrun.
    destruct (reserve_items map extra) as [m1|] eqn:H1; simpl in Hrun; [|done].
    pose proof (reserve_items_grows _ _ _ W H1) as Hg.
    destruct (weak_inv_reserve_items _ _ _ W H1) as (W1 & _ & Hc1 & Hsc1 & _).
    destruct (reserve_slots_cases _ _ _ W1 Hrun) as (Hcap & Hcount & Hcases).
    split_and!; [lia|lia|congruence|done|done]. }
  destruct o as [key value|extra| |key|key]; simpl in Hstep.
  - apply set_cases in Hstep as (m1 & Hrun & -> & -> & Hcount).
    destruct (Hres 1 m1 Hrun) as (? & ? & Hc1 & W1 & _).
    destruct (weak_inv_set_room _ _ W Hrun) as (_ & _ & Hroom & _).
    pose proof (w_capacity _ W1).
    rewrite Hc1, (usize_small (count map + 1)) in Hcount by (pow2; lia).
    split_and!; try done; lia.
  - destruct (Hres extra map' Hstep) as (? & ? & ? & _). done.
  - unfold trashmap_clear in Hstep.
    destruct (trashmap_memset _ _ _); simpl in Hstep; [|done].
    injection Hstep as <-. simpl. split_and!; [lia|lia|done].
  - destruct (trashmap_get map key); simpl in Hstep; [|done].
    injection Hstep as <-. split_and!; [lia|lia|done].
  - destruct (trashmap_has map key); simpl in Hstep; [|done].
    injection Hstep as <-. split_and!; [lia|lia|done].
Qed.

Lemma table_never_shrinks_witness :
  exists map',
    trashmap_reserve example_table 100 = Done map' /\
    slot_count example_table <= slot_count map' /\
    capacity example_table <= capacity map' /\
    count map' = count example_table.
Proof.
  eexists.
  assert (trashmap_reserve example_table 100 = Done _) as Hrun
    by (vm_compute; reflexivity).
  split; [exact Hrun|].
  apply (table_never_shrinks _ example_table _ (op_reserve 100)
           (reaches_runs _ _ example_table_reaches)); [|exact Hrun].
  vm_compute. split; discriminate.
Defined.

(** ** trashmap_memset *)

Lemma memset_loop_spec (byte count : Z) :
  0 <= count <= SIZE_MAX ->
  forall (fuel : nat) (d : list Z) (i : Z),
    0 <= i <= count -> count - i <= Z.of_nat fuel ->
    count <= Z.of_nat (length d) ->
    memset_loop fuel d byte count i =
    Done (take (Z.to_nat i) d ++ replicate (Z.to_nat (count - i)) byte
            ++ drop (Z.to_nat count) d).
Proof.
  intros Hcount. induction fuel as [|fuel IH]; intros d i Hi Hfuel Hlen;
    cbn [memset_loop].
  - destruct (Z.ltb_spec i count); [lia|].
    assert (i = count) as -> by lia. rewrite Z.sub_diag. simpl.
    by rewrite take_drop.
  - destruct (Z.ltb_spec i count) as [Hlt|Hge].
    2:{ assert (i = count) as -> by lia. rewrite Z.sub_diag. simpl.
        by rewrite take_drop. }
    unfold write. destruct (Z.leb_spec (Z.of_nat (length d)) i); [lia|].
    cbn [obind]. rewrite usize_small by (pow2; lia).
    rewrite IH by (rewrite ?length_insert; lia). f_equal.
    replace (Z.to_nat (i + 1)) with (S (Z.to_nat i)) by lia.
    replace (Z.to_nat (count - i)) with (S (Z.to_nat (count - (i + 1)))) by lia.
    rewrite (take_S_r _ _ byte) by (apply list_lookup_insert_eq; lia).
    rewrite take_insert_ge by lia.
    rewrite drop_insert_lt by lia.
    by rewrite <- app_assoc.
Qed.

Lemma memset_loop_overrun (byte count : Z) :
  0 <= count <= SIZE_MAX ->
  forall (fuel : nat) (d : list Z) (i : Z),
    0 <= i <= Z.of_nat (length d) -> count - i <= Z.of_nat fuel ->
    Z.of_nat (length d) < count ->
    memset_loop fuel d byte count i = Fault undefined_behaviour.
Proof.
  intros Hcount. induction fuel as [|fuel IH]; intros d i Hi Hfuel Hlen;
    cbn [memset_loop].
  - lia.
  - destruct (Z.ltb_spec i count) as [Hlt|Hge]; [|lia].
    unfold write. destruct (Z.leb_spec (Z.of_nat (length d)) i); [done|].
    cbn [obind]. rewrite usize_small by (pow2; lia).
    apply IH; rewrite ?length_insert; lia.
Qed.

Lemma memset_bytes_result (dest : list Z) (byte count : Z) :
  0 <= count <= SIZE_MAX ->
  trashmap_memset_bytes dest byte count =
    if count <=? Z.of_nat (length dest) then
      Done (replicate (Z.to_nat count) byte ++ drop (Z.to_nat count) dest)
    else Fault undefined_behaviour.
Proof.
  intros Hcount. unfold trashmap_memset_bytes.
  destruct (Z.leb_spec count (Z.of_nat (length dest))) as [Hle|Hgt].
  - rewrite (memset_loop_spec byte count Hcount) by lia.
    by rewrite Z.sub_0_r.
  - apply (memset_loop_overrun byte count Hcount); lia.
Qed.

(** X16. [trashmap_memset(dest, byte, count)] writes [byte] into the first
    [count] bytes of the array and leaves the others as they were; when
    the array has fewer than [count] bytes the loop writes past its end,
    which is undefined. *)
Theorem trashmap_memset_bytes_spec (dest : list Z) (byte count : Z) :
  0 <= count <= SIZE_MAX ->
  trashmap_memset_bytes dest byte count =
    if count <=? Z.of_nat (length dest) then
      Done (replicate (Z.to_nat count) byte ++ drop (Z.to_nat count) dest)
    else Fault undefined_behaviour.
Proof. apply memset_bytes_result. Qed.

Lemma trashmap_memset_bytes_spec_witness :
  trashmap_memset_bytes [1; 2; 3; 4] 255 3 = Done [255; 255; 255; 4].
Proof.
  apply (trashmap_memset_bytes_spec [1; 2; 3; 4] 255 3).
  vm_compute. split; discriminate.
Defined.

Lemma u32_bytes_filled (byte : Z) :
  0 <= byte < 256 -> u32_bytes (byte * 16843009) = [byte; byte; byte; byte].
Proof.
  intros Hb. unfold u32_bytes.
  repeat f_equal; Z.div_mod_to_equations; lia.
Qed.

Lemma slots_bytes_length (sl : list trashmap_slot_t) :
  length (slots_bytes sl) = (8 * length sl)%nat.
Proof. induction sl as [|s sl IH]; simpl; lia. Qed.

Lemma slots_bytes_filled (byte : Z) (n : nat) :
  0 <= byte < 256 ->
  slots_bytes (replicate n (filled_slot byte)) = replicate (8 * n) byte.
Proof.
  intros Hb. induction n as [|n IH]; [done|].
  replace (8 * S n)%nat with (8 + 8 * n)%nat by lia.
  cbn [replicate slots_bytes]. rewrite IH. unfold slot_bytes, filled_slot.
  cbn [Slot.hash Slot.index]. rewrite u32_bytes_filled by done. done.
Qed.

Lemma slots_bytes_app (a b : list trashmap_slot_t) :
  slots_bytes (a ++ b) = slots_bytes a ++ slots_bytes b.
Proof.
  induction a as [|s a IH]; [done|].
  rewrite <- app_comm_cons. cbn [slots_bytes]. by rewrite IH, app_assoc.
Qed.

Lemma slots_bytes_drop (n : nat) (sl : list trashmap_slot_t) :
  drop (8 * n) (slots_bytes sl) = slots_bytes (drop n sl).
Proof.
  revert sl. induction n as [|n IH]; intros sl; [done|].
  destruct sl as [|s sl]; [done|].
  replace (8 * S n)%nat with (8 + 8 * n)%nat by lia.
  cbn [slots_bytes drop]. rewrite <- IH. done.
Qed.

(** X17. The slot arrays of the table are set by [trashmap_memset] with
    whole slots: filling the first [n] slots of a slot array byte by byte
    gives the bytes of [n] slots whose two fields are [byte * 0x01010101]
    followed by the other slots unchanged, and is undefined exactly when
    the array has fewer than [n] slots. With [0xFF] both fields are
    [UINT32_MAX], the mark of an empty slot. *)
Theorem trashmap_memset_slots (dest : list trashmap_slot_t) (byte n : Z) :
  0 <= byte < 256 -> 0 <= n -> n * sizeof_slot <= SIZE_MAX ->
  trashmap_memset_bytes (slots_bytes dest) byte (n * sizeof_slot) =
    (do sl <- trashmap_memset dest byte (n * sizeof_slot);
     Done (slots_bytes sl)) /\
  filled_slot 255 = empty_slot.
Proof.
  intros Hb Hn Hmax. split; [|done]. unfold sizeof_slot in *.
  rewrite memset_bytes_result by lia.
  unfold trashmap_memset, sizeof_slot. rewrite slots_bytes_length.
  rewrite Z.div_mul by done.
  destruct (Z.leb_spec (n * 8) (Z.of_nat (8 * length dest))) as [Hle|Hgt];
    destruct (Z.ltb_spec (Z.of_nat (length dest)) n) as [Hlt|Hge]; try lia;
    [|done].
  cbn [obind]. f_equal.
  rewrite slots_bytes_app, slots_bytes_filled by done.
  replace (Z.to_nat (n * 8)) with (8 * Z.to_nat n)%nat by lia.
  by rewrite slots_bytes_drop.
Qed.

Lemma trashmap_memset_slots_witness :
  trashmap_memset_bytes (slots_bytes [mk_slot 7 0; mk_slot 9 1]) 255
    (1 * sizeof_slot) =
    (do sl <- trashmap_memset [mk_slot 7 0; mk_slot 9 1] 255 (1 * sizeof_slot);
     Done (slots_bytes sl)) /\
  filled_slot 255 = empty_slot.
Proof.
  apply (trashmap_memset_slots [mk_slot 7 0; mk_slot 9 1] 255 1);
    [lia|lia|pow2; lia].
Defined.

(** ** The allocator *)

Lemma filter_ne_id (b : nat) (l : list nat) :
  b ∉ l -> filter (fun q => q <> b) l = l.
Proof.
  induction l as [|x l IH]; intros Hb; [done|].
  apply not_elem_of_cons in Hb as [Hne Hb].
  rewrite filter_cons_True by done. by rewrite IH.
Qed.

Lemma malloc_spec (h : heap) (rest : list nat) :
  heap_wf h -> live h ≡ₚ rest ->
  heap_wf (fst (malloc h)) /\
  live (fst (malloc h)) ≡ₚ snd (malloc h) :: rest /\
  snd (malloc h) ∉ rest.
Proof.
  intros [Hnd Hlt] Hperm. simpl.
  assert (next h ∉ live h) as Hfresh.
  { intros Hin. apply Hlt in Hin. lia. }
  split_and!.
  - split; simpl.
    + by apply NoDup_cons.
    + intros b [->|Hb]%elem_of_cons; [lia|]. apply Hlt in Hb. lia.
  - by rewrite Hperm.
  - by rewrite <- Hperm.
Qed.

Lemma free_spec (h : heap) (b : nat) (rest : list nat) :
  heap_wf h -> live h ≡ₚ b :: rest ->
  exists h', free h b = Done h' /\ heap_wf h' /\ live h' ≡ₚ rest.
Proof.
  intros [Hnd Hlt] Hperm. unfold free.
  assert (b ∈ live h) as Hin by (rewrite Hperm; left).
  rewrite bool_decide_eq_true_2 by done.
  eexists. split; [done|]. split; [split|]; simpl.
  - by apply NoDup_filter.
  - intros x [_ Hx]%list_elem_of_filter. by apply Hlt.
  - rewrite Hperm in Hnd. apply NoDup_cons in Hnd as [Hb _].
    rewrite Hperm, filter_cons_False by (intros Hne; by apply Hne).
    by rewrite filter_ne_id.
Qed.

Lemma free_removes (h h' : heap) (b : nat) :
  free h b = Done h' ->
  (b ∉ live h') /\ (forall x, x ∈ live h' -> x ∈ live h).
Proof.
  unfold free. destruct (bool_decide _); [|done]. intros [= <-]. simpl. split.
  - intros [Hne _]%list_elem_of_filter. by apply Hne.
  - by intros x [_ Hx]%list_elem_of_filter.
Qed.

(** ** The table in memory *)

Lemma grow_capacity_exit (fuel : nat) (count extra cap cap' : Z) :
  grow_capacity fuel count extra cap = Done cap' ->
  usize (count + extra) <= cap'.
Proof.
  revert cap. induction fuel as [|fuel IH]; intros cap; simpl;
    destruct (Z.gtb_spec (usize (count + extra)) cap); try done;
    try (intros [= <-]; lia).
  apply IH.
Qed.

Lemma reserve_items_Done (map map1 : trashmap_t) (extra : Z) :
  0 <= capacity map -> reserve_items map extra = Done map1 ->
  if usize (count map + extra) >? capacity map then
    0 < capacity map1 /\
    (capacity map <> 0 -> usize (capacity map1 * sizeof_item) <> 0) /\
    count map1 = count map /\ slot_count map1 = slot_count map
  else map1 = map.
Proof.
  intros Hcap. unfold reserve_items.
  destruct (Z.gtb_spec (usize (count map + extra)) (capacity map)) as [Hgt|Hle].
  2:{ by intros [= <-]. }
  cbv zeta.
  destruct (grow_capacity _ _ _ _) as [cap'|] eqn:Hgrow; cbn [obind]; [|done].
  apply grow_capacity_exit in Hgrow.
  destruct (TRASHMAP_REALLOC _ _) as [its|] eqn:Hre; [|done].
  intros [= <-]. simpl. split_and!; try done; [lia|].
  intros Hnz Hz. unfold TRASHMAP_REALLOC, items_pointer in Hre.
  rewrite Hz in Hre. destruct (0 >? PTRDIFF_MAX); [done|].
  by destruct (Z.eqb_spec (capacity map) 0).
Qed.

Lemma reserve_slots_Done (map map2 : trashmap_t) (extra : Z) :
  reserve_slots map extra = Done map2 -> capacity map2 = capacity map.
Proof.
  unfold reserve_slots. destruct (_ >? _); [|by intros [= <-]].
  cbv zeta. destruct (memset_alloc _ _ _) as [[nl|]|]; cbn [obind]; [|done..].
  destruct (rehash_for _ _ _ _ _); cbn [obind]; [|done].
  by intros [= <-].
Qed.

Lemma mem_inv_parts (h0 : heap) (m : trashmap_mem) :
  mem_inv h0 m ->
  exists p, slots_ptr m = Some p /\
    live (mem_heap m) ≡ₚ p :: option_list (items_ptr m) ++ live h0.
Proof.
  intros [_ Hlive Hslots _ _]. unfold blocks_of in Hlive.
  destruct (slots_ptr m) as [p|]; [|done]. exists p. split; [done|].
  by rewrite Hlive.
Qed.

Lemma reserve_mem_inv (h0 : heap) (m : trashmap_mem) (extra : Z)
    (map' : trashmap_t) :
  mem_inv h0 m -> trashmap_reserve (fields m) extra = Done map' ->
  exists m', reserve_mem m extra = Done m' /\ fields m' = map' /\
    mem_inv h0 m'.
Proof.
  intros I. destruct (mem_inv_parts _ _ I) as (p & Hp & Hlive).
  pose proof (mi_wf _ _ I) as Hwf. pose proof (mi_items _ _ I) as Hitems.
  pose proof (mi_capacity _ _ I) as Hcap.
  unfold trashmap_reserve, reserve_mem. cbv zeta.
  destruct (reserve_items (fields m) extra) as [map1|] eqn:H1; cbn [obind];
    [|done].
  pose proof (reserve_items_Done _ _ _ Hcap H1) as Hcase.
  intros H2. rewrite H2. pose proof (reserve_slots_Done _ _ _ H2) as Hcap2.
  (* the arena *)
  assert (exists h1 q1,
    (if usize (count (fields m) + extra) >? capacity (fields m) then
       realloc (mem_heap m) (items_ptr m) (usize (capacity map1 * sizeof_item))
     else Done (mem_heap m, items_ptr m)) = Done (h1, q1) /\
    heap_wf h1 /\ live h1 ≡ₚ p :: option_list q1 ++ live h0 /\
    (q1 = None <-> capacity map1 = 0) /\ 0 <= capacity map1)
    as (h1 & q1 & -> & Hwf1 & Hlive1 & Hq1 & Hcap1).
  { destruct (_ >? _).
    2:{ subst map1. by exists (mem_heap m), (items_ptr m). }
    destruct Hcase as (Hpos & Hsize & _).
    unfold realloc. destruct (items_ptr m) as [q|] eqn:Hq.
    - assert (live (mem_heap m) ≡ₚ q :: p :: live h0) as Hlq
        by (rewrite Hlive; simpl; apply perm_swap).
      destruct (free_spec _ _ _ Hwf Hlq) as (h' & -> & Hwf' & Hlive').
      cbn [obind].
      destruct (Z.eqb_spec (usize (capacity map1 * sizeof_item)) 0) as [Hz|_].
      { exfalso. apply Hsize; [|done]. intros Hc. by apply Hitems in Hc. }
      destruct (malloc_spec h' _ Hwf' Hlive') as (Hwf1 & Hlive1 & _).
      destruct (malloc h') as [h1 n]. exists h1, (Some n). simpl in *.
      split_and!; [done|done| | |lia].
      + rewrite Hlive1. apply perm_swap.
      + split; [done|lia].
    - destruct (malloc_spec _ _ Hwf Hlive) as (Hwf1 & Hlive1 & _).
      destruct (malloc (mem_heap m)) as [h1 n]. exists h1, (Some n).
      simpl in *. split_and!; [done|done| | |lia].
      + rewrite Hlive1. apply perm_swap.
      + split; [done|lia]. }
  cbn [obind fst snd].
  (* the slots *)
  destruct (usize (count map1 + extra) >? usize (slot_count map1 * 3) / 4).
  - destruct (malloc_spec h1 _ Hwf1 Hlive1) as (Hwf2 & Hlive2 & Hfresh).
    destruct (malloc h1) as [h2 n]. simpl in *. rewrite Hp. simpl.
    assert (live h2 ≡ₚ p :: n :: option_list q1 ++ live h0) as Hl2
      by (rewrite Hlive2; apply perm_swap).
    destruct (free_spec _ _ _ Hwf2 Hl2) as (h3 & -> & Hwf3 & Hlive3).
    cbn [obind]. eexists. split; [done|]. split; [done|].
    split; simpl; try done; try congruence; try lia.
  - eexists. split; [done|]. split; [done|].
    split; simpl; try done; try congruence; try lia.
    unfold blocks_of. simpl. by rewrite Hp.
Qed.

Lemma reserve_mem_fields (m m' : trashmap_mem) (extra : Z) :
  reserve_mem m extra = Done m' ->
  trashmap_reserve (fields m) extra = Done (fields m').
Proof.
  unfold reserve_mem, trashmap_reserve. cbv zeta.
  destruct (reserve_items (fields m) extra) as [map1|]; cbn [obind]; [|done].
  destruct (if _ >? _ then _ else _) as [hp|]; cbn [obind]; [|done].
  destruct (reserve_slots map1 extra) as [map2|]; cbn [obind]; [|done].
  destruct (_ >? _).
  - destruct (malloc (fst hp)) as [h n].
    destruct (free_ptr h (slots_ptr m)); cbn [obind]; [|done].
    by intros [= <-].
  - by intros [= <-].
Qed.

Lemma apply_op_mem_inv (h0 : heap) (m : trashmap_mem) (o : op)
    (map' : trashmap_t) :
  mem_inv h0 m -> apply_op (fields m) o = Done map' ->
  exists m', apply_op_mem m o = Done m' /\ fields m' = map' /\
    mem_inv h0 m'.
Proof.
  intros I Hstep.
  assert (forall map, capacity map = capacity (fields m) ->
            mem_inv h0 (mk_mem (mem_heap m) (slots_ptr m) (items_ptr m) map))
    as Hsame.
  { intros map Hcap. destruct I as [Hwf Hlive Hslots Hitems Hc].
    split; simpl; try done; by rewrite Hcap. }
  destruct o as [key value|extra| |key|key]; simpl in *.
  - destruct (set_cases _ _ _ _ Hstep) as (map1 & Hres & _ & Hcap & _).
    destruct (reserve_mem_inv _ _ _ _ I Hres) as (m1 & Hrun & Hf1 & I1).
    unfold set_mem. rewrite Hrun, Hstep. cbn [obind].
    eexists. split; [done|]. split; [done|].
    destruct I1 as [Hwf Hlive Hslots Hitems Hc]. subst map1.
    split; simpl; try done; by rewrite Hcap.
  - by apply reserve_mem_inv.
  - rewrite Hstep. cbn [obind]. eexists. split; [done|]. split; [done|].
    apply Hsame. unfold trashmap_clear in Hstep.
    destruct (trashmap_memset _ _ _); simpl in Hstep; [|done].
    by injection Hstep as <-.
  - rewrite Hstep. cbn [obind]. eexists. split; [done|]. split; [done|].
    apply Hsame. destruct (trashmap_get _ _); simpl in Hstep; [|done].
    by injection Hstep as <-.
  - rewrite Hstep. cbn [obind]. eexists. split; [done|]. split; [done|].
    apply Hsame. destruct (trashmap_has _ _); simpl in Hstep; [|done].
    by injection Hstep as <-.
Qed.

Lemma apply_op_mem_fields (m m' : trashmap_mem) (o : op) :
  apply_op_mem m o = Done m' -> apply_op (fields m) o = Done (fields m').
Proof.
  destruct o as [key value|extra| |key|key]; simpl.
  - unfold set_mem. destruct (reserve_mem m 1); cbn [obind]; [|done].
    destruct (trashmap_set _ _ _); cbn [obind]; [|done]. by intros [= <-].
  - apply reserve_mem_fields.
  - destruct (trashmap_clear _); cbn [obind]; [|done]. by intros [= <-].
  - destruct (trashmap_get _ _); cbn [obind]; [|done]. by intros [= <-].
  - destruct (trashmap_has _ _); cbn [obind]; [|done]. by intros [= <-].
Qed.

Lemma run_mem_inv (h0 : heap) (ops : list op) :
  forall (m : trashmap_mem) (map' : trashmap_t),
    mem_inv h0 m -> run_ops (fields m) ops = Done map' ->
    exists m', run_mem m ops = Done m' /\ fields m' = map' /\ mem_inv h0 m'.
Proof.
  induction ops as [|o ops IH]; intros m map' I; simpl.
  - intros [= <-]. by exists m.
  - destruct (apply_op (fields m) o) as [map1|] eqn:Hstep; cbn [obind]; [|done].
    destruct (apply_op_mem_inv _ _ _ _ I Hstep) as (m1 & -> & <- & I1).
    cbn [obind]. by apply IH.
Qed.

Lemma run_mem_fields (ops : list op) :
  forall m m' : trashmap_mem,
    run_mem m ops = Done m' -> run_ops (fields m) ops = Done (fields m').
Proof.
  induction ops as [|o ops IH]; intros m m'; simpl.
  - by intros [= <-].
  - destruct (apply_op_mem m o) as [m1|] eqn:Hstep; cbn [obind]; [|done].
    rewrite (apply_op_mem_fields _ _ _ Hstep). cbn [obind]. apply IH.
Qed.

Lemma init_mem_inv (h0 : heap) (n : Z) (map : trashmap_t) :
  heap_wf h0 -> trashmap_init n = Done map ->
  exists m, init_mem h0 n = Done m /\ fields m = map /\ mem_inv h0 m.
Proof.
  intros Hwf Hinit. unfold init_mem. rewrite Hinit. cbn [obind].
  destruct (malloc_spec h0 (live h0) Hwf ltac:(done)) as (Hwf1 & Hlive1 & _).
  destruct (malloc h0) as [h1 p]. simpl in *.
  eexists. split; [done|]. split; [done|].
  assert (capacity map = 0) as Hcap.
  { unfold trashmap_init in Hinit. destruct (n =? 0); [done|].
    cbv zeta in Hinit.
    destruct (memset_alloc _ _ _) as [[sl|]|]; simpl in Hinit; [|done..].
    by injection Hinit as <-. }
  split; simpl; try done. lia.
Qed.

Lemma init_mem_fields (h0 : heap) (n : Z) (m : trashmap_mem) :
  init_mem h0 n = Done m -> trashmap_init n = Done (fields m).
Proof.
  unfold init_mem. destruct (trashmap_init n); cbn [obind]; [|done].
  destruct (malloc h0). by intros [= <-].
Qed.

Lemma run_from_init_inv (h0 : heap) (n : Z) (ops : list op) (m : trashmap_mem) :
  heap_wf h0 -> (do m <- init_mem h0 n; run_mem m ops) = Done m ->
  mem_inv h0 m.
Proof.
  intros Hwf Hrun.
  destruct (init_mem h0 n) as [m0|] eqn:Hinit; cbn [obind] in Hrun; [|done].
  destruct (init_mem_inv h0 n _ Hwf (init_mem_fields _ _ _ Hinit))
    as (m0' & Hinit' & _ & I0).
  assert (m0' = m0) as -> by congruence.
  destruct (run_mem_inv h0 ops m0 _ I0 (run_mem_fields _ _ _ Hrun))
    as (m' & Hrun' & _ & I).
  congruence.
Qed.

(** X18. The library uses the allocator correctly and keeps no block
    behind. Whenever [trashmap_init] and a sequence of public operations
    return, every block the calls released or resized was allocated at the
    time; afterwards, besides the blocks that were allocated before
    [trashmap_init], exactly the blocks that [map->slots] and [map->items]
    point to are allocated (a slot array that was replaced has been
    released), [map->slots] is not [NULL], and [map->items] is [NULL]
    exactly when [capacity] is zero. *)
Theorem table_owns_its_blocks (h0 : heap) (n : Z) (ops : list op)
    (map : trashmap_t) :
  heap_wf h0 ->
  (do map <- trashmap_init n; run_ops map ops) = Done map ->
  exists m,
    (do m <- init_mem h0 n; run_mem m ops) = Done m /\
    fields m = map /\
    NoDup (live (mem_heap m)) /\
    live (mem_heap m) ≡ₚ blocks_of m ++ live h0 /\
    slots_ptr m <> None /\
    (items_ptr m = None <-> capacity map = 0).
Proof.
  intros Hwf Hrun.
  destruct (trashmap_init n) as [map0|] eqn:Hinit; cbn [obind] in Hrun; [|done].
  destruct (init_mem_inv h0 n _ Hwf Hinit) as (m0 & -> & <- & I0).
  cbn [obind].
  destruct (run_mem_inv h0 ops m0 _ I0 Hrun) as (m & -> & <- & I).
  exists m. destruct I as [[Hnd _] Hlive Hslots Hitems _]. done.
Qed.

Lemma table_owns_its_blocks_witness :
  exists m,
    (do m <- init_mem empty_heap 1;
     run_mem m [op_set hello (Some world); op_set world None;
                op_set there (Some hello)]) = Done m /\
    NoDup (live (mem_heap m)) /\
    live (mem_heap m) ≡ₚ blocks_of m ++ live empty_heap.
Proof.
  assert (heap_wf empty_heap) as Hwf.
  { split; [constructor|]. intros b Hb. by apply elem_of_nil in Hb. }
  assert (exists map,
    (do map <- trashmap_init 1;
     run_ops map [op_set hello (Some world); op_set world None;
                  op_set there (Some hello)]) = Done map) as [map Hrun]
    by (eexists; vm_compute; reflexivity).
  destruct (table_owns_its_blocks empty_heap 1 _ map Hwf Hrun)
    as (m & Hm & _ & Hnd & Hlive & _).
  exists m. split; [exact Hm|]. split; [exact Hnd|exact Hlive].
Defined.

(** X19. [trashmap_deinit] releases everything: after [trashmap_init] and
    any sequence of public operations that returned, [trashmap_deinit]
    returns, and the blocks allocated afterwards are those that were
    allocated before [trashmap_init]. It does not write the fields of the
    table, which keep pointing to the released blocks. *)
Theorem deinit_releases_all (h0 : heap) (n : Z) (ops : list op)
    (m : trashmap_mem) :
  heap_wf h0 ->
  (do m <- init_mem h0 n; run_mem m ops) = Done m ->
  exists m',
    trashmap_deinit m = Done m' /\
    live (mem_heap m') ≡ₚ live h0 /\
    slots_ptr m' = slots_ptr m /\ items_ptr m' = items_ptr m /\
    fields m' = fields m.
Proof.
  intros Hwf Hrun. pose proof (run_from_init_inv _ _ _ _ Hwf Hrun) as I.
  destruct (mem_inv_parts _ _ I) as (p & Hp & Hlive).
  unfold trashmap_deinit. rewrite Hp.
  destruct (free_spec _ _ _ (mi_wf _ _ I) Hlive) as (h1 & -> & Hwf1 & Hlive1).
  cbn [obind]. destruct (items_ptr m) as [q|]; simpl in Hlive1.
  - destruct (free_spec _ _ _ Hwf1 Hlive1) as (h2 & -> & _ & Hlive2).
    cbn [obind]. by eexists.
  - by eexists.
Qed.

Lemma deinit_releases_all_witness :
  exists m m',
    (do m <- init_mem empty_heap 4;
     run_mem m [op_set hello (Some world)]) = Done m /\
    trashmap_deinit m = Done m' /\
    live (mem_heap m') ≡ₚ live empty_heap.
Proof.
  assert (heap_wf empty_heap) as Hwf.
  { split; [constructor|]. intros b Hb. by apply elem_of_nil in Hb. }
  eexists.
  assert ((do m <- init_mem empty_heap 4;
           run_mem m [op_set hello (Some world)]) = Done _) as Hrun
    by (vm_compute; reflexivity).
  destruct (deinit_releases_all empty_heap 4 _ _ Hwf Hrun)
    as (m' & Hd & Hlive & _).
  exists m'. split; [exact Hrun|]. split; [exact Hd|exact Hlive].
Defined.

(** X20. [trashmap_deinit] must not be called twice: since the first call
    leaves [map->slots] pointing to the block it released, a second call
    releases that block again, which is undefined. *)
Theorem deinit_twice_undefined (m m' : trashmap_mem) :
  slots_ptr m <> None -> trashmap_deinit m = Done m' ->
  trashmap_deinit m' = Fault undefined_behaviour.
Proof.
  intros Hp. unfold trashmap_deinit at 1.
  destruct (slots_ptr m) as [p|] eqn:Hslots; [|done].
  destruct (free (mem_heap m) p) as [h1|] eqn:H1; cbn [obind]; [|done].
  destruct (free_removes _ _ _ H1) as [Hgone _].
  assert (forall h2, (match items_ptr m with
                      | Some q => free h1 q
                      | None => Done h1
                      end) = Done h2 -> p ∉ live h2) as Hstill.
  { intros h2. destruct (items_ptr m) as [q|].
    - intros H2 Hin. destruct (free_removes _ _ _ H2) as [_ Hsub]. auto.
    - by intros [= <-]. }
  destruct (match items_ptr m with Some q => _ | None => _ end) as [h2|];
    cbn [obind]; [|done].
  intros [= <-]. unfold trashmap_deinit. simpl. unfold free.
  rewrite bool_decide_eq_false_2 by (by apply Hstill). done.
Qed.

Lemma deinit_twice_undefined_witness :
  exists m m',
    init_mem empty_heap 4 = Done m /\ trashmap_deinit m = Done m' /\
    trashmap_deinit m' = Fault undefined_behaviour.
Proof.
  destruct (init_mem empty_heap 4) as [m|] eqn:Hinit; [|vm_compute in Hinit; discriminate].
  destruct (trashmap_deinit m) as [m'|] eqn:Hd.
  2:{ vm_compute in Hinit. injection Hinit as <-. vm_compute in Hd. discriminate. }
  exists m, m'. split; [reflexivity|]. split; [exact Hd|].
  apply (deinit_twice_undefined m m'); [|exact Hd].
  vm_compute in Hinit. injection Hinit as <-. discriminate.
Defined.

(** ** Reuse after trashmap_clear *)

Lemma reserve_mem_room (m : trashmap_mem) :
  rep_inv (fields m) ->
  count (fields m) + 1 <= capacity (fields m) ->
  count (fields m) + 1 <= slot_count (fields m) * 3 / 4 ->
  reserve_mem m 1 = Done m.
Proof.
  intros I Hcap Hload.
  pose proof (inv_count _ I). pose proof (inv_slot_count _ I).
  assert ((usize (count (fields m) + 1) >? capacity (fields m)) = false) as G1.
  { rewrite usize_small by (pow2; lia). rewrite Z.gtb_ltb. apply Z.ltb_ge. lia. }
  assert ((usize (count (fields m) + 1) >?
           usize (slot_count (fields m) * 3) / 4) = false) as G2.
  { rewrite !usize_small by (pow2; lia).
    rewrite Z.gtb_ltb. apply Z.ltb_ge. lia. }
  assert (reserve_items (fields m) 1 = Done (fields m)) as H1
    by (unfold reserve_items; by rewrite G1).
  assert (reserve_slots (fields m) 1 = Done (fields m)) as H2
    by (unfold reserve_slots; by rewrite G2).
  unfold reserve_mem. cbv zeta. rewrite H1. cbn [obind]. rewrite G1.
  cbn [obind fst snd]. rewrite H2. cbn [obind]. rewrite G2. by destruct m.
Qed.

Lemma sets_reuse_memory (kvs : list (cstring * ptr)) :
  forall m : trashmap_mem,
    rep_inv (fields m) ->
    count (fields m) + Z.of_nat (length kvs) <= capacity (fields m) ->
    count (fields m) + Z.of_nat (length kvs) <= slot_count (fields m) * 3 / 4 ->
    count (fields m) + Z.of_nat (length kvs) <= UINT32_MAX ->
    exists m',
      run_mem m (List.map (fun kv => op_set (fst kv) (snd kv)) kvs) = Done m' /\
      mem_heap m' = mem_heap m /\ slots_ptr m' = slots_ptr m /\
      items_ptr m' = items_ptr m /\
      capacity (fields m') = capacity (fields m) /\
      slot_count (fields m') = slot_count (fields m) /\
      rep_inv (fields m') /\
      model (fields m') = model_set_all (model (fields m)) kvs.
Proof.
  induction kvs as [|[k v] kvs IH]; intros m I Hcap Hload Hmax; simpl in *.
  - by exists m.
  - unfold set_mem. rewrite reserve_mem_room by (done || lia).
    cbn [obind].
    destruct (trashmap_set_spec (fields m) k v I)
      as (map1 & -> & Hmodel & HI & Hcase & Hc & Hs).
    cbn [obind]. specialize (HI ltac:(lia)).
    specialize (Hc ltac:(lia)). specialize (Hs ltac:(lia)).
    assert (count map1 <= count (fields m) + 1) as Hc1.
    { destruct (model_get (model (fields m)) (chars k)); [|lia].
      destruct Hcase as (_ & -> & _). lia. }
    destruct (IH (mk_mem (mem_heap m) (slots_ptr m) (items_ptr m) map1) HI
                ltac:(simpl; lia) ltac:(simpl; rewrite Hs; lia)
                ltac:(simpl; lia))
      as (m' & -> & Hh & Hsp & Hip & Hcap' & Hsc' & I' & Hm').
    exists m'. simpl in *. split_and!; try done; try congruence.
Qed.

(** X21. [trashmap_clear] keeps the memory for reuse: after clearing a
    well-formed table, a sequence of [trashmap_set] calls that is no longer
    than [capacity] and than [slot_count * 3 / 4] returns without any call
    of the allocator; the heap and both array pointers are what they were
    before the clear, and every key is looked up with the last value set
    for it. *)
Theorem clear_reuses_memory (m : trashmap_mem) (kvs : list (cstring * ptr)) :
  rep_inv (fields m) ->
  Z.of_nat (length kvs) <= capacity (fields m) ->
  Z.of_nat (length kvs) <= slot_count (fields m) * 3 / 4 ->
  Z.of_nat (length kvs) <= UINT32_MAX ->
  exists m',
    run_mem m (op_clear :: List.map (fun kv => op_set (fst kv) (snd kv)) kvs)
      = Done m' /\
    mem_heap m' = mem_heap m /\
    slots_ptr m' = slots_ptr m /\ items_ptr m' = items_ptr m /\
    capacity (fields m') = capacity (fields m) /\
    slot_count (fields m') = slot_count (fields m) /\
    forall k v, last_set kvs (chars k) = Some v ->
      trashmap_get (fields m') k = Done v.
Proof.
  intros I Hcap Hload Hmax. cbn [run_mem apply_op_mem apply_op].
  destruct (trashmap_clear_spec _ I) as [-> I0]. cbn [obind].
  pose proof (inv_capacity _ I) as Hc. pose proof (inv_count _ I) as Hcount.
  set (map0 := mk_map (replicate (Z.to_nat (slot_count (fields m))) empty_slot)
                 (items (fields m)) (slot_count (fields m)) 0
                 (capacity (fields m))) in *.
  destruct (sets_reuse_memory kvs
              (mk_mem (mem_heap m) (slots_ptr m) (items_ptr m) map0) I0
              ltac:(simpl; lia) ltac:(simpl; lia) ltac:(simpl; lia))
    as (m' & -> & Hh & Hsp & Hip & Hcap' & Hsc' & I' & Hm').
  exists m'. simpl in *. split_and!; try done.
  intros k v Hlast. rewrite (trashmap_get_spec _ _ I'), Hm'.
  by rewrite model_value_set_all, Hlast.
Qed.

Lemma clear_reuses_memory_witness :
  exists m',
    run_mem (mk_mem (mk_heap [1; 0]%nat 2) (Some 0%nat) (Some 1%nat) example_table)
      [op_clear; op_set there (Some hello)] = Done m' /\
    mem_heap m' = mk_heap [1; 0]%nat 2 /\
    trashmap_get (fields m') there = Done (Some hello).
Proof.
  destruct (clear_reuses_memory
              (mk_mem (mk_heap [1; 0]%nat 2) (Some 0%nat) (Some 1%nat) example_table)
              [(there, Some hello)] example_table_inv)
    as (m' & Hrun & Hh & _ & _ & _ & _ & Hget);
    [vm_compute; discriminate..|].
  exists m'. split; [exact Hrun|]. split; [exact Hh|].
  apply Hget. reflexivity.
Defined.

(** ** Every operation returns *)

(** X22. As long as no call asks for room beyond the [2^32 - 1] entries
    that the 32-bit index can number, no public operation fails an
    assertion, runs into undefined behaviour or loops: on a table reached
    by a run of the public operations, [trashmap_set] (while
    [count < 2^32 - 1]), [trashmap_reserve] (while
    [count + extra <= 2^32 - 1]), [trashmap_clear], [trashmap_get] and
    [trashmap_has] all return. The arrays requested on the way have at most
    [2^37] bytes. *)
Theorem operations_return (ops : list op) (map : trashmap_t) (o : op) :
  reaches ops map -> op_small map o ->
  exists map', apply_op map o = Done map' /\ reaches (ops ++ [o]) map'.
Proof.
  intros Hreach Hsmall. destruct (reaches_rep_inv _ _ Hreach) as [I _].
  assert (op_in_range map o) as Hrange.
  { destruct o; simpl in *; try done. pow2. lia. }
  assert (exists map', apply_op map o = Done map') as [map' Hstep].
  { destruct o as [key value|extra| |key|key]; simpl in *.
    - destruct (trashmap_set_spec map key value I) as (map' & Hrun & _). eauto.
    - destruct (trashmap_reserve_spec map extra I (proj1 Hsmall))
        as (map' & Hrun & _); [pow2; lia|eauto].
    - destruct (trashmap_clear_spec map I) as [Hrun _]. eauto.
    - rewrite (trashmap_get_spec _ _ I). simpl. eauto.
    - rewrite (trashmap_has_spec _ _ I). simpl. eauto. }
  exists map'. split; [done|]. by apply (reaches_step ops map).
Qed.

Lemma operations_return_witness :
  exists map',
    trashmap_reserve example_table 100 = Done map' /\
    reaches [op_set hello (Some world); op_reserve 100] map'.
Proof.
  apply (operations_return _ example_table (op_reserve 100)
           example_table_reaches).
  simpl. split; vm_compute; discriminate.
Defined.

(** ** The table as an association list *)

(** X23. Through [trashmap_get] and [trashmap_has] a table behaves as the
    list of entries that its history describes, where [trashmap_set]
    replaces the value of the entry with the same key or else appends an
    entry, [trashmap_clear] empties the list, and the other operations
    leave it alone: after any run within the size bounds, [trashmap_has]
    tells whether the list has an entry with the key, and [trashmap_get]
    returns the value of that entry, or [NULL] when there is none. *)
Theorem lookup_matches_history (ops : list op) (map : trashmap_t)
    (key : cstring) :
  reaches ops map ->
  trashmap_get map key = Done (model_value (abstract_run ops) (chars key)) /\
  trashmap_has map key = Done (model_has (abstract_run ops) (chars key)).
Proof.
  intros Hreach. destruct (reaches_rep_inv _ _ Hreach) as [I <-].
  split; [by apply trashmap_get_spec|by apply trashmap_has_spec].
Qed.

Lemma lookup_matches_history_witness :
  trashmap_get example_table hello = Done (Some world) /\
  trashmap_has example_table hello = Done true.
Proof.
  exact (lookup_matches_history _ _ hello example_table_reaches).
Defined.

(** * Beyond the 32-bit index *)

(** What happens when a table is given more entries than its 32-bit slot
    index can number. The tables of this part have [2^32 - 1] entries and
    more; nothing here is computed, all is proved from the lemmas above. *)

(** ** Many keys *)

Lemma pos_key_c_str (p : positive) : c_str (pos_key p) = pos_key p.
Proof. induction p as [p IH|p IH|]; simpl; by rewrite ?IH. Qed.

Lemma pos_key_inj (p q : positive) : pos_key p = pos_key q -> p = q.
Proof.
  assert (forall r, pos_key r <> EmptyString) as Hne by (by intros []).
  revert q. induction p as [p IH|p IH|]; intros [q|q|]; simpl;
    intros H; try discriminate; try done.
  - f_equal. apply IH. congruence.
  - injection H as H. by apply Hne in H.
  - f_equal. apply IH. congruence.
  - injection H as H. symmetry in H. by apply Hne in H.
Qed.

Lemma nth_key_inj (i j : nat) :
  c_str (chars (nth_key i)) = c_str (chars (nth_key j)) -> i = j.
Proof.
  unfold nth_key. simpl. rewrite !pos_key_c_str. intros H.
  by apply SuccNat2Pos.inj, pos_key_inj.
Qed.

Lemma nth_key_later (n j : nat) :
  (n <= j)%nat -> ~ first_keys n (c_str (chars (nth_key j))).
Proof. intros Hj (i & Hi & Heq). apply nth_key_inj in Heq. lia. Qed.

Lemma nth_key_fresh (n : nat) : ~ first_keys n (c_str (chars (nth_key n))).
Proof. by apply nth_key_later. Qed.

Lemma first_sets_S (n : nat) :
  first_sets (S n) = first_sets n ++ [(nth_key n, Some (nth_key n))].
Proof. unfold first_sets. by rewrite seq_S, fmap_app. Qed.

Lemma first_sets_distinct (n : nat) :
  NoDup ((fun kv => c_str (chars (fst kv))) <$> first_sets n).
Proof.
  unfold first_sets. rewrite <- list_fmap_compose.
  apply NoDup_fmap_2_strong; [|apply NoDup_seq].
  intros i j _ _ H. by apply nth_key_inj in H.
Qed.

Lemma first_items_lookup (n i : nat) (it : trashmap_item_t) :
  first_items n !! i = Some it ->
  (i < n)%nat /\ it = mk_item (nth_key i) (Some (nth_key i)).
Proof.
  unfold first_items. rewrite list_lookup_fmap.
  destruct (seq 0 n !! i) as [j|] eqn:Hj; simpl; [|done].
  apply lookup_seq in Hj as [-> Hlt]. by intros [= <-].
Qed.

Lemma model_get_absent (its : list trashmap_item_t) (k : string) :
  (forall it, it ∈ its -> c_str k <> c_str (chars (Item.key it))) ->
  model_get its k = None.
Proof.
  unfold model_get. induction its as [|a its IH]; intros Hall; [done|].
  simpl. destruct (same_key k a) eqn:Ha.
  - apply same_key_spec in Ha. destruct (Hall a); [left|done].
  - apply IH. intros it Hit. apply Hall. by right.
Qed.

Lemma model_first_sets (n : nat) :
  model_set_all [] (first_sets n) = first_items n.
Proof.
  induction n as [|n IH]; [done|].
  unfold first_sets, first_items in *.
  rewrite seq_S, !fmap_app. unfold model_set_all in *.
  rewrite fold_left_app, IH. simpl.
  apply model_set_absent, model_get_absent.
  intros it [i Hi]%list_elem_of_lookup.
  apply (first_items_lookup n i it) in Hi as [Hlt ->]. simpl.
  intros Heq. apply nth_key_inj in Heq. lia.
Qed.

Lemma first_sets_length (n : nat) : length (first_sets n) = n.
Proof. unfold first_sets. by rewrite length_fmap, length_seq. Qed.

Lemma first_items_length (n : nat) : length (first_items n) = n.
Proof. unfold first_items. by rewrite length_fmap, length_seq. Qed.

(** ** Runs of sets *)

Lemma reaches_set_all (kvs : list (cstring * ptr)) :
  forall (ops : list op) (map : trashmap_t),
    reaches ops map ->
    count map + Z.of_nat (length kvs) <= UINT32_MAX ->
    count map + Z.of_nat (length kvs) <= slot_count map * 3 / 4 ->
    exists map',
      set_all map kvs = Done map' /\
      reaches (ops ++ set_ops kvs) map' /\
      model map' = model_set_all (model map) kvs /\
      slot_count map' = slot_count map.
Proof.
  induction kvs as [|[k v] kvs IH]; intros ops map Hreach Hmax Hload.
  - exists map. unfold set_ops. rewrite app_nil_r. done.
  - cbn [length] in Hmax, Hload.
    destruct (reaches_rep_inv _ _ Hreach) as [I _].
    destruct (trashmap_set_spec map k v I)
      as (m1 & Hrun & Hm1 & _ & Hcase & _ & Hsc).
    assert (count m1 <= count map + 1) as Hc1.
    { destruct (model_get (model map) (chars k)); [|lia].
      destruct Hcase as (_ & -> & _). lia. }
    specialize (Hsc ltac:(lia)).
    assert (reaches (ops ++ [op_set k v]) m1) as Hreach1.
    { apply (reaches_step ops map); [done| |done]. simpl. lia. }
    destruct (IH _ m1 Hreach1) as (map' & Hrun' & Hreach' & Hm' & Hsc');
      [lia|rewrite Hsc; lia|].
    exists map'. split_and!.
    + cbn [set_all]. rewrite Hrun. cbn [obind]. done.
    + unfold set_ops in *. rewrite fmap_cons. cbn [fst snd].
      by rewrite <- app_assoc in Hreach'.
    + rewrite Hm', Hm1. done.
    + congruence.
Qed.

(** ** Counting the occupied slots *)

Lemma count_occupied_le_length (sl : list trashmap_slot_t) :
  (count_occupied sl <= length sl)%nat.
Proof.
  induction sl as [|a sl IH]; [done|].
  rewrite count_occupied_cons. simpl. destruct (occupied a); lia.
Qed.

Lemma count_occupied_none (sl : list trashmap_slot_t) :
  (forall p s, sl !! p = Some s -> occupied s = false) ->
  count_occupied sl = 0%nat.
Proof.
  induction sl as [|a sl IH]; intros Hall; [done|].
  rewrite count_occupied_cons, (Hall 0%nat a eq_refl).
  apply IH. intros p s Hp. by apply (Hall (S p)).
Qed.

Lemma two_empty_slots (sl : list trashmap_slot_t) (e p : nat)
    (a b : trashmap_slot_t) :
  sl !! e = Some a -> occupied a = false ->
  sl !! p = Some b -> occupied b = false -> e <> p ->
  (S (S (count_occupied sl)) <= length sl)%nat.
Proof.
  intros He Ha Hp Hb Hne.
  pose proof (count_occupied_insert sl e a (mk_slot 0 0) He Ha eq_refl) as H1.
  assert (<[e := mk_slot 0 0]> sl !! p = Some b) as Hp'
    by (by rewrite list_lookup_insert_ne).
  pose proof (count_occupied_insert _ p b (mk_slot 0 0) Hp' Hb eq_refl) as H2.
  pose proof (count_occupied_le_length
                (<[p := mk_slot 0 0]> (<[e := mk_slot 0 0]> sl))) as H3.
  rewrite !length_insert in H3. lia.
Qed.

(** When all occupied slots are among the first [m], and there are [m - 1]
    of them, one empty slot among the first [m] is the only one. *)
Lemma one_empty_slot (sl : list trashmap_slot_t) (m e : nat)
    (a : trashmap_slot_t) :
  (m <= length sl)%nat ->
  (forall p s, sl !! p = Some s -> occupied s = true -> (p < m)%nat) ->
  S (count_occupied sl) = m ->
  sl !! e = Some a -> occupied a = false -> (e < m)%nat ->
  forall p, (p < m)%nat -> p <> e ->
    exists t, sl !! p = Some t /\ occupied t = true.
Proof.
  intros Hlen Hlow Hcount He Ha Hem p Hp Hne.
  destruct (lookup_lt_is_Some_2 sl p ltac:(lia)) as [t Ht].
  exists t. split; [done|].
  destruct (occupied t) eqn:Hocc; [done|]. exfalso.
  assert (count_occupied (drop m sl) = 0%nat) as Hdrop.
  { apply count_occupied_none. intros q s Hq.
    rewrite lookup_drop in Hq.
    destruct (occupied s) eqn:Hs; [|done].
    apply Hlow in Hq; [lia|done]. }
  pose proof (count_occupied_app (take m sl) (drop m sl)) as Happ.
  rewrite take_drop, Hdrop in Happ.
  assert (take m sl !! e = Some a) as He' by (by rewrite lookup_take_lt).
  assert (take m sl !! p = Some t) as Hp' by (by rewrite lookup_take_lt).
  pose proof (two_empty_slots _ e p a t He' Ha Hp' Hocc ltac:(done)) as Htwo.
  rewrite length_take in Htwo. lia.
Qed.

(** ** A table with [2^32 - 1] entries *)

Lemma rep_inv_probed_full (map : trashmap_t) (e : nat) (a : trashmap_slot_t) :
  rep_inv map -> count map = UINT32_MAX -> 2 ^ 32 <= slot_count map ->
  Z.of_nat e < 2 ^ 32 -> slots map !! e = Some a -> occupied a = false ->
  probed_full (Some e) (slots map).
Proof.
  intros I Hcount Hsc He Ha Hocc.
  pose proof (inv_rep _ I) as R. pose proof (inv_slots_len _ I) as Hlen.
  assert (probe_size (slot_count map) = 2 ^ 32) as HM
    by (unfold probe_size; lia).
  assert (exists m : nat, Z.of_nat m = 2 ^ 32) as [m Hm]
    by (exists (Z.to_nat (2 ^ 32)); by rewrite Z2Nat.id).
  split.
  - intros p Hp Hne.
    apply (one_empty_slot (slots map) m e a); try done; try lia.
    + intros q s Hq Hs. destruct (rep_mem _ _ _ R q s Hq Hs) as [Hlt _]. lia.
    + pose proof (rep_card _ _ _ R) as Hcard.
      rewrite table_of_length in Hcard.
      pose proof (model_length _ I). pow2. lia.
    + congruence.
  - intros p [= <-]. eauto.
Qed.

Lemma rep_inv_slots_known (known : string -> Prop) (map : trashmap_t) :
  rep_inv map ->
  (forall i it, model map !! i = Some it ->
     known (c_str (chars (Item.key it)))) ->
  slots_known known map.
Proof.
  intros I Hknown p t Hp Hocc.
  destruct (occupied_slot_item _ _ _ I Hp Hocc) as (i & it & Hi & -> & _).
  destruct (model_lookup _ _ _ I Hi) as [Hit Hlt]. simpl.
  rewrite Nat2Z.id. split; [lia|]. exists it. split; [done|]. by eapply Hknown.
Qed.

(** ** Probing a crowded table *)

Lemma known_no_match (known : string -> Prop) (map : trashmap_t)
    (key : cstring) (p : nat) (t : trashmap_slot_t) :
  slots_known known map -> ~ known (c_str (chars key)) ->
  slots map !! p = Some t -> occupied t = true ->
  key_matches map key (trashmap_hash (chars key)) (hash t) (index t)
  = Done false.
Proof.
  intros Hknown Hnew Hp Hocc.
  destruct (Hknown p t Hp Hocc) as (_ & it & Hit & Hk).
  unfold key_matches. destruct (hash t =? _); [|done].
  rewrite (read_item_Done _ _ _ Hit). cbn [obind]. f_equal.
  rewrite same_key_strcmp. unfold same_key.
  apply String.eqb_neq. intros Heq. by rewrite Heq in Hnew.
Qed.

Lemma crowded_probe (known : string -> Prop) (map : trashmap_t)
    (key : cstring) (e : option nat) :
  crowded known map -> ~ known (c_str (chars key)) ->
  probed_full e (slots map) ->
  probe (probe_fuel map) map key (trashmap_hash (chars key))
    (trashmap_hash (chars key) mod 2 ^ 32)
    (trashmap_hash (chars key) mod 2 ^ 32)
  = Done (match e with
          | Some p => PEmpty (Z.of_nat p)
          | None => PWrapped
          end).
Proof.
  intros C Hnew [Hfull Hempty].
  pose proof (cr_slot_count _ _ C) as Hsc.
  set (h := trashmap_hash (chars key)).
  assert (2 ^ 32 = probe_size (slot_count map)) as HM
    by (unfold probe_size; lia).
  assert (exists m : nat, Z.of_nat m = 2 ^ 32) as [m Hm]
    by (exists (Z.to_nat (2 ^ 32)); by rewrite Z2Nat.id).
  assert (forall i, 0 <= i < 2 ^ 32 ->
     exists t, slots map !! Z.to_nat ((h + i) mod 2 ^ 32) = Some t /\
       (occupied t = true ->
        key_matches map key h (hash t) (index t) = Done false)) as Hall.
  { intros i Hi.
    pose proof (Z.mod_pos_bound (h + i) (2 ^ 32) ltac:(done)) as Hq.
    destruct (decide (Some (Z.to_nat ((h + i) mod 2 ^ 32)) = e)) as [He|He].
    - destruct (Hempty _ (eq_sym He)) as (_ & t & Ht & Hocc).
      exists t. split; [done|]. congruence.
    - destruct (Hfull (Z.to_nat ((h + i) mod 2 ^ 32)) ltac:(lia) He)
        as (t & Ht & Hocc).
      exists t. split; [done|]. intros _.
      exact (known_no_match known map key _ t (cr_known _ _ C) Hnew Ht Hocc). }
  destruct (probe_absent map key h (2 ^ 32) HM ltac:(pow2; lia) Hall m 0
              ltac:(lia) ltac:(lia) ltac:(intros; lia))
    as [(d & t & Hd & Hprobe & Ht & Hocc & _)|[Hprobe Hoccupied]].
  - rewrite Z.add_0_r in Hprobe.
    pose proof (Z.mod_pos_bound (h + d) (2 ^ 32) ltac:(done)) as Hq.
    destruct (decide (Some (Z.to_nat ((h + d) mod 2 ^ 32)) = e)) as [He|He].
    + rewrite <- He. rewrite Z2Nat.id by lia.
      apply (probe_fuel_mono m); [done|]. unfold probe_fuel. lia.
    + destruct (Hfull (Z.to_nat ((h + d) mod 2 ^ 32)) ltac:(lia) He)
        as (t' & Ht' & Hocc'). congruence.
  - rewrite Z.add_0_r in Hprobe. destruct e as [p|].
    + destruct (Hempty p eq_refl) as (Hp & t & Ht & Hocc).
      destruct (Hoccupied ((Z.of_nat p - h) mod 2 ^ 32)) as (t' & Ht' & Hocc').
      { apply Z.mod_pos_bound. done. }
      rewrite probe_pos_dist, Nat2Z.id in Ht' by lia. congruence.
    + apply (probe_fuel_mono m); [done|]. unfold probe_fuel. lia.
Qed.

(** ** [trashmap_reserve(map, 1)] on a crowded table *)

Lemma crowded_reserve (known : string -> Prop) (map : trashmap_t) :
  crowded known map ->
  exists map1,
    trashmap_reserve map 1 = Done map1 /\
    slots map1 = slots map /\ slot_count map1 = slot_count map /\
    count map1 = count map /\
    count map + 1 <= capacity map1 < 2 ^ 60 /\
    Z.of_nat (length (items map1)) = capacity map1 /\
    (forall i : nat, (i < length (items map))%nat ->
       items map1 !! i = items map !! i).
Proof.
  intros [Hsc Hload Hcount Hcap Hlen _ _].
  assert (reserve_slots_room : forall m : trashmap_t,
    slot_count m = slot_count map -> count m = count map ->
    reserve_slots m 1 = Done m).
  { intros m Hs Hc. unfold reserve_slots. rewrite Hs, Hc.
    rewrite (usize_small (count map + 1)) by (pow2; lia).
    rewrite (usize_small (slot_count map * 3)) by (pow2; lia).
    destruct (Z.gtb_spec (count map + 1) (slot_count map * 3 / 4)); [|done].
    pow2. lia. }
  unfold trashmap_reserve, reserve_items.
  rewrite (usize_small (count map + 1)) by (pow2; lia).
  destruct (Z.gtb_spec (count map + 1) (capacity map)) as [Hgt|Hle].
  - destruct (Z.eqb_spec (capacity map) 0) as [|_]; [lia|]. cbv zeta.
    destruct (grow_capacity_spec (count map) 1 ltac:(pow2; lia) grow_fuel
                (capacity map) ltac:(lia))
      as (cap' & -> & Hb & Hge & Hmin).
    { assert (2 ^ 59 <= 1 * 2 ^ Z.of_nat grow_fuel) by done.
      assert (0 < 2 ^ Z.of_nat grow_fuel) by done. pow2. nia. }
    cbn [obind].
    rewrite (realloc_grow map cap' Hlen ltac:(lia) ltac:(lia)).
    destruct (Z.gtb_spec (cap' * sizeof_item) PTRDIFF_MAX); [pow2; lia|].
    cbn [obind]. rewrite reserve_slots_room by done.
    eexists. split; [done|]. cbn [slots slot_count count capacity items].
    split_and!; try done; try lia.
    + rewrite length_app, length_replicate. lia.
    + intros i Hi. by apply lookup_app_l.
  - cbn [obind]. rewrite reserve_slots_room by done.
    exists map. split_and!; try done; lia.
Qed.

Lemma crowded_after_reserve (known : string -> Prop) (map map1 : trashmap_t) :
  crowded known map ->
  slots map1 = slots map -> slot_count map1 = slot_count map ->
  count map1 = count map ->
  count map + 1 <= capacity map1 < 2 ^ 60 ->
  Z.of_nat (length (items map1)) = capacity map1 ->
  (forall i : nat, (i < length (items map))%nat ->
     items map1 !! i = items map !! i) ->
  crowded known map1.
Proof.
  intros [Hsc Hload Hcount Hcap Hlen (it0 & Hit0 & Hk0) Hknown]
    Hs1 Hsc1 Hc1 Hcap1 Hlen1 Hsame.
  split; rewrite ?Hsc1, ?Hc1; try done; try lia.
  - exists it0. split; [|done]. rewrite Hsame; [done|lia].
  - intros p t Hp Hocc. rewrite Hs1 in Hp.
    destruct (Hknown p t Hp Hocc) as (Hidx & it & Hit & Hk).
    rewrite Hc1. split; [done|]. exists it. split; [|done].
    rewrite Hsame; [done|lia].
Qed.

(** ** [trashmap_set], [trashmap_get] and [trashmap_has] on a crowded table *)

Lemma crowded_start (known : string -> Prop) (map : trashmap_t) (key : cstring) :
  crowded known map ->
  (slot_count map =? 0) = false /\
  u32 (trashmap_hash (chars key) mod slot_count map)
  = trashmap_hash (chars key) mod 2 ^ 32.
Proof.
  intros C. pose proof (cr_slot_count _ _ C) as Hsc. split.
  - apply Z.eqb_neq. pow2. lia.
  - apply probe_start; [unfold probe_size; lia|apply trashmap_hash_range|
      pow2; lia].
Qed.

Lemma crowded_set_probe (known : string -> Prop) (map : trashmap_t)
    (key : cstring) (value : ptr) (e : option nat) :
  crowded known map -> ~ known (c_str (chars key)) ->
  probed_full e (slots map) ->
  exists map1,
    crowded known map1 /\
    slots map1 = slots map /\ slot_count map1 = slot_count map /\
    count map1 = count map /\
    count map + 1 <= capacity map1 < 2 ^ 60 /\
    Z.of_nat (length (items map1)) = capacity map1 /\
    (forall i : nat, (i < length (items map))%nat ->
       items map1 !! i = items map !! i) /\
    trashmap_set map key value
    = set_of_probe map1 key value (trashmap_hash (chars key))
        (match e with
         | Some p => PEmpty (Z.of_nat p)
         | None => PWrapped
         end).
Proof.
  intros C Hnew Hfull.
  destruct (crowded_reserve known map C)
    as (map1 & Hres & Hs & Hsc & Hc & Hcap & Hlen & Hsame).
  pose proof (crowded_after_reserve known map map1 C Hs Hsc Hc Hcap Hlen Hsame)
    as C1.
  exists map1. split_and!; try done; try lia.
  unfold trashmap_set. rewrite Hres. cbn [obind]. cbv zeta.
  destruct (crowded_start known map1 key C1) as [-> ->].
  rewrite set_loop_probe, (crowded_probe known map1 key e C1 Hnew); [done|].
  by rewrite Hs.
Qed.

(** A call that finds the whole probe sequence occupied ends in the
    assertion. *)
Lemma crowded_set_full (known : string -> Prop) (map : trashmap_t)
    (key : cstring) (value : ptr) :
  crowded known map -> ~ known (c_str (chars key)) ->
  probed_full None (slots map) ->
  trashmap_set map key value = Fault (assertion_failed "corrupted hash map").
Proof.
  intros C Hnew Hfull.
  destruct (crowded_set_probe known map key value None C Hnew Hfull)
    as (map1 & _ & _ & _ & _ & _ & _ & _ & ->). done.
Qed.

(** A call that finds the empty slot [e] writes the entry to the arena and
    the number of the entry, cut to 32 bits, to the slot. *)
Lemma crowded_set_empty (known : string -> Prop) (map : trashmap_t)
    (key : cstring) (value : ptr) (e : nat) :
  crowded known map -> ~ known (c_str (chars key)) ->
  probed_full (Some e) (slots map) -> count map <= 2 ^ 32 ->
  exists map',
    trashmap_set map key value = Done map' /\
    slots map'
    = <[e := mk_slot (trashmap_hash (chars key)) (u32 (count map))]> (slots map) /\
    slot_count map' = slot_count map /\
    count map' = count map + 1 /\
    count map' <= capacity map' < 2 ^ 60 /\
    Z.of_nat (length (items map')) = capacity map' /\
    (forall i : nat, Z.of_nat i < count map ->
       items map' !! i = items map !! i).
Proof.
  intros C Hnew Hfull Hcount.
  destruct (crowded_set_probe known map key value (Some e) C Hnew Hfull)
    as (map1 & C1 & Hs & Hsc & Hc & Hcap & Hlen & Hsame & ->).
  destruct Hfull as [_ Hempty].
  destruct (Hempty e eq_refl) as (He & t & Ht & _).
  pose proof (cr_count _ _ C) as Hcnt. pose proof (cr_capacity _ _ C) as Hcap0.
  pose proof (cr_items_len _ _ C) as Hlen0.
  pose proof (lookup_lt_Some _ _ _ Ht) as Hlt.
  cbn [set_of_probe]. unfold write. rewrite Hc, Hs.
  destruct (Z.leb_spec (Z.of_nat (length (items map1))) (count map)); [lia|].
  cbn [obind].
  destruct (Z.leb_spec (Z.of_nat (length (slots map))) (Z.of_nat e)); [lia|].
  cbn [obind]. rewrite Nat2Z.id.
  rewrite (usize_small (count map + 1)) by (pow2; lia).
  eexists. split; [done|]. cbn [slots slot_count count capacity items].
  split_and!; try done; try lia.
  - rewrite length_insert. done.
  - intros i Hi. rewrite list_lookup_insert_ne by lia. apply Hsame. lia.
Qed.

(** A key that is not in the table is reported as absent. *)
Lemma crowded_lookup (known : string -> Prop) (map : trashmap_t)
    (key : cstring) (e : option nat) :
  crowded known map -> ~ known (c_str (chars key)) ->
  probed_full e (slots map) ->
  trashmap_get map key = Done None /\ trashmap_has map key = Done false.
Proof.
  intros C Hnew Hfull.
  destruct (crowded_start known map key C) as [Hsc Hstart].
  pose proof (crowded_probe known map key e C Hnew Hfull) as Hprobe.
  unfold trashmap_get, trashmap_has. rewrite Hsc, Hstart. cbv zeta. split.
  - rewrite get_loop_probe, Hprobe. by destruct e.
  - rewrite has_loop_probe, Hprobe; [by destruct e|].
    intros bi. apply key_matches_read.
Qed.

(** ** The entry numbered [2^32 - 1] *)

(** Its slot receives the index [0xFFFFFFFF], the mark of an empty slot:
    the table looks as before, but for the count. *)
Lemma crowded_set_sentinel (known : string -> Prop) (map : trashmap_t)
    (key : cstring) (value : ptr) (e : nat) :
  crowded known map -> ~ known (c_str (chars key)) ->
  probed_full (Some e) (slots map) -> count map = UINT32_MAX ->
  exists map',
    trashmap_set map key value = Done map' /\
    count map' = 2 ^ 32 /\
    crowded known map' /\ probed_full (Some e) (slots map').
Proof.
  intros C Hnew Hfull Hcount.
  destruct (crowded_set_empty known map key value e C Hnew Hfull
              ltac:(pow2; lia))
    as (map' & Hset & Hs & Hsc & Hc & Hcap & Hlen & Hsame).
  exists map'. split; [done|]. split; [pow2; lia|].
  assert (u32 (count map) = UINT32_MAX) as Hidx
    by (rewrite Hcount; apply u32_small; pow2; lia).
  destruct C as [Csc Cload Ccount Ccap Clen (it0 & Hit0 & Hk0) Cknown].
  destruct Hfull as [Hocc Hempty].
  destruct (Hempty e eq_refl) as (He & t & Ht & Htocc).
  split.
  - split; rewrite ?Hsc, ?Hc; try done; try (pow2; lia).
    + exists it0. split; [|done]. rewrite Hsame; [done|lia].
    + intros p s Hp Hs'. rewrite Hs in Hp.
      destruct (decide (p = e)) as [->|Hne].
      * rewrite list_lookup_insert_eq in Hp by (by eapply lookup_lt_Some).
        injection Hp as <-. unfold occupied in Hs'. cbn [index] in Hs'.
        rewrite Hidx, Z.eqb_refl in Hs'. done.
      * rewrite list_lookup_insert_ne in Hp by done.
        destruct (Cknown p s Hp Hs') as (Hi & it & Hit & Hk).
        split; [lia|]. exists it. split; [|done]. rewrite Hsame; [done|lia].
  - rewrite Hs. split.
    + intros p Hp Hne. destruct (Hocc p Hp Hne) as (s & Hps & Hs').
      exists s. split; [|done]. rewrite list_lookup_insert_ne; [done|congruence].
    + intros p [= <-]. split; [done|]. eexists. split.
      * apply list_lookup_insert_eq. by eapply lookup_lt_Some.
      * unfold occupied. cbn [index]. by rewrite Hidx, Z.eqb_refl.
Qed.

(** ** The entry numbered [2^32] *)

(** Its slot receives the index [0], that of the first entry; the probed
    slots are now all taken. *)
Lemma crowded_set_wrapped (known : string -> Prop) (map : trashmap_t)
    (key : cstring) (value : ptr) (e : nat) :
  crowded known map -> ~ known (c_str (chars key)) ->
  probed_full (Some e) (slots map) -> count map = 2 ^ 32 ->
  exists map',
    trashmap_set map key value = Done map' /\
    count map' = 2 ^ 32 + 1 /\
    crowded known map' /\ probed_full None (slots map').
Proof.
  intros C Hnew Hfull Hcount.
  destruct (crowded_set_empty known map key value e C Hnew Hfull
              ltac:(lia))
    as (map' & Hset & Hs & Hsc & Hc & Hcap & Hlen & Hsame).
  exists map'. split; [done|]. split; [lia|].
  assert (u32 (count map) = 0) as Hidx by (by rewrite Hcount).
  destruct C as [Csc Cload Ccount Ccap Clen (it0 & Hit0 & Hk0) Cknown].
  destruct Hfull as [Hocc Hempty].
  destruct (Hempty e eq_refl) as (He & t & Ht & Htocc).
  split.
  - split; rewrite ?Hsc, ?Hc; try done; try (pow2; lia).
    + exists it0. split; [|done]. rewrite Hsame; [done|lia].
    + intros p s Hp Hs'. rewrite Hs in Hp.
      destruct (decide (p = e)) as [->|Hne].
      * rewrite list_lookup_insert_eq in Hp by (by eapply lookup_lt_Some).
        injection Hp as <-. cbn [index]. rewrite Hidx.
        split; [lia|]. exists it0. split; [|done].
        change (Z.to_nat 0) with 0%nat. rewrite Hsame; [done|lia].
      * rewrite list_lookup_insert_ne in Hp by done.
        destruct (Cknown p s Hp Hs') as (Hi & it & Hit & Hk).
        split; [lia|]. exists it. split; [|done]. rewrite Hsame; [done|lia].
  - rewrite Hs. split; [|done].
    intros p Hp _. destruct (decide (p = e)) as [->|Hne].
    + eexists. split.
      * apply list_lookup_insert_eq. by eapply lookup_lt_Some.
      * unfold occupied. cbn [index]. by rewrite Hidx.
    + destruct (Hocc p Hp ltac:(congruence)) as (s & Hps & Hs').
      exists s. split; [|done]. by rewrite list_lookup_insert_ne.
Qed.

(** ** Filling a table up to the last index *)

Lemma init_large : exists m0, trashmap_init (2 ^ 33) = Done m0.
Proof.
  eexists. apply (proj1 (trashmap_init_spec (2 ^ 33) ltac:(pow2; lia))).
Qed.

Lemma trashmap_init_fields (n : Z) (map : trashmap_t) :
  1 <= n < 2 ^ 61 -> trashmap_init n = Done map ->
  count map = 0 /\ slot_count map = n /\ rep_inv map.
Proof.
  intros Hn Hinit.
  destruct (trashmap_init_Done n map Hn Hinit) as (_ & -> & I). done.
Qed.

(** [trashmap_init(&map, 2^33)] and [2^32 - 1] calls of [trashmap_set] with
    distinct keys: all return, no rehash takes place, and one slot at least
    of the first [2^32] is empty. *)
Lemma full_index_table (m0 : trashmap_t) (n : nat) :
  trashmap_init (2 ^ 33) = Done m0 -> Z.of_nat n = UINT32_MAX ->
  exists (map : trashmap_t) (e : nat),
    set_all m0 (first_sets n) = Done map /\
    reaches (set_ops (first_sets n)) map /\
    count map = UINT32_MAX /\
    crowded (first_keys n) map /\ probed_full (Some e) (slots map).
Proof.
  intros Hinit Hn.
  assert (1 <= 2 ^ 33 < 2 ^ 61) as Hrange by (pow2; lia).
  destruct (trashmap_init_fields _ _ Hrange Hinit) as (Hc0 & Hsc0 & I0).
  assert (model m0 = []) as Hmodel0.
  { pose proof (model_length _ I0) as Hlen. rewrite Hc0 in Hlen.
    destruct (model m0); [done|]. simpl in Hlen. lia. }
  pose proof (reaches_init _ _ Hrange Hinit) as Hreach0. clear Hinit.
  destruct (reaches_set_all (first_sets n) [] m0 Hreach0)
    as (map & Hrun & Hreach & Hmodel & Hsc).
  { rewrite first_sets_length, Hc0. lia. }
  { rewrite first_sets_length, Hc0, Hsc0.
    change (2 ^ 33 * 3 / 4) with 6442450944. pow2. lia. }
  rewrite Hmodel0, model_first_sets in Hmodel. rewrite Hsc0 in Hsc.
  rewrite app_nil_l in Hreach.
  destruct (reaches_rep_inv _ _ Hreach) as [I _].
  assert (count map = UINT32_MAX) as Hcount.
  { rewrite <- (model_length _ I), Hmodel, first_items_length. done. }
  assert (forall i it, model map !! i = Some it ->
            first_keys n (c_str (chars (Item.key it)))) as Hknown.
  { intros i it Hit. rewrite Hmodel in Hit.
    apply first_items_lookup in Hit as [Hi ->].
    exists i. split; [exact Hi|reflexivity]. }
  assert (model_get (model map) (chars (nth_key n)) = None) as Habsent.
  { apply model_get_absent. intros it Hit Heq.
    apply list_elem_of_lookup in Hit as [i Hi].
    apply (nth_key_fresh n). rewrite Heq. by eapply Hknown. }
  destruct (probe_not_found map (nth_key n) (2 ^ 32) I
              ltac:(unfold probe_size; lia) Habsent)
    as (d & a & Hd & _ & Ha & Hocc & _).
  pose proof (Z.mod_pos_bound (trashmap_hash (chars (nth_key n)) + d) (2 ^ 32)
                ltac:(done)) as Hq.
  exists map, (Z.to_nat ((trashmap_hash (chars (nth_key n)) + d) mod 2 ^ 32)).
  split_and!; try done.
  - split.
    + rewrite Hsc. change (2 ^ 33) with 8589934592. pow2. lia.
    + rewrite Hsc. change (2 ^ 33 * 3 / 4) with 6442450944. pow2. lia.
    + pow2. lia.
    + apply (inv_capacity _ I).
    + apply (inv_items_len _ I).
    + assert (exists it, model map !! 0%nat = Some it) as [it Hit].
      { apply lookup_lt_is_Some_2. rewrite Hmodel, first_items_length.
        pow2. lia. }
      exists it. split; [|by eapply Hknown].
      by destruct (model_lookup _ _ _ I Hit).
    + by apply rep_inv_slots_known.
  - apply (rep_inv_probed_full map _ a I Hcount); [lia|lia|done|done].
Qed.

(** ** One entry more, and two *)

Lemma set_all_snoc (map map' : trashmap_t) (kvs : list (cstring * ptr))
    (k : cstring) (v : ptr) :
  set_all map kvs = Done map' ->
  set_all map (kvs ++ [(k, v)]) = trashmap_set map' k v.
Proof.
  revert map. induction kvs as [|[k' v'] kvs IH]; intros map H; simpl in *.
  - injection H as ->. by destruct (trashmap_set map' k v).
  - destruct (trashmap_set map k' v') as [m1|]; simpl in *; [by apply IH|done].
Qed.

Lemma runs_set (map map' : trashmap_t) (kvs : list (cstring * ptr))
    (k : cstring) (v : ptr) :
  runs (set_ops kvs) map -> trashmap_set map k v = Done map' ->
  runs (set_ops (kvs ++ [(k, v)])) map'.
Proof.
  intros Hruns Hset. unfold set_ops in *. rewrite fmap_app.
  by apply (runs_step _ map).
Qed.

(** After [2^32] calls with distinct keys the table has [2^32] entries and
    does not find the last of them. *)
Lemma last_index_lost (m0 : trashmap_t) (n : nat) :
  trashmap_init (2 ^ 33) = Done m0 -> Z.of_nat n = UINT32_MAX ->
  exists (map : trashmap_t) (e : nat),
    set_all m0 (first_sets (S n)) = Done map /\
    runs (set_ops (first_sets (S n))) map /\
    count map = 2 ^ 32 /\
    crowded (first_keys n) map /\ probed_full (Some e) (slots map) /\
    trashmap_get map (nth_key n) = Done None /\
    trashmap_has map (nth_key n) = Done false.
Proof.
  intros Hinit Hn.
  destruct (full_index_table m0 n Hinit Hn)
    as (map & e & Hrun & Hreach & Hcount & C & Hfull).
  clear Hinit.
  destruct (crowded_set_sentinel (first_keys n) map (nth_key n)
              (Some (nth_key n)) e C (nth_key_fresh n) Hfull Hcount)
    as (map' & Hset & Hcount' & C' & Hfull').
  exists map', e. rewrite first_sets_S.
  split; [rewrite (set_all_snoc _ _ _ _ _ Hrun); exact Hset|].
  split; [exact (runs_set _ _ _ _ _ (reaches_runs _ _ Hreach) Hset)|].
  split; [exact Hcount'|]. split; [exact C'|]. split; [exact Hfull'|].
  exact (crowded_lookup (first_keys n) map' (nth_key n) (Some e) C'
           (nth_key_fresh n) Hfull').
Qed.

(** After [2^32 + 1] calls with distinct keys every slot that a probe visits
    is occupied, and the next call with a new key ends in the assertion. *)
Lemma index_wrapped (m0 : trashmap_t) (n : nat) :
  trashmap_init (2 ^ 33) = Done m0 -> Z.of_nat n = UINT32_MAX ->
  exists map : trashmap_t,
    set_all m0 (first_sets (S (S n))) = Done map /\
    runs (set_ops (first_sets (S (S n)))) map /\
    count map = 2 ^ 32 + 1 /\
    (trashmap_set map (nth_key (S (S n))) (Some (nth_key (S (S n))))
     = Fault (assertion_failed "corrupted hash map")).
Proof.
  intros Hinit Hn.
  destruct (last_index_lost m0 n Hinit Hn)
    as (map & e & Hrun & Hruns & Hcount & C & Hfull & _).
  clear Hinit.
  destruct (crowded_set_wrapped (first_keys n) map (nth_key (S n))
              (Some (nth_key (S n))) e C (nth_key_later n (S n) ltac:(lia))
              Hfull Hcount)
    as (map' & Hset & Hcount' & C' & Hfull').
  exists map'. rewrite (first_sets_S (S n)).
  split; [rewrite (set_all_snoc _ _ _ _ _ Hrun); exact Hset|].
  split; [exact (runs_set _ _ _ _ _ Hruns Hset)|].
  split; [exact Hcount'|].
  exact (crowded_set_full (first_keys n) map' _ _ C'
           (nth_key_later n (S (S n)) ltac:(lia)) Hfull').
Qed.

(** ** The two bounds of the round trip *)

Lemma index_limit : exists n : nat, Z.of_nat n = UINT32_MAX.
Proof. exists (Z.to_nat UINT32_MAX). by rewrite Z2Nat.id. Qed.

(** C1, as stated, fails in two ways. The slot count: with [2^61] slots the
    byte size of the slot array wraps to zero and the first
    [trashmap_set] reads outside the array. The number of entries: after
    [trashmap_init(&map, 2^33)], [2^32] calls of [trashmap_set] with
    distinct keys and values other than [NULL] all return, and then
    [trashmap_get] of the last key returns [NULL] and [trashmap_has] of it
    returns false: its slot holds the index [0xFFFFFFFF], the mark of an
    empty slot. *)
Lemma set_get_roundtrip_bounds :
  (1 <= 2 ^ 61 /\
   trashmap_init (2 ^ 61) = Done (mk_map [] [] (2 ^ 61) 0 0) /\
   (do map <- trashmap_init (2 ^ 61); set_all map [(hello, Some world)])
   = Fault undefined_behaviour) /\
  (exists (n : nat) (m0 map : trashmap_t),
     Z.of_nat n = 2 ^ 32 /\
     trashmap_init (2 ^ 33) = Done m0 /\
     NoDup ((fun kv => c_str (chars (fst kv))) <$> first_sets n) /\
     set_all m0 (first_sets n) = Done map /\
     (exists k : cstring,
        (k, Some k) ∈ first_sets n /\
        trashmap_get map k = Done None /\ trashmap_has map k = Done false)).
Proof.
  split.
  - destruct slot_bytes_overflow as (H1 & H2 & H3 & _).
    split; [exact H1|]. split; [exact H2|exact H3].
  - destruct index_limit as [n Hn]. destruct init_large as [m0 Hinit].
    destruct (last_index_lost m0 n Hinit Hn)
      as (map & e & Hrun & _ & _ & _ & _ & Hget & Hhas).
    exists (S n), m0, map.
    split; [rewrite Nat2Z.inj_succ, Hn; reflexivity|].
    split; [exact Hinit|]. split; [apply first_sets_distinct|].
    split; [exact Hrun|]. exists (nth_key n).
    split; [|split; [exact Hget|exact Hhas]].
    rewrite first_sets_S. apply elem_of_app. right. apply list_elem_of_singleton.
    reflexivity.
Qed.

(** ** The assertion of [trashmap_set] *)

